(** * cardillo: constrained multibody dynamics, Cosserat rods and time stepping

    A shallow embedding of the solver layer ([cardillo/solver/_base.py],
    [moreau.py], [lobatto.py], [radau.py]) and of the quaternion rod base
    class ([cardillo/rods/_base.py]).

    Conventions.
    - NumPy [float64] scalars are modelled by the real numbers [R]; one
      dimensional arrays by [list R]; boolean masks by [list bool]; sparse or
      dense matrices by a shape together with the list of their rows.
    - The reals have no [inf] and no [nan]: where the code divides by a norm,
      the statements that depend on the quotient assume the norm is not
      zero.
    - Elementwise operations are written on lists of equal length: the shapes
      of what the system callbacks return ([nu], [nla_g], ...) are part of
      the callback contract and appear as well-formedness hypotheses where a
      statement depends on them.
    - Python exceptions are values of [exn]; code that can raise returns
      [result].
    - Callbacks of the system, the sparse linear solver [spsolve] and helpers
      of [cardillo.math] that are not part of the sources at hand are section
      variables. *)

From Stdlib Require Import Reals Lra Lia List.
From stdpp Require Import base list.

Local Open Scope R_scope.

(* ================================================================== *)
(** ** Python: exceptions and results *)

Module Py.

Inductive exn : Type :=
  | AssertionError
  | RuntimeError
  | ValueError
  | TypeError
  | IndexError.

Inductive result (A : Type) : Type :=
  | Ok (a : A)
  | Raise (e : exn).
Global Arguments Ok {A} a.
Global Arguments Raise {A} e.

Definition bind {A B} (f : A → result B) (c : result A) : result B :=
  match c with
  | Ok a => f a
  | Raise e => Raise e
  end.

#[global] Instance result_ret : MRet result := λ A a, Ok a.
#[global] Instance result_bind : MBind result := λ A B f c, bind f c.

(** [assert c] *)
Definition py_assert (c : bool) : result unit :=
  if c then Ok tt else Raise AssertionError.

Definition is_ok {A} (c : result A) : Prop :=
  match c with Ok _ => True | Raise _ => False end.

Definition raises {A} (c : result A) (e : exn) : Prop :=
  match c with Ok _ => False | Raise e' => e' = e end.

End Py.
Import Py.

(* ================================================================== *)
(** ** NumPy: arrays, masks and matrices over [R] *)

Module Np.

Abbreviation vec := (list R).

Definition Rleb (x y : R) : bool := if Rle_dec x y then true else false.
Definition Rltb (x y : R) : bool := if Rlt_dec x y then true else false.
Definition Reqb (x y : R) : bool := if Req_dec_T x y then true else false.

(** [np.zeros(n)] *)
Definition zeros (n : nat) : vec := replicate n 0.

(** elementwise [a + b], [a - b], [-a], [c * a], [a / c] *)
Definition vadd (a b : vec) : vec := zip_with Rplus a b.
Definition vsub (a b : vec) : vec := zip_with Rminus a b.
Definition vneg (a : vec) : vec := Ropp <$> a.
Definition vscale (c : R) (a : vec) : vec := Rmult c <$> a.
Definition vdiv (a : vec) (c : R) : vec := (λ x, x / c) <$> a.
(** elementwise [a * b] of two arrays *)
Definition vmul (a b : vec) : vec := zip_with Rmult a b.

(** [a @ b] for one dimensional arrays *)
Definition dot (a b : vec) : R := foldr Rplus 0 (zip_with Rmult a b).

(** [norm(a)] of [cardillo.math.algebra]: the Euclidean norm *)
Definition norm (a : vec) : R := sqrt (dot a a).

(** comparisons of an array with a scalar give a mask *)
Definition le0 (a : vec) : list bool := (λ x, Rleb x 0) <$> a.
Definition ge0 (a : vec) : list bool := (λ x, Rleb 0 x) <$> a.

Definition np_all (m : list bool) : bool := forallb (λ b, b) m.
Definition np_any (m : list bool) : bool := existsb (λ b, b) m.

(** a mask times a float array: [True] is [1.0], [False] is [0.0] *)
Definition bmul (m : list bool) (a : vec) : vec :=
  zip_with (λ (b : bool) x, (if b then 1 else 0) * x) m a.

(** [np.allclose(a, b, rtol, atol)]: [|a - b| <= atol + rtol * |b|]
    everywhere *)
Definition allclose (a b : vec) (rtol atol : R) : bool :=
  np_all
    (zip_with (λ x y, Rleb (Rabs (x - y)) (atol + rtol * Rabs y)) a b).

(** [a[m]] for a boolean mask [m] *)
Fixpoint select {A} (m : list bool) (a : list A) : list A :=
  match m, a with
  | b :: m', x :: a' => if b then x :: select m' a' else select m' a'
  | _, _ => []
  end.

(** [a[m] = src] for a boolean mask [m]: the entries of [src] go, in order,
    to the positions where [m] holds *)
Fixpoint mask_assign {A} (m : list bool) (a src : list A) : list A :=
  match m, a with
  | b :: m', x :: a' =>
      if b then
        match src with
        | s :: src' => s :: mask_assign m' a' src'
        | [] => x :: mask_assign m' a' []
        end
      else x :: mask_assign m' a' src
  | _, _ => a
  end.

(** [a[idx]] for an integer index array *)
Definition gather (a : vec) (idx : list nat) : vec :=
  (λ i, nth i a 0) <$> idx.

(** [a[idx] = src] for an integer index array: assignments in order *)
Definition scatter (a : vec) (idx : list nat) (src : vec) : vec :=
  foldl (λ acc (p : nat * R), <[p.1 := p.2]> acc) a (zip idx src).

(** [np.eye(n)] *)
Definition eye (n : nat) : list vec :=
  (λ i, (λ j, if (i =? j)%nat then 1 else 0) <$> seq 0 n) <$> seq 0 n.

(** A matrix with its shape, stored by rows. *)
Record matrix : Type := Mat {
  nrows : nat;
  ncols : nat;
  rows : list vec
}.

Definition wf_matrix (A : matrix) : Prop :=
  length (rows A) = nrows A ∧ Forall (λ r, length r = ncols A) (rows A).

Definition has_shape (m n : nat) (A : matrix) : Prop :=
  nrows A = m ∧ ncols A = n ∧ wf_matrix A.

(** [A @ x] *)
Definition matvec (A : matrix) (x : vec) : vec := (λ r, dot r x) <$> rows A.

(** [-A] and [c * A] *)
Definition mneg (A : matrix) : matrix :=
  Mat (nrows A) (ncols A) (vneg <$> rows A).
Definition mscale (c : R) (A : matrix) : matrix :=
  Mat (nrows A) (ncols A) (vscale c <$> rows A).

(** [A.T] *)
Definition transpose (A : matrix) : matrix :=
  Mat (ncols A) (nrows A)
    ((λ j, (λ r, nth j r 0) <$> rows A) <$> seq 0 (ncols A)).

(** [A[:, m]] for a boolean mask and [A[:, idx]] for an index array *)
Definition cols_mask (m : list bool) (A : matrix) : matrix :=
  Mat (nrows A) (length (select m (seq 0 (ncols A)))) (select m <$> rows A).
Definition cols_idx (idx : list nat) (A : matrix) : matrix :=
  Mat (nrows A) (length idx) ((λ r, gather r idx) <$> rows A).

(** [scipy.sparse.bmat]: a grid of blocks, [None] standing for a zero block
    whose shape is taken from the other blocks of its block row and block
    column. *)
Fixpoint first_block (l : list (option matrix)) : option matrix :=
  match l with
  | [] => None
  | Some A :: _ => Some A
  | None :: l' => first_block l'
  end.

Definition block_height (brow : list (option matrix)) : nat :=
  default 0%nat (nrows <$> first_block brow).

Definition block_width (blocks : list (list (option matrix))) (j : nat) : nat :=
  default 0%nat
    (ncols <$> first_block ((λ brow, mjoin (brow !! j)) <$> blocks)).

Definition hstack (a b : list vec) : list vec := zip_with app a b.

Definition block_rows (h w : nat) (b : option matrix) : list vec :=
  match b with
  | Some A => rows A
  | None => replicate h (zeros w)
  end.

Definition bmat_row (widths : list nat) (brow : list (option matrix))
  : list vec :=
  let h := block_height brow in
  foldr hstack (replicate h [])
    (zip_with (λ w b, block_rows h w b) widths brow).

Definition bmat (blocks : list (list (option matrix))) : matrix :=
  let widths :=
    block_width blocks <$> seq 0 (length (default [] (head blocks))) in
  Mat (foldr plus 0%nat (block_height <$> blocks))
      (foldr plus 0%nat widths)
      (concat (bmat_row widths <$> blocks)).

End Np.
Import Np.

(* ================================================================== *)
(** ** [cardillo/solver/_base.py] *)

Module Base.

(** The callbacks and data [consistent_initial_conditions] reads from the
    assembled system. *)
Record System : Type := {
  t0 : R;
  q0 : vec;
  u0 : vec;
  la_N0 : vec;
  la_F0 : vec;
  nu : nat;
  nla_g : nat;
  nla_gamma : nat;
  nla_N : nat;
  nla_S : nat;
  q_dot : R → vec → vec → vec;
  M : R → vec → matrix;
  h : R → vec → vec → vec;
  W_g : R → vec → matrix;
  W_gamma : R → vec → matrix;
  W_N : R → vec → matrix;
  W_F : R → vec → matrix;
  zeta_g : R → vec → vec → vec;
  zeta_gamma : R → vec → vec → vec;
  g : R → vec → vec;
  g_dot : R → vec → vec → vec;
  g_ddot : R → vec → vec → vec → vec;
  gamma : R → vec → vec → vec;
  gamma_dot : R → vec → vec → vec → vec;
  g_S : R → vec → vec;
  g_N : R → vec → vec;
  g_N_dot : R → vec → vec → vec;
  g_N_ddot : R → vec → vec → vec → vec
}.

Definition rtol_default : R := 1 / 100000.
Definition atol_default : R := 1 / 100000000.

Section Solver.

(** [scipy.sparse.linalg.spsolve] *)
Variable spsolve : matrix → vec → vec.

(** The block matrix [A] and right-hand side [b] assembled at
    [(t0, q0, u0)]. *)
Definition kkt_A (system : System) : matrix :=
  let t0 := t0 system in
  let q0 := q0 system in
  let M0 := M system t0 q0 in
  let W_g0 := W_g system t0 q0 in
  let W_gamma0 := W_gamma system t0 q0 in
  bmat [ [Some M0; Some (mneg W_g0); Some (mneg W_gamma0)];
         [Some (transpose W_g0); None; None];
         [Some (transpose W_gamma0); None; None] ].

Definition kkt_b (system : System) : vec :=
  let t0 := t0 system in
  let q0 := q0 system in
  let u0 := u0 system in
  let h0 := h system t0 q0 u0 in
  let zeta_g0 := zeta_g system t0 q0 u0 in
  let zeta_gamma0 := zeta_gamma system t0 q0 u0 in
  let W_N0 := W_N system t0 q0 in
  let W_F0 := W_F system t0 q0 in
  vadd (vadd h0 (matvec W_N0 (la_N0 system))) (matvec W_F0 (la_F0 system))
    ++ vneg zeta_g0 ++ vneg zeta_gamma0.

Definition consistent_initial_conditions
    (system : System) (rtol atol : R)
  : result (R * vec * vec * vec * vec * vec * vec) :=
  let t0 := t0 system in
  let q0 := q0 system in
  let u0 := u0 system in
  let g_N := g_N system t0 q0 in
  _ ← py_assert (np_all (ge0 g_N));
  let I_N := le0 g_N in
  let g_N_dot := g_N_dot system t0 q0 u0 in
  let B_N := zip_with andb I_N (le0 g_N_dot) in
  _ ← py_assert (np_all (ge0 (bmul I_N g_N_dot))
                 || allclose (bmul I_N g_N_dot) (zeros (nla_N system)) rtol atol);
  let q_dot0 := q_dot system t0 q0 u0 in
  let A := kkt_A system in
  let b := kkt_b system in
  let u_dot_la_g_la_gamma := spsolve A b in
  let u_dot0 := take (nu system) u_dot_la_g_la_gamma in
  let la_g0 :=
    take (nla_g system) (drop (nu system) u_dot_la_g_la_gamma) in
  let la_gamma0 :=
    take (nla_gamma system)
      (drop (nu system + nla_g system) u_dot_la_g_la_gamma) in
  let g0 := g system t0 q0 in
  let g_dot0 := g_dot system t0 q0 u0 in
  let g_ddot0 := g_ddot system t0 q0 u0 u_dot0 in
  let gamma0 := gamma system t0 q0 u0 in
  let gamma_dot0 := gamma_dot system t0 q0 u0 u_dot0 in
  let g_S0 := g_S system t0 q0 in
  let g_N_ddot := g_N_ddot system t0 q0 u0 u_dot0 in
  _ ← py_assert (np_all (ge0 g_N_ddot)
                 || allclose (bmul B_N g_N_ddot) (zeros (nla_N system)) rtol atol);
  _ ← py_assert (allclose g0 (zeros (nla_g system)) rtol atol);
  _ ← py_assert (allclose g_dot0 (zeros (nla_g system)) rtol atol);
  _ ← py_assert (allclose g_ddot0 (zeros (nla_g system)) rtol atol);
  _ ← py_assert (allclose gamma0 (zeros (nla_gamma system)) rtol atol);
  _ ← py_assert (allclose gamma_dot0 (zeros (nla_gamma system)) rtol atol);
  _ ← py_assert (allclose g_S0 (zeros (nla_S system)) rtol atol);
  mret (t0, q0, u0, q_dot0, u_dot0, la_g0, la_gamma0).

End Solver.

(** [compute_I_F]: the friction components of the active normal contacts.
    The comprehension
    [[c for i, I_N_i in enumerate(I_N) for c in NF_connectivity[i] if I_N_i]]
    looks up [NF_connectivity[i]] for every contact, active or not, and
    keeps its entries when the contact is active. *)
Fixpoint I_F_of (NF_connectivity : list (list nat)) (i : nat)
    (I_N : list bool) : result (list nat) :=
  match I_N with
  | [] => Ok []
  | I_N_i :: I_N' =>
      match NF_connectivity !! i with
      | None => Raise IndexError
      | Some cs =>
          rest ← I_F_of NF_connectivity (S i) I_N';
          mret ((if I_N_i : bool then cs else []) ++ rest)
      end
  end.

Definition compute_I_F (I_N : list bool) (NF_connectivity : list (list nat))
  : result (list nat) :=
  if np_any I_N then I_F_of NF_connectivity 0 I_N else Ok [].

End Base.

(* ================================================================== *)
(** ** [cardillo/math/prox.py] *)

Module Prox.

(** Modelled from the spec: [prox_Rn0] of [cardillo.math.prox] is not among
    the sources; the specification describes it as the proximal-point
    operator for normal contact, the projection onto the non-negative
    cone. *)
Definition prox_Rn0 (x : vec) : vec := (λ xi, Rmax xi 0) <$> x.

(** Modelled from the spec: [prox_circle] of [cardillo.math.prox] is not
    among the sources; the specification describes it as the projection onto
    a disk of the given radius. *)
Definition prox_circle (x : vec) (radius : R) : vec :=
  if Rleb (norm x) radius then x else vscale (radius / norm x) x.

End Prox.
Import Prox.

(* ================================================================== *)
(** ** [cardillo/solver/moreau.py] *)

Module Moreau.

(** What the scheme reads from the model. *)
Record Model : Type := {
  t0 : R;
  q0 : vec;
  u0 : vec;
  la_g0 : vec;
  la_gamma0 : vec;
  la_N0 : vec;
  la_T0 : vec;
  nq : nat;
  nu : nat;
  nla_g : nat;
  nla_gamma : nat;
  nla_N : nat;
  nla_T : nat;
  NT_connectivity : list (list nat);
  prox_r_N : vec;
  prox_r_T : vec;
  mu : vec;
  q_dot : R → vec → vec → vec;
  M : R → vec → matrix;
  h : R → vec → vec → vec;
  W_g : R → vec → matrix;
  W_gamma : R → vec → matrix;
  W_N : R → vec → matrix;
  W_T : R → vec → matrix;
  g_dot_u : R → vec → matrix;
  chi_g : R → vec → vec;
  gamma_u : R → vec → matrix;
  chi_gamma : R → vec → vec;
  g_dot : R → vec → vec → vec;
  gamma : R → vec → vec → vec;
  g_N : R → vec → vec;
  xi_N : R → vec → vec → vec → vec;
  xi_T : R → vec → vec → vec → vec;
  step_callback : R → vec → vec → vec * vec
}.

Inductive prox_solver_method : Type := fixed_point | newton.

(** The attributes of a [Moreau] object. *)
Record Solver : Type := {
  model : Model;
  t1 : R;
  dt : R;
  t : vec;
  fix_point_error_function : vec → R;
  fix_point_tol : R;
  fix_point_max_iter : nat;
  newton_tol : R;
  newton_max_iter : nat;
  newton_error_function : vec → R;
  tk : R;
  qk : vec;
  uk : vec;
  la_gk : vec;
  la_gammak : vec;
  P_Nk : vec;
  P_Tk : vec;
  method : prox_solver_method
}.

Definition nR_smooth (self : Solver) : nat :=
  (nu (model self) + nla_g (model self) + nla_gamma (model self))%nat.
Definition nR (self : Solver) : nat :=
  (nR_smooth self + nla_N (model self) + nla_T (model self))%nat.

(** the default [error_function]: [lambda x: np.max(np.abs(x))] *)
Definition max_abs (x : vec) : R := foldr Rmax 0 (Rabs <$> x).

(** What a step returns:
    [(converged, j, error), tk1, qk1, uk1, la_gk1, la_gammak1, P_Nk1, P_Tk1]. *)
Record StepResult : Type := {
  converged : bool;
  iterations : nat;
  error : R;
  r_tk1 : R;
  r_qk1 : vec;
  r_uk1 : vec;
  r_la_gk1 : vec;
  r_la_gammak1 : vec;
  r_P_Nk1 : vec;
  r_P_Tk1 : vec
}.

(** [I_T]: the friction components of the active normal contacts *)
Definition active_tangent (I_N : list bool) (NT : list (list nat)) : list nat :=
  if np_any I_N then
    concat (imap (λ i (I_N_i : bool), if I_N_i then nth i NT [] else []) I_N)
  else [].

Section Steps.

(** [scipy.sparse.linalg.spsolve] *)
Variable spsolve : matrix → vec → vec.

(** [Numerical_derivative(R, order=2)._x(t, x)] of [cardillo.math] *)
Variable numerical_jacobian : (R → vec → vec) → R → vec → matrix.

(** *** The fixed-point step *)

(** The quantities assembled once at the predicted position. *)
Record Assembled : Type := {
  a_tk1 : R;
  a_qk1 : vec;
  a_M : matrix;
  a_h : vec;
  a_W_g : matrix;
  a_W_gamma : matrix;
  a_W_N : matrix;
  a_W_T : matrix;
  a_g_dot_u : matrix;
  a_chi_g : vec;
  a_gamma_u : matrix;
  a_chi_gamma : vec;
  a_I_N : list bool;
  a_I_T : list nat
}.

Definition assemble (self : Solver) : Assembled :=
  let m := model self in
  let dt := dt self in
  let uk := uk self in
  let tk1 := tk self + dt in
  let qk1 := vadd (qk self) (vscale dt (q_dot m (tk self) (qk self) uk)) in
  let g_N := g_N m tk1 qk1 in
  let I_N := le0 g_N in
  {| a_tk1 := tk1;
     a_qk1 := qk1;
     a_M := M m tk1 qk1;
     a_h := h m tk1 qk1 uk;
     a_W_g := W_g m tk1 qk1;
     a_W_gamma := W_gamma m tk1 qk1;
     a_W_N := W_N m tk1 qk1;
     a_W_T := W_T m tk1 qk1;
     a_g_dot_u := g_dot_u m tk1 qk1;
     a_chi_g := chi_g m tk1 qk1;
     a_gamma_u := gamma_u m tk1 qk1;
     a_chi_gamma := chi_gamma m tk1 qk1;
     a_I_N := I_N;
     a_I_T := active_tangent I_N (NT_connectivity m) |}.

(** The matrix and right-hand side of the linear solve for velocities and
    bilateral multipliers, for contact impulses [P_N] and [P_T]. *)
Definition lin_A (self : Solver) (a : Assembled) : matrix :=
  bmat [ [Some (a_M a); Some (mscale (- dt self) (a_W_g a));
          Some (mscale (- dt self) (a_W_gamma a))];
         [Some (a_g_dot_u a); None; None];
         [Some (a_gamma_u a); None; None] ].

Definition lin_b (self : Solver) (a : Assembled) (P_N P_T : vec) : vec :=
  vadd (vadd (vadd (matvec (a_M a) (uk self)) (vscale (dt self) (a_h a)))
             (matvec (cols_mask (a_I_N a) (a_W_N a)) (select (a_I_N a) P_N)))
       (matvec (cols_idx (a_I_T a) (a_W_T a)) (gather P_T (a_I_T a)))
    ++ vneg (a_chi_g a) ++ vneg (a_chi_gamma a).

Definition lin_solve (self : Solver) (a : Assembled) (P_N P_T : vec)
  : vec * vec * vec :=
  let m := model self in
  let x := spsolve (lin_A self a) (lin_b self a P_N P_T) in
  (take (nu m) x,
   take (nla_g m) (drop (nu m) x),
   drop (nu m + nla_g m) x).

(** The local variables of the fixed-point loop. *)
Record FpState : Type := {
  s_uk1 : vec;
  s_la_gk1 : vec;
  s_la_gammak1 : vec;
  s_P_Nk1 : vec;
  s_P_Tk1 : vec;
  s_P_Nk1_i : vec;
  s_P_Nk1_i1 : vec;
  s_P_Tk1_i : vec;
  s_P_Tk1_i1 : vec;
  s_converged : bool;
  s_error : R;
  s_j : nat
}.

(** The loop over the contacts that projects the friction impulses. *)
Definition friction_prox (self : Solver) (a : Assembled)
    (xi_T P_Tk1_i P_Nk1_i1 : vec) (P_Tk1_i1 : vec) : vec :=
  let m := model self in
  foldl
    (λ acc (c : nat * list nat),
       let i_N := c.1 in
       let i_T := c.2 in
       if nth i_N (a_I_N a) false && negb (length i_T =? 0)%nat then
         scatter acc i_T
           (prox_circle
              (vsub (gather P_Tk1_i i_T)
                    (vscale (nth i_N (prox_r_T m) 0) (gather xi_T i_T)))
              (nth i_N (mu m) 0 * nth i_N P_Nk1_i1 0))
       else acc)
    P_Tk1_i1
    (imap pair (NT_connectivity m)).

(** One pass through the loop body up to the convergence test. *)
Definition fp_prox (self : Solver) (a : Assembled) (j : nat) (s : FpState)
  : FpState :=
  let m := model self in
  let I_N := a_I_N a in
  let I_T := a_I_T a in
  let P_Nk1_i1 :=
    mask_assign I_N (s_P_Nk1_i1 s)
      (prox_Rn0
         (vsub (select I_N (s_P_Nk1_i s))
               (vmul (select I_N (prox_r_N m))
                     (select I_N
                        (xi_N m (a_tk1 a) (a_qk1 a) (uk self) (s_uk1 s)))))) in
  let xi_T := xi_T m (a_tk1 a) (a_qk1 a) (uk self) (s_uk1 s) in
  let P_Tk1_i1 :=
    friction_prox self a xi_T (s_P_Tk1_i s) P_Nk1_i1 (s_P_Tk1_i1 s) in
  let R_ :=
    vsub (select I_N P_Nk1_i1) (select I_N (s_P_Nk1_i s))
      ++ vsub (gather P_Tk1_i1 I_T) (gather (s_P_Tk1_i s) I_T) in
  let error := fix_point_error_function self R_ in
  let converged := Rltb error (fix_point_tol self) in
  {| s_uk1 := s_uk1 s;
     s_la_gk1 := s_la_gk1 s;
     s_la_gammak1 := s_la_gammak1 s;
     s_P_Nk1 :=
       if converged then mask_assign I_N (s_P_Nk1 s) (select I_N P_Nk1_i1)
       else s_P_Nk1 s;
     s_P_Tk1 :=
       if converged then scatter (s_P_Tk1 s) I_T (gather P_Tk1_i1 I_T)
       else s_P_Tk1 s;
     s_P_Nk1_i := s_P_Nk1_i s;
     s_P_Nk1_i1 := P_Nk1_i1;
     s_P_Tk1_i := s_P_Tk1_i s;
     s_P_Tk1_i1 := P_Tk1_i1;
     s_converged := converged;
     s_error := error;
     s_j := j |}.

(** The rest of the loop body, run when the test failed: keep the new
    impulses and solve again for velocities and bilateral multipliers. *)
Definition fp_resolve (self : Solver) (a : Assembled) (s : FpState)
  : FpState :=
  let P_Nk1_i := s_P_Nk1_i1 s in
  let P_Tk1_i := s_P_Tk1_i1 s in
  let '(uk1, la_gk1, la_gammak1) := lin_solve self a P_Nk1_i P_Tk1_i in
  {| s_uk1 := uk1;
     s_la_gk1 := la_gk1;
     s_la_gammak1 := la_gammak1;
     s_P_Nk1 := s_P_Nk1 s;
     s_P_Tk1 := s_P_Tk1 s;
     s_P_Nk1_i := P_Nk1_i;
     s_P_Nk1_i1 := s_P_Nk1_i1 s;
     s_P_Tk1_i := P_Tk1_i;
     s_P_Tk1_i1 := s_P_Tk1_i1 s;
     s_converged := s_converged s;
     s_error := s_error s;
     s_j := s_j s |}.

(** [for j in range(n)], entered with loop index [j]; [break] on
    convergence. *)
Fixpoint fp_loop (self : Solver) (a : Assembled) (n j : nat) (s : FpState)
  : FpState :=
  match n with
  | O => s
  | S n' =>
      let s' := fp_prox self a j s in
      if s_converged s' then s'
      else fp_loop self a n' (S j) (fp_resolve self a s')
  end.

(** The locals on entry to the loop: the first linear solve uses the
    impulses stored in the object; [converged] is [True] unless some contact
    is active. *)
Definition fp_init (self : Solver) (a : Assembled) : FpState :=
  let m := model self in
  let '(uk1, la_gk1, la_gammak1) := lin_solve self a (P_Nk self) (P_Tk self) in
  {| s_uk1 := uk1;
     s_la_gk1 := la_gk1;
     s_la_gammak1 := la_gammak1;
     s_P_Nk1 := zeros (nla_N m);
     s_P_Tk1 := zeros (nla_T m);
     s_P_Nk1_i := P_Nk self;
     s_P_Nk1_i1 := P_Nk self;
     s_P_Tk1_i := P_Tk self;
     s_P_Tk1_i1 := P_Tk self;
     s_converged := negb (np_any (a_I_N a));
     s_error := 0;
     s_j := 0 |}.

Definition result_of (a : Assembled) (s : FpState) : StepResult :=
  {| converged := s_converged s;
     iterations := s_j s;
     error := s_error s;
     r_tk1 := a_tk1 a;
     r_qk1 := a_qk1 a;
     r_uk1 := s_uk1 s;
     r_la_gk1 := s_la_gk1 s;
     r_la_gammak1 := s_la_gammak1 s;
     r_P_Nk1 := s_P_Nk1 s;
     r_P_Tk1 := s_P_Tk1 s |}.

Definition step_fixed_point (self : Solver) : StepResult :=
  let a := assemble self in
  let s0 := fp_init self a in
  result_of a
    (if np_any (a_I_N a) then fp_loop self a (fix_point_max_iter self) 0 s0
     else s0).

(** *** The Newton step *)

(** [R[a : a + len(v)] = v] *)
Definition set_slice (a : nat) (v r : vec) : vec :=
  take a r ++ v ++ drop (a + length v) r.

Definition count_nonzero (m : list bool) : nat := length (filter (λ b, b = true) m).

(** The friction rows of the residual, one block per contact with friction
    components, at running [offset]. *)
Fixpoint R_newton_friction (self : Solver) (I_N : list bool)
    (xi_T P_Nk1 P_Tk1 : vec) (cs : list (nat * list nat)) (offset : nat)
    (r : vec) : vec :=
  let m := model self in
  match cs with
  | [] => r
  | (i_N, i_T) :: cs' =>
      let nT := length i_T in
      if (nT =? 0)%nat then
        R_newton_friction self I_N xi_T P_Nk1 P_Tk1 cs' offset r
      else
        let block :=
          if nth i_N I_N false then
            vsub (gather P_Tk1 i_T)
              (prox_circle
                 (vsub (gather P_Tk1 i_T)
                       (vscale (nth i_N (prox_r_T m) 0) (gather xi_T i_T)))
                 (nth i_N (mu m) 0 * nth i_N P_Nk1 0))
          else gather P_Tk1 i_T in
        R_newton_friction self I_N xi_T P_Nk1 P_Tk1 cs' (offset + nT)
          (set_slice (nR_smooth self + nla_N m + offset) block r)
  end.

Definition R_newton (self : Solver) (qk1 : vec) (I_N : list bool)
    (tk1 : R) (xk1 : vec) : vec :=
  let m := model self in
  let dt := dt self in
  let uk := uk self in
  let nI_N := count_nonzero I_N in
  let uk1 := take (nu m) xk1 in
  let la_gk1 := take (nla_g m) (drop (nu m) xk1) in
  let la_gammak1 := take (nla_gamma m) (drop (nu m + nla_g m) xk1) in
  let P_Nk1 :=
    mask_assign (negb <$> I_N)
      (mask_assign I_N (zeros (nla_N m))
         (take nI_N (drop (nR_smooth self) xk1)))
      (take (nla_N m - nI_N) (drop (nR_smooth self + nI_N) xk1)) in
  let P_Tk1 := drop (nR_smooth self + nla_N m) xk1 in
  let M := M m tk1 qk1 in
  let h := h m tk1 qk1 uk in
  let W_g := W_g m tk1 qk1 in
  let W_gamma := W_gamma m tk1 qk1 in
  let W_N := W_N m tk1 qk1 in
  let W_T := W_T m tk1 qk1 in
  let xi_N := xi_N m tk1 qk1 uk uk1 in
  let xi_T := xi_T m tk1 qk1 uk uk1 in
  let r0 := zeros (nR self) in
  let r1 :=
    set_slice 0
      (vsub (vsub (vsub (matvec M (vsub uk1 uk))
                        (vscale dt
                           (vadd (vadd h (matvec W_g la_gk1))
                                 (matvec W_gamma la_gammak1))))
                  (matvec W_N P_Nk1))
            (matvec W_T P_Tk1))
      r0 in
  let r2 := set_slice (nu m) (g_dot m tk1 qk1 uk1) r1 in
  let r3 := set_slice (nu m + nla_g m) (gamma m tk1 qk1 uk1) r2 in
  let r4 :=
    set_slice (nR_smooth self)
      (vsub (select I_N P_Nk1)
            (prox_Rn0
               (vsub (select I_N P_Nk1)
                     (vmul (select I_N (prox_r_N m)) (select I_N xi_N)))))
      r3 in
  let r5 :=
    set_slice (nR_smooth self + nI_N) (select (negb <$> I_N) P_Nk1) r4 in
  R_newton_friction self I_N xi_T P_Nk1 P_Tk1
    (imap pair (NT_connectivity m)) 0 r5.

(** The locals of the Newton loop. *)
Record NwState : Type := {
  n_xk1 : vec;
  n_R : vec;
  n_uk1 : vec;
  n_la_gk1 : vec;
  n_la_gammak1 : vec;
  n_P_Nk1 : vec;
  n_P_Tk1 : vec;
  n_converged : bool;
  n_error : R;
  n_j : nat
}.

(** Unpacking the friction impulses from [xk1], contact by contact. *)
Fixpoint unpack_P_T (self : Solver) (xk1 : vec) (cs : list (list nat))
    (offset : nat) (P_Tk1 : vec) : vec :=
  let m := model self in
  match cs with
  | [] => P_Tk1
  | i_T :: cs' =>
      let nT := length i_T in
      if (nT =? 0)%nat then unpack_P_T self xk1 cs' offset P_Tk1
      else
        unpack_P_T self xk1 cs' (offset + nT)
          (scatter P_Tk1 i_T
             (take nT (drop (nR_smooth self + nla_N m + offset) xk1)))
  end.

Definition nw_body (self : Solver) (qk1 : vec) (I_N : list bool) (tk1 : R)
    (j : nat) (s : NwState) : NwState :=
  let m := model self in
  let R_x := numerical_jacobian (R_newton self qk1 I_N) tk1 (n_xk1 s) in
  let dx := spsolve R_x (n_R s) in
  let xk1 := vsub (n_xk1 s) dx in
  let nI_N := count_nonzero I_N in
  let P_Nk1 :=
    mask_assign (negb <$> I_N)
      (mask_assign I_N (n_P_Nk1 s) (take nI_N (drop (nR_smooth self) xk1)))
      (take (nla_N m - nI_N) (drop (nR_smooth self + nI_N) xk1)) in
  let P_Tk1 := unpack_P_T self xk1 (NT_connectivity m) 0 (n_P_Tk1 s) in
  let R_ := R_newton self qk1 I_N tk1 xk1 in
  let error := newton_error_function self R_ in
  {| n_xk1 := xk1;
     n_R := R_;
     n_uk1 := take (nu m) xk1;
     n_la_gk1 := take (nla_g m) (drop (nu m) xk1);
     n_la_gammak1 := take (nla_gamma m) (drop (nu m + nla_g m) xk1);
     n_P_Nk1 := P_Nk1;
     n_P_Tk1 := P_Tk1;
     n_converged := Rltb error (newton_tol self);
     n_error := error;
     n_j := j |}.

Fixpoint nw_loop (self : Solver) (qk1 : vec) (I_N : list bool) (tk1 : R)
    (n j : nat) (s : NwState) : NwState :=
  match n with
  | O => s
  | S n' =>
      let s' := nw_body self qk1 I_N tk1 j s in
      if n_converged s' then s' else nw_loop self qk1 I_N tk1 n' (S j) s'
  end.

Definition step_newton (self : Solver) : StepResult :=
  let m := model self in
  let dt := dt self in
  let uk := uk self in
  let tk1 := tk self + dt in
  let qk1 := vadd (qk self) (vscale dt (q_dot m (tk self) (qk self) uk)) in
  let xk1 := uk ++ la_gk self ++ la_gammak self ++ P_Nk self ++ P_Tk self in
  let I_N := le0 (g_N m tk1 qk1) in
  let R_ := R_newton self qk1 I_N tk1 xk1 in
  let error := newton_error_function self R_ in
  let s0 :=
    {| n_xk1 := xk1;
       n_R := R_;
       n_uk1 := uk;
       n_la_gk1 := la_gk self;
       n_la_gammak1 := la_gammak self;
       n_P_Nk1 := P_Nk self;
       n_P_Tk1 := P_Tk self;
       n_converged := Rltb error (newton_tol self);
       n_error := error;
       n_j := 0 |} in
  let s :=
    if negb (n_converged s0) then
      nw_loop self qk1 I_N tk1 (newton_max_iter self) 0 s0
    else s0 in
  {| converged := n_converged s;
     iterations := n_j s;
     error := n_error s;
     r_tk1 := tk1;
     r_qk1 := qk1;
     r_uk1 := n_uk1 s;
     r_la_gk1 := n_la_gk1 s;
     r_la_gammak1 := n_la_gammak1 s;
     r_P_Nk1 := n_P_Nk1 s;
     r_P_Tk1 := n_P_Tk1 s |}.

(** *** [solve] *)

(** [self.step], bound in [__init__] from [prox_solver_method] *)
Definition step (self : Solver) : StepResult :=
  match method self with
  | fixed_point => step_fixed_point self
  | newton => step_newton self
  end.

(** The lists [solve] collects, finally wrapped in a [Solution]. *)
Record Solution : Type := {
  sol_t : vec;
  sol_q : list vec;
  sol_u : list vec;
  sol_la_g : list vec;
  sol_la_gamma : list vec;
  sol_P_N : list vec;
  sol_P_T : list vec
}.

Definition record_step (sol : Solution) (q u la_g la_gamma P_N P_T : vec)
  : Solution :=
  {| sol_t := sol_t sol;
     sol_q := sol_q sol ++ [q];
     sol_u := sol_u sol ++ [u];
     sol_la_g := sol_la_g sol ++ [la_g];
     sol_la_gamma := sol_la_gamma sol ++ [la_gamma];
     sol_P_N := sol_P_N sol ++ [P_N];
     sol_P_T := sol_P_T sol ++ [P_T] |}.

(** The update of the object's attributes for an accepted step. *)
Definition accept (self : Solver) (tk1 : R)
    (qk1 uk1 la_gk1 la_gammak1 P_Nk1 P_Tk1 : vec) : Solver :=
  {| model := model self;
     t1 := t1 self;
     dt := dt self;
     t := t self;
     fix_point_error_function := fix_point_error_function self;
     fix_point_tol := fix_point_tol self;
     fix_point_max_iter := fix_point_max_iter self;
     newton_tol := newton_tol self;
     newton_max_iter := newton_max_iter self;
     newton_error_function := newton_error_function self;
     tk := tk1;
     qk := qk1;
     uk := uk1;
     la_gk := la_gk1;
     la_gammak := la_gammak1;
     P_Nk := P_Nk1;
     P_Tk := P_Tk1;
     method := method self |}.

(** The body of the loop over the time grid. *)
Definition solve_body (self : Solver) (sol : Solution)
  : result (Solver * Solution) :=
  let r := step self in
  if negb (converged r) then Raise RuntimeError
  else
    let '(qk1, uk1) := step_callback (model self) (r_tk1 r) (r_qk1 r) (r_uk1 r) in
    Ok (accept self (r_tk1 r) qk1 uk1 (r_la_gk1 r) (r_la_gammak1 r)
          (r_P_Nk1 r) (r_P_Tk1 r),
        record_step sol qk1 uk1 (r_la_gk1 r) (r_la_gammak1 r)
          (r_P_Nk1 r) (r_P_Tk1 r)).

Fixpoint solve_loop (n : nat) (self : Solver) (sol : Solution)
  : result (Solver * Solution) :=
  match n with
  | O => Ok (self, sol)
  | S n' =>
      '(self', sol') ← solve_body self sol;
      solve_loop n' self' sol'
  end.

(** [solve]: one step per entry of [self.t[:-1]]. The object after the run
    is returned next to the [Solution]. *)
Definition solve (self : Solver) : result (Solver * Solution) :=
  solve_loop (length (t self) - 1) self
    {| sol_t := t self;
       sol_q := [qk self];
       sol_u := [uk self];
       sol_la_g := [la_gk self];
       sol_la_gamma := [la_gammak self];
       sol_P_N := [P_Nk self];
       sol_P_T := [P_Tk self] |}.

(** *** [__init__] *)

(** [np.arange(start, stop, step)] *)
Variable np_arange : R → R → R → vec.

(** [self.t1] is [t1] if [t1 > t0] and otherwise an exception object (not
    raised); adding [self.dt] to that object raises [TypeError]. *)
Definition init (model : Model) (t1 dt : R)
    (fix_point_tol : R) (fix_point_max_iter : nat)
    (prox_solver_method : prox_solver_method)
    (newton_tol : R) (newton_max_iter : nat) (error_function : vec → R)
  : result Solver :=
  let t0 := t0 model in
  t1' ← (if Rltb t0 t1 then Ok t1 else Raise TypeError);
  mret
    {| model := model;
       t1 := t1';
       dt := dt;
       t := np_arange t0 (t1' + dt) dt;
       fix_point_error_function := error_function;
       fix_point_tol := fix_point_tol;
       fix_point_max_iter := fix_point_max_iter;
       newton_tol := newton_tol;
       newton_max_iter := newton_max_iter;
       newton_error_function := error_function;
       tk := t0;
       qk := q0 model;
       uk := u0 model;
       la_gk := la_g0 model;
       la_gammak := la_gamma0 model;
       P_Nk := vscale dt (la_N0 model);
       P_Tk := vscale dt (la_T0 model);
       method := prox_solver_method |}.

End Steps.

End Moreau.

(* ================================================================== *)
(** ** [cardillo/utility/coo_matrix.py] *)

Module Coo.

(** Modelled from the spec: [CooMatrix] is not among the sources; the
    specification describes it as an append-only (row, col, value) collector
    with coordinate-block insertion, converted to a matrix before use. *)
Record CooMatrix : Type := {
  shape : nat * nat;
  data : list (nat * nat * R)
}.

Definition empty (shape : nat * nat) : CooMatrix :=
  {| shape := shape; data := [] |}.

(** [coo[rows, cols] = block]: entry [(a, b)] of the block goes to
    [(rows[a], cols[b])] *)
Definition block_entries (rows cols : list nat) (block : list vec)
  : list (nat * nat * R) :=
  concat (zip_with (λ i r, zip_with (λ j v, (i, j, v)) cols r) rows block).

Definition setitem (coo : CooMatrix) (rows cols : list nat) (block : list vec)
  : CooMatrix :=
  {| shape := shape coo; data := data coo ++ block_entries rows cols block |}.

(** Row [i] of the product with [x]: entries at the same coordinates add
    up. *)
Definition row_sum (d : list (nat * nat * R)) (x : vec) (i : nat) : R :=
  foldr (λ (e : nat * nat * R) acc,
           (if (e.1.1 =? i)%nat then e.2 * nth e.1.2 x 0 else 0) + acc)
        0 d.

(** [coo @ x] *)
Definition matvec (coo : CooMatrix) (x : vec) : vec :=
  row_sum (data coo) x <$> seq 0 (shape coo).1.

End Coo.

(* ================================================================== *)
(** ** [cardillo/rods/_base.py] *)

Module Rod.

(** The attributes of a [CosseratRod] used below. The degree of freedom maps
    come from the mesh objects. *)
Record CosseratRod : Type := {
  nelement : nat;
  nquadrature : nat;
  nquadrature_dyn : nat;
  nnodes_r : nat;
  nnodes_p : nat;
  nq_r : nat;
  nu_r : nat;
  nq : nat;
  nu : nat;
  elDOF : list (list nat);
  nodalDOF_r : list (list nat);
  nodalDOF_p : list (list nat);
  nodalDOF_p_u : list (list nat);
  qp : list vec;
  qw : list vec;
  qp_dyn : list vec;
  Q : vec;
  J : list vec;
  J_dyn : list vec;
  K_Gamma0 : list (list vec);
  K_Kappa0 : list (list vec)
}.

Section Methods.

(** The abstract method [_eval(qe, xi)], returning
    [(r_OP, A_IK, K_Gamma_bar, K_Kappa_bar)]. *)
Variable _eval : vec → R → vec * list vec * vec * vec.

(** [knot_vector_r.element_number(xi)[0]] *)
Variable element_number : R → nat.

(** [T_SO3_inv_quat(p, normalize=False)] of [cardillo.math.rotations] *)
Variable T_SO3_inv_quat : vec → list vec.

(** [material_model.potential] *)
Variable potential : vec → vec → vec → vec → R.

Definition set_reference_strains (self : CosseratRod) (Q : vec)
  : CosseratRod :=
  let at_qp (el i : nat) :=
    _eval (gather Q (nth el (elDOF self) [])) (nth i (nth el (qp self) []) 0) in
  let at_qp_dyn (el i : nat) :=
    _eval (gather Q (nth el (elDOF self) []))
          (nth i (nth el (qp_dyn self) []) 0) in
  {| nelement := nelement self;
     nquadrature := nquadrature self;
     nquadrature_dyn := nquadrature_dyn self;
     nnodes_r := nnodes_r self;
     nnodes_p := nnodes_p self;
     nq_r := nq_r self;
     nu_r := nu_r self;
     nq := nq self;
     nu := nu self;
     elDOF := elDOF self;
     nodalDOF_r := nodalDOF_r self;
     nodalDOF_p := nodalDOF_p self;
     nodalDOF_p_u := nodalDOF_p_u self;
     qp := qp self;
     qw := qw self;
     qp_dyn := qp_dyn self;
     Q := Q;
     J :=
       (λ el, (λ i, let '(_, _, K_Gamma_bar, _) := at_qp el i in
                    norm K_Gamma_bar)
              <$> seq 0 (nquadrature self))
       <$> seq 0 (nelement self);
     J_dyn :=
       (λ el, (λ i, let '(_, _, K_Gamma_bar, _) := at_qp_dyn el i in
                    norm K_Gamma_bar)
              <$> seq 0 (nquadrature_dyn self))
       <$> seq 0 (nelement self);
     K_Gamma0 :=
       (λ el, (λ i, let '(_, _, K_Gamma_bar, _) := at_qp el i in
                    let J := norm K_Gamma_bar in
                    vdiv K_Gamma_bar J)
              <$> seq 0 (nquadrature self))
       <$> seq 0 (nelement self);
     K_Kappa0 :=
       (λ el, (λ i, let '(_, _, K_Gamma_bar, K_Kappa_bar) := at_qp el i in
                    let J := norm K_Gamma_bar in
                    vdiv K_Kappa_bar J)
              <$> seq 0 (nquadrature self))
       <$> seq 0 (nelement self) |}.

(** The strain measures at quadrature point [i] of element [el], as every
    element routine ([E_pot_el], [f_pot_el], ...) computes them from the
    cached [J]. *)
Definition quadrature_strains (self : CosseratRod) (qe : vec) (el i : nat)
  : vec * vec :=
  let qpi := nth i (nth el (qp self) []) 0 in
  let Ji := nth i (nth el (J self) []) 0 in
  let '(_, _, K_Gamma_bar, K_Kappa_bar) := _eval qe qpi in
  (vdiv K_Gamma_bar Ji, vdiv K_Kappa_bar Ji).

Definition E_pot_el (self : CosseratRod) (qe : vec) (el : nat) : R :=
  foldl
    (λ E_pot_el i,
       let qwi := nth i (nth el (qw self) []) 0 in
       let Ji := nth i (nth el (J self) []) 0 in
       let K_Gamma0 := nth i (nth el (K_Gamma0 self) []) [] in
       let K_Kappa0 := nth i (nth el (K_Kappa0 self) []) [] in
       let '(K_Gamma, K_Kappa) := quadrature_strains self qe el i in
       E_pot_el + potential K_Gamma K_Gamma0 K_Kappa K_Kappa0 * Ji * qwi)
    0 (seq 0 (nquadrature self)).


(** The quaternion constraints, as [__init__] sets them up: one constraint
    per node, [nodalDOF_la_S = np.arange(nla_S).reshape(nnodes_p, dim_g_S)]. *)
Definition dim_g_S : nat := 1.
Definition nla_S (self : CosseratRod) : nat := (nnodes_p self * dim_g_S)%nat.
Definition nodalDOF_la_S (self : CosseratRod) : list (list nat) :=
  (λ node, seq (node * dim_g_S) dim_g_S) <$> seq 0 (nnodes_p self).

(** [g_S]: the quaternion constraint [p @ p - 1] of every node *)
Definition g_S (self : CosseratRod) (t : R) (q : vec) : vec :=
  foldl
    (λ g_S node,
       let p := gather q (nth node (nodalDOF_p self) []) in
       scatter g_S (nth node (nodalDOF_la_S self) []) [dot p p - 1])
    (zeros (nla_S self)) (seq 0 (nnodes_p self)).

(** [g_S_q]: the row of a node holds [2 * p] in the columns of its
    quaternion *)
Definition g_S_q (self : CosseratRod) (t : R) (q : vec) : Coo.CooMatrix :=
  foldl
    (λ coo node,
       let nodalDOF := nth node (nodalDOF_p self) [] in
       let nodalDOF_S := nth node (nodalDOF_la_S self) [] in
       let p := gather q nodalDOF in
       Coo.setitem coo nodalDOF_S nodalDOF [vscale 2 p])
    (Coo.empty (nla_S self, nq self)) (seq 0 (nnodes_p self)).

(** [g_S_q_T_mu_q]: the block [2 * mu[node] * np.eye(4)] on the diagonal
    of every quaternion *)
Definition g_S_q_T_mu_q (self : CosseratRod) (t : R) (q mu : vec)
  : Coo.CooMatrix :=
  foldl
    (λ coo node,
       let nodalDOF := nth node (nodalDOF_p self) [] in
       Coo.setitem coo nodalDOF nodalDOF
         (vscale (2 * nth node mu 0) <$> eye 4))
    (Coo.empty (nq self, nq self)) (seq 0 (nnodes_p self)).

Definition q_dot (self : CosseratRod) (t : R) (q u : vec) : vec :=
  let q_dot0 := zeros (length q) in
  let q_dot1 :=
    foldl
      (λ q_dot node,
         let nodalDOF_r := nth node (nodalDOF_r self) [] in
         scatter q_dot nodalDOF_r (gather u nodalDOF_r))
      q_dot0 (seq 0 (nnodes_r self)) in
  foldl
    (λ q_dot node,
       let nodalDOF_p := nth node (nodalDOF_p self) [] in
       let nodalDOF_p_u := nth node (nodalDOF_p_u self) [] in
       let p := gather q nodalDOF_p in
       let K_omega_IK := gather u nodalDOF_p_u in
       scatter q_dot nodalDOF_p
         ((λ r, dot r K_omega_IK) <$> T_SO3_inv_quat p))
    q_dot1 (seq 0 (nnodes_p self)).

(** [q_dot_u]. [p / norm(p)] is a quotient of real numbers; for a block
    [p] of zeros NumPy yields [nan], which the reals do not have, so
    statements about the orientation part assume blocks that are not
    zero. *)
Definition q_dot_u (self : CosseratRod) (t : R) (q : vec) : Coo.CooMatrix :=
  let coo0 := Coo.empty (nq self, nu self) in
  let coo1 :=
    Coo.setitem coo0 (seq 0 (nq_r self)) (seq 0 (nu_r self)) (eye (nq_r self)) in
  foldl
    (λ coo node,
       let nodalDOF_p := nth node (nodalDOF_p self) [] in
       let nodalDOF_p_u := nth node (nodalDOF_p_u self) [] in
       let p := gather q nodalDOF_p in
       let p := vdiv p (norm p) in
       Coo.setitem coo nodalDOF_p nodalDOF_p_u (T_SO3_inv_quat p))
    coo1 (seq 0 (nnodes_p self)).

(** [step_callback]. As in [q_dot_u], [p / norm(p)] is meant for a block
    that is not zero: for a block of zeros NumPy yields [nan]. *)
Definition step_callback (self : CosseratRod) (t : R) (q u : vec)
  : vec * vec :=
  (foldl
     (λ q node,
        let p := gather q (nth node (nodalDOF_p self) []) in
        scatter q (nth node (nodalDOF_p self) []) (vdiv p (norm p)))
     q (seq 0 (nnodes_p self)),
   u).

End Methods.

End Rod.

(* ================================================================== *)
(** ** [cardillo/solver/radau.py] *)

Module Radau.

(** [_validate_index_array]: without an index array every entry is [0] and
    no variable may be algebraic; a given array is shifted down by one and
    clipped at [0]. *)
Definition _validate_index_array (len_y nvars_algebraic : nat)
    (index_array : option (list Z)) : result (list Z) :=
  match index_array with
  | None =>
      _ ← py_assert (nvars_algebraic =? 0)%nat;
      mret (replicate len_y 0%Z)
  | Some index_array =>
      let index_array := (λ k, Z.max 0 (k - 1)) <$> index_array in
      _ ← py_assert (length index_array =? len_y)%nat;
      mret index_array
  end.




(** The correction of the error estimate in [_step_impl]:
    [error *= h**self.index_array] when there are algebraic variables. *)
Definition scale_error (index_algebraic_vars : option (list nat))
    (index_array : list Z) (h : R) (error : vec) : vec :=
  match index_algebraic_vars with
  | Some _ => zip_with (λ e k, e * powerRZ h k) error index_array
  | None => error
  end.

(** The error norm that decides acceptance. *)
Definition error_norm (index_algebraic_vars : option (list nat))
    (nvars_algebraic : nat) (error scale : vec) : R :=
  let n := length error in
  let r := zip_with Rdiv error scale in
  match index_algebraic_vars with
  | Some _ => Np.norm r / sqrt (INR (n - nvars_algebraic))
  | None => Np.norm r / sqrt (INR n)
  end.


(** [RadauIIa.__init__]: the choice of formulation *)
Inductive dae_index : Type := index2 | index3 | GGL.

Definition ny (d : dae_index) (nq nu nla_g nla_gamma nla_S : nat) : nat :=
  match d with
  | GGL => (nq + nu + nla_g + nla_gamma + nla_S + nla_g)%nat
  | _ => (nq + nu + nla_g + nla_gamma + nla_S)%nat
  end.

(** the singular mass matrix as [RadauIIa.__init__] leaves it: the identity
    with the multiplier block set to zero. ([RadauIIa.fun] with
    [lazy_mass_matrix] later writes the mass matrix of the system into the
    velocity block of the same object; that update is not part of this
    definition.) *)
Definition mass_matrix (ny nq nu : nat) : matrix :=
  Mat ny ny
    ((λ i, (λ j, if (i =? j)%nat && (i <? nq + nu)%nat then 1 else 0)
           <$> seq 0 ny)
     <$> seq 0 ny).

(** the DAE index array *)
Definition index_array (d : dae_index) (nq nu nla_g nla_gamma nla_S : nat)
  : list Z :=
  match d with
  | index2 =>
      replicate (nq + nu) 0%Z ++ replicate nla_g 2%Z
        ++ replicate nla_gamma 2%Z ++ replicate nla_S 3%Z
  | index3 =>
      replicate (nq + nu) 0%Z ++ replicate nla_g 3%Z
        ++ replicate nla_gamma 2%Z ++ replicate nla_S 3%Z
  | GGL =>
      replicate (nq + nu) 0%Z ++ replicate nla_g 2%Z
        ++ replicate nla_gamma 2%Z ++ replicate nla_S 3%Z
        ++ replicate nla_g 3%Z
  end.

(** *** Step size control of [Radau._step_impl] *)

Definition NEWTON_MAXITER : R := 6.
Definition MIN_FACTOR : R := 2 / 10.
Definition MAX_FACTOR : R := 10.

(** [x ** 0.25] for a float [x >= 0]: the fourth root. *)
Definition root4 (x : R) : R := sqrt (sqrt x).

(** [predict_factor]; [None] stands for the float [inf], the value of
    [error_norm ** -0.25] at [error_norm == 0]. *)
Definition predict_factor (h_abs : R) (h_abs_old : option R)
    (error_norm : R) (error_norm_old : option R) : option R :=
  let multiplier :=
    match error_norm_old, h_abs_old with
    | Some error_norm_old, Some h_abs_old =>
        if Reqb error_norm 0 then 1
        else h_abs / h_abs_old * root4 (error_norm_old / error_norm)
    | _, _ => 1
    end in
  if Reqb error_norm 0 then None
  else Some (Rmin 1 multiplier * / root4 error_norm).

(** [safety = 0.9 * (2 * NEWTON_MAXITER + 1) / (2 * NEWTON_MAXITER + n_iter)] *)
Definition safety (n_iter : nat) : R :=
  9 / 10 * (2 * NEWTON_MAXITER + 1) / (2 * NEWTON_MAXITER + INR n_iter).

(** The step size after a step rejected for its error, the branch
    [error_norm > 1]: [h_abs *= max(MIN_FACTOR, safety * factor)]. [None]
    stands for [inf]. *)
Definition h_abs_rejected (h_abs : R) (h_abs_old : option R)
    (error_norm : R) (error_norm_old : option R) (n_iter : nat) : option R :=
  factor ← predict_factor h_abs h_abs_old error_norm error_norm_old;
  Some (h_abs * Rmax MIN_FACTOR (safety n_iter * factor)).

(** The step size proposed after an accepted step:
    [factor = min(MAX_FACTOR, safety * factor)], set to [1] when the
    Jacobian is kept and [factor < 1.2]; [self.h_abs = h_abs * factor]. *)
Definition h_abs_accepted (h_abs : R) (h_abs_old : option R)
    (error_norm : R) (error_norm_old : option R) (n_iter : nat)
    (recompute_jac : bool) : R :=
  let factor :=
    match predict_factor h_abs h_abs_old error_norm error_norm_old with
    | Some factor => Rmin MAX_FACTOR (safety n_iter * factor)
    | None => MAX_FACTOR
    end in
  let factor :=
    if negb recompute_jac && Rltb factor (12 / 10) then 1 else factor in
  h_abs * factor.

(** *** Dense output *)

Definition S6 : R := sqrt 6.

(** the interpolator coefficients [P] *)
Definition P : matrix :=
  Mat 3 3
    [ [13 / 3 + 7 * S6 / 3; -23 / 3 - 22 * S6 / 3; 10 / 3 + 5 * S6];
      [13 / 3 - 7 * S6 / 3; -23 / 3 + 22 * S6 / 3; 10 / 3 - 5 * S6];
      [1 / 3; -8 / 3; 10 / 3] ].

(** [np.dot(A, B)] for two matrices *)
Definition matmul (A B : matrix) : matrix :=
  Mat (nrows A) (ncols B) ((λ a, matvec (transpose B) a) <$> rows A).

(** [np.cumprod] *)
Fixpoint cumprod_from (acc : R) (l : vec) : vec :=
  match l with
  | [] => []
  | x :: l' => acc * x :: cumprod_from (acc * x) l'
  end.
Definition cumprod (l : vec) : vec := cumprod_from 1 l.

Record RadauDenseOutput : Type := {
  d_t_old : R;
  d_t : R;
  d_h : R;
  d_Q : matrix;
  d_order : nat;
  d_y_old : vec
}.

(** [RadauDenseOutput.__init__] *)
Definition dense_output_init (t_old t : R) (y_old : vec) (Q : matrix)
  : RadauDenseOutput :=
  {| d_t_old := t_old; d_t := t; d_h := t - t_old; d_Q := Q;
     d_order := (ncols Q - 1)%nat; d_y_old := y_old |}.

(** [_compute_dense_output] for the stage increments [Z] of the step from
    [t_old] to [t] *)
Definition _compute_dense_output (t_old t : R) (y_old : vec) (Z : matrix)
  : RadauDenseOutput :=
  dense_output_init t_old t y_old (matmul (transpose Z) P).

(** [_call_impl] at a scalar time *)
Definition _call_impl (self : RadauDenseOutput) (t : R) : vec :=
  let x := (t - d_t_old self) / d_h self in
  let p := cumprod (replicate (d_order self + 1) x) in
  vadd (matvec (d_Q self) p) (d_y_old self).

End Radau.

(* ================================================================== *)
(** ** [cardillo/solver/radau.py]: the class [RadauIIa] *)

Module RadauIIa.
Import Radau.

(** What [RadauIIa.__init__] reads from the system. *)
Record System : Type := {
  t0 : R;
  q0 : vec;
  u0 : vec;
  la_g0 : vec;
  la_gamma0 : vec;
  nq : nat;
  nu : nat;
  nla_g : nat;
  nla_gamma : nat;
  nla_S : nat
}.

(** The attributes set by [__init__] (the progress bar apart). *)
Record RadauIIa : Type := {
  system : System;
  rtol : R;
  atol : R;
  dae_index : Radau.dae_index;
  lazy_mass_matrix : bool;
  t1 : R;
  dt : R;
  t_eval : vec;
  frac : R;
  i : nat;
  ny : nat;
  mass_matrix : matrix;
  index_array : list Z;
  split_y : list nat;
  y0 : vec
}.

(** [np.cumsum] of integers *)
Fixpoint cumsum_from (acc : nat) (l : list nat) : list nat :=
  match l with
  | [] => []
  | x :: l' => (acc + x)%nat :: cumsum_from (acc + x) l'
  end.
Definition cumsum (l : list nat) : list nat := cumsum_from 0 l.

(** [y[a:b] = v] for one dimensional arrays: the bounds are clipped to the
    array, and [v] must have the length of the slice or length one, which
    is broadcast; anything else raises [ValueError]. *)
Definition setitem_slice (a b : nat) (v : vec) (y : vec) : result vec :=
  let a := min a (length y) in
  let b := max a (min b (length y)) in
  if (length v =? b - a)%nat then Ok (take a y ++ v ++ drop b y)
  else if (length v =? 1)%nat then
    Ok (take a y ++ replicate (b - a) (nth 0 v 0) ++ drop b y)
  else Raise ValueError.

(** [np.array_split(y, indices)]: the sections [y[:i0]], [y[i0:i1]], ...,
    [y[ik:]] *)
Definition array_split (y : vec) (indices : list nat) : list vec :=
  zip_with (λ a b, drop a (take b y)) (0%nat :: indices)
    (indices ++ [length y]).

Section Init.

(** [np.arange(start, stop, step)] *)
Variable np_arange : R → R → R → vec.

(** [__init__]. [self.t1] is [t1] if [t1 > t0] and otherwise an exception
    object (not raised); adding [self.dt] to that object raises
    [TypeError]. *)
Definition init (system : System) (t1 dt rtol atol : R)
    (dae_index : Radau.dae_index) (lazy_mass_matrix : bool)
  : result RadauIIa :=
  let t0 := t0 system in
  t1' ← (if Rltb t0 t1 then Ok t1 else Raise TypeError);
  let t_eval := np_arange t0 (t1' + dt) dt in
  let nfrac := 100%nat in
  let frac := (t1 - t0) / (INR nfrac + 1) in
  let ny := Radau.ny dae_index (nq system) (nu system) (nla_g system)
              (nla_gamma system) (nla_S system) in
  let mass_matrix := Radau.mass_matrix ny (nq system) (nu system) in
  let index_array :=
    Radau.index_array dae_index (nq system) (nu system) (nla_g system)
      (nla_gamma system) (nla_S system) in
  let split_y :=
    cumsum [nq system; nu system; nla_g system; nla_gamma system;
            nla_S system] in
  let y0 := zeros ny in
  y0 ← setitem_slice 0 (nth 0 split_y 0%nat) (q0 system) y0;
  y0 ← setitem_slice (nth 0 split_y 0%nat) (nth 1 split_y 0%nat)
         (u0 system) y0;
  y0 ← setitem_slice (nth 1 split_y 0%nat) (nth 2 split_y 0%nat)
         (la_g0 system) y0;
  y0 ← setitem_slice (nth 2 split_y 0%nat) (nth 3 split_y 0%nat)
         (la_gamma0 system) y0;
  mret
    {| system := system; rtol := rtol; atol := atol;
       dae_index := dae_index; lazy_mass_matrix := lazy_mass_matrix;
       t1 := t1'; dt := dt; t_eval := t_eval; frac := frac; i := 0;
       ny := ny; mass_matrix := mass_matrix; index_array := index_array;
       split_y := split_y; y0 := y0 |}.

End Init.

End RadauIIa.

(* ================================================================== *)
(** ** Statements about [RadauIIa] *)

Module RadauIIaSpec.
Import RadauIIa.

(** A system with two coordinates, one velocity, one bilateral constraint
    and one quaternion constraint. *)
Definition small_system : System :=
  {| t0 := 0; q0 := [1; 2]; u0 := [3]; la_g0 := [4]; la_gamma0 := [];
     nq := 2; nu := 1; nla_g := 1; nla_gamma := 0; nla_S := 1 |}.

(** The same system with an initial position of the wrong length. *)
Definition misshaped_system : System :=
  {| t0 := 0; q0 := [1; 2; 3]; u0 := [3]; la_g0 := [4]; la_gamma0 := [];
     nq := 2; nu := 1; nla_g := 1; nla_gamma := 0; nla_S := 1 |}.

(** A time grid of two points for [np.arange]. *)
Definition two_points (start stop step : R) : vec := [start; stop].

End RadauIIaSpec.

(* ================================================================== *)
(** ** [cardillo/solver/lobatto.py] *)

Module Lobatto.

(** Python values that appear in the tuple returned by
    [consistent_initial_conditions]. *)
Inductive pyobj : Type :=
  | PyFloat (x : R)
  | PyArray (a : vec).

(** The tuple built by the [return] statement of
    [consistent_initial_conditions]. *)
Definition as_tuple (r : R * vec * vec * vec * vec * vec * vec) : list pyobj :=
  let '(t0, q0, u0, q_dot0, u_dot0, la_g0, la_gamma0) := r in
  [PyFloat t0; PyArray q0; PyArray u0; PyArray q_dot0; PyArray u_dot0;
   PyArray la_g0; PyArray la_gamma0].

(** Unpacking a sequence into [n] names raises [ValueError] unless it has
    exactly [n] items. *)
Definition unpack (n : nat) (xs : list pyobj) : result (list pyobj) :=
  if (length xs =? n)%nat then Ok xs else Raise ValueError.

(** The attributes [__init__] sets from the unpacked initial conditions. *)
Record LobattoIIIAB : Type := {
  system : Base.System;
  stages : nat;
  t1 : R;
  dt : R;
  t : vec;
  atol : R;
  max_iter : nat;
  initial : list pyobj;
  yn : vec
}.

Section Init.

Variable spsolve : matrix → vec → vec.
Variable np_arange : R → R → R → vec.

(** [np.tile(a, n)] *)
Definition tile (a : vec) (n : nat) : vec := concat (replicate n a).

Definition array_of (o : option pyobj) : vec :=
  match o with
  | Some (PyArray a) => a
  | Some (PyFloat x) => [x]
  | None => []
  end.

Definition init (system : Base.System) (t1 dt : R) (stages : nat)
    (atol : R) (max_iter : nat) : result LobattoIIIAB :=
  let t0 := Base.t0 system in
  t1' ← (if Rltb t0 t1 then Ok t1 else Raise TypeError);
  let t := np_arange t0 (t1' + dt) dt in
  r ← Base.consistent_initial_conditions spsolve system
        Base.rtol_default Base.atol_default;
  names ← unpack 9 (as_tuple r);
  let un := array_of (names !! 2%nat) in
  mret
    {| system := system;
       stages := stages;
       t1 := t1';
       dt := dt;
       t := t;
       atol := atol;
       max_iter := max_iter;
       initial := names;
       yn := tile un stages ++ un
               ++ tile (Base.la_N0 system) stages
               ++ tile (Base.la_F0 system) stages |}.

End Init.

End Lobatto.

(* ================================================================== *)
(** ** Statements about [consistent_initial_conditions] *)

Module BaseSpec.
Import Base.

(** The shapes of what the callbacks return at [(t0, q0, u0)]. *)
Record wf_shapes (system : System) : Prop := {
  wf_M : has_shape (nu system) (nu system) (M system (t0 system) (q0 system));
  wf_W_g :
    has_shape (nu system) (nla_g system)
      (W_g system (t0 system) (q0 system));
  wf_W_gamma :
    has_shape (nu system) (nla_gamma system)
      (W_gamma system (t0 system) (q0 system));
  wf_W_N : nrows (W_N system (t0 system) (q0 system)) = nu system
           ∧ wf_matrix (W_N system (t0 system) (q0 system));
  wf_W_F : nrows (W_F system (t0 system) (q0 system)) = nu system
           ∧ wf_matrix (W_F system (t0 system) (q0 system));
  wf_h : length (h system (t0 system) (q0 system) (u0 system)) = nu system;
  wf_zeta_g :
    length (zeta_g system (t0 system) (q0 system) (u0 system)) = nla_g system;
  wf_zeta_gamma :
    length (zeta_gamma system (t0 system) (q0 system) (u0 system))
    = nla_gamma system
}.

(** The right-hand side of the equations of motion:
    [h0 + W_N0 @ la_N0 + W_F0 @ la_F0]. *)
Definition rhs_motion (system : System) : vec :=
  let t0 := t0 system in
  let q0 := q0 system in
  vadd (vadd (h system t0 q0 (u0 system))
             (matvec (W_N system t0 q0) (la_N0 system)))
       (matvec (W_F system t0 q0) (la_F0 system)).

(** [(u_dot, la_g, la_gamma)] solves the KKT system block by block. *)
Definition kkt_solution (system : System) (u_dot la_g la_gamma : vec) : Prop :=
  let t0 := t0 system in
  let q0 := q0 system in
  let u0 := u0 system in
  vsub (vsub (matvec (M system t0 q0) u_dot) (matvec (W_g system t0 q0) la_g))
       (matvec (W_gamma system t0 q0) la_gamma)
  = rhs_motion system
  ∧ matvec (transpose (W_g system t0 q0)) u_dot = vneg (zeta_g system t0 q0 u0)
  ∧ matvec (transpose (W_gamma system t0 q0)) u_dot
    = vneg (zeta_gamma system t0 q0 u0).

(** What the library promises of [spsolve(A, b)]: a vector with one entry
    per column that solves [A x = b]. *)
Definition solves (A : matrix) (b x : vec) : Prop :=
  length x = ncols A ∧ matvec A x = b.

(** [np.allclose(v, np.zeros(n), rtol, atol)] *)
Definition within_tol (v : vec) (n : nat) (rtol atol : R) : bool :=
  allclose v (zeros n) rtol atol.

Section Checks.

Variable spsolve : matrix → vec → vec.
Variable system : System.
Variables rtol atol : R.

Definition u_dot0 : vec :=
  take (nu system) (spsolve (kkt_A system) (kkt_b system)).
Definition la_g0 : vec :=
  take (nla_g system) (drop (nu system) (spsolve (kkt_A system) (kkt_b system))).
Definition la_gamma0 : vec :=
  take (nla_gamma system)
    (drop (nu system + nla_g system) (spsolve (kkt_A system) (kkt_b system))).

(** every initial normal gap is non-negative *)
Definition gaps_feasible : bool :=
  np_all (ge0 (g_N system (t0 system) (q0 system))).

(** the velocities of the closed gaps are non-negative, or zero within
    tolerance *)
Definition closing_velocities_admissible : bool :=
  let I_N := le0 (g_N system (t0 system) (q0 system)) in
  let g_N_dot := g_N_dot system (t0 system) (q0 system) (u0 system) in
  np_all (ge0 (bmul I_N g_N_dot))
  || within_tol (bmul I_N g_N_dot) (nla_N system) rtol atol.

(** the gap accelerations are non-negative, or zero within tolerance on the
    closed gaps that do not open *)
Definition contact_accelerations_admissible : bool :=
  let I_N := le0 (g_N system (t0 system) (q0 system)) in
  let g_N_dot := g_N_dot system (t0 system) (q0 system) (u0 system) in
  let B_N := zip_with andb I_N (le0 g_N_dot) in
  let g_N_ddot :=
    g_N_ddot system (t0 system) (q0 system) (u0 system) u_dot0 in
  np_all (ge0 g_N_ddot) || within_tol (bmul B_N g_N_ddot) (nla_N system) rtol atol.

(** the six bilateral residuals are zero within tolerance *)
Definition bilateral_residuals_within_tol : bool :=
  let t0 := t0 system in
  let q0 := q0 system in
  let u0 := u0 system in
  within_tol (g system t0 q0) (nla_g system) rtol atol
  && within_tol (g_dot system t0 q0 u0) (nla_g system) rtol atol
  && within_tol (g_ddot system t0 q0 u0 u_dot0) (nla_g system) rtol atol
  && within_tol (gamma system t0 q0 u0) (nla_gamma system) rtol atol
  && within_tol (gamma_dot system t0 q0 u0 u_dot0) (nla_gamma system) rtol atol
  && within_tol (g_S system t0 q0) (nla_S system) rtol atol.

(** The conditions the claim lists. *)
Definition listed_conditions : bool :=
  gaps_feasible && closing_velocities_admissible
  && bilateral_residuals_within_tol.

(** The conditions the code asserts. *)
Definition asserted_conditions : bool :=
  gaps_feasible && closing_velocities_admissible
  && contact_accelerations_admissible && bilateral_residuals_within_tol.

End Checks.

(** *** Two small systems *)

(** One coordinate, one bilateral constraint, no contact:
    [2 u_dot - la_g = 4], [u_dot = 0]. *)
Definition pinned_mass : System :=
  {| t0 := 0; q0 := [0]; u0 := [0]; la_N0 := []; la_F0 := [];
     nu := 1; nla_g := 1; nla_gamma := 0; nla_N := 0; nla_S := 0;
     q_dot := λ _ _ u, u;
     M := λ _ _, Mat 1 1 [[2]];
     h := λ _ _ _, [4];
     W_g := λ _ _, Mat 1 1 [[1]];
     W_gamma := λ _ _, Mat 1 0 [[]];
     W_N := λ _ _, Mat 1 0 [[]];
     W_F := λ _ _, Mat 1 0 [[]];
     zeta_g := λ _ _ _, [0];
     zeta_gamma := λ _ _ _, [];
     g := λ _ q, q;
     g_dot := λ _ _ u, u;
     g_ddot := λ _ _ _ u_dot, u_dot;
     gamma := λ _ _ _, [];
     gamma_dot := λ _ _ _ _, [];
     g_S := λ _ _, [];
     g_N := λ _ _, [];
     g_N_dot := λ _ _ _, [];
     g_N_ddot := λ _ _ _ _, [] |}.

Definition pinned_mass_solver (A : matrix) (b : vec) : vec := [0; -4].

(** One free coordinate resting on a closed contact that is pushed into the
    obstacle: gap [0], gap velocity [0], gap acceleration [-1]. *)
Definition pressed_contact : System :=
  {| t0 := 0; q0 := [0]; u0 := [0]; la_N0 := [0]; la_F0 := [];
     nu := 1; nla_g := 0; nla_gamma := 0; nla_N := 1; nla_S := 0;
     q_dot := λ _ _ u, u;
     M := λ _ _, Mat 1 1 [[1]];
     h := λ _ _ _, [-1];
     W_g := λ _ _, Mat 1 0 [[]];
     W_gamma := λ _ _, Mat 1 0 [[]];
     W_N := λ _ _, Mat 1 1 [[1]];
     W_F := λ _ _, Mat 1 0 [[]];
     zeta_g := λ _ _ _, [];
     zeta_gamma := λ _ _ _, [];
     g := λ _ _, [];
     g_dot := λ _ _ _, [];
     g_ddot := λ _ _ _ _, [];
     gamma := λ _ _ _, [];
     gamma_dot := λ _ _ _ _, [];
     g_S := λ _ _, [];
     g_N := λ _ q, q;
     g_N_dot := λ _ _ u, u;
     g_N_ddot := λ _ _ _ u_dot, u_dot |}.

Definition pressed_contact_solver (A : matrix) (b : vec) : vec := [-1].

(** A contact that is already penetrated: gap [-1]. *)
Definition penetrated_contact : System :=
  {| t0 := 0; q0 := [-1]; u0 := [0]; la_N0 := [0]; la_F0 := [];
     nu := 1; nla_g := 0; nla_gamma := 0; nla_N := 1; nla_S := 0;
     q_dot := λ _ _ u, u;
     M := λ _ _, Mat 1 1 [[1]];
     h := λ _ _ _, [0];
     W_g := λ _ _, Mat 1 0 [[]];
     W_gamma := λ _ _, Mat 1 0 [[]];
     W_N := λ _ _, Mat 1 1 [[1]];
     W_F := λ _ _, Mat 1 0 [[]];
     zeta_g := λ _ _ _, [];
     zeta_gamma := λ _ _ _, [];
     g := λ _ _, [];
     g_dot := λ _ _ _, [];
     g_ddot := λ _ _ _ _, [];
     gamma := λ _ _ _, [];
     gamma_dot := λ _ _ _ _, [];
     g_S := λ _ _, [];
     g_N := λ _ q, q;
     g_N_dot := λ _ _ u, u;
     g_N_ddot := λ _ _ _ u_dot, u_dot |}.

End BaseSpec.

(* ================================================================== *)
(** ** Statements about the Moreau scheme *)

Module MoreauSpec.
Import Moreau.

Section Run.

Variable spsolve : matrix → vec → vec.
Variable numerical_jacobian : (R → vec → vec) → R → vec → matrix.

(** The object after its next step has been accepted. *)
Definition advance (self : Solver) : Solver :=
  let r := step spsolve numerical_jacobian self in
  let '(qk1, uk1) :=
    step_callback (model self) (r_tk1 r) (r_qk1 r) (r_uk1 r) in
  accept self (r_tk1 r) qk1 uk1 (r_la_gk1 r) (r_la_gammak1 r)
    (r_P_Nk1 r) (r_P_Tk1 r).

(** The object after [k] accepted steps. *)
Definition state_after (k : nat) (self : Solver) : Solver :=
  Nat.iter k advance self.

(** The locals of the fixed-point loop at the start of pass [k], when no
    earlier pass has converged. *)
Fixpoint fp_start (self : Solver) (a : Assembled) (k j : nat) (s : FpState)
  : FpState :=
  match k with
  | O => s
  | S k' =>
      fp_start self a k' (S j) (fp_resolve spsolve self a (fp_prox self a j s))
  end.

(** The impulse-change error measured in pass [k]. *)
Definition fp_error (self : Solver) (k : nat) : R :=
  let a := assemble self in
  s_error (fp_prox self a k (fp_start self a k 0 (fp_init spsolve self a))).

(** The locals of the Newton loop at the start of pass [k], when no earlier
    pass has converged, and the residual error measured in pass [k]. *)
Fixpoint nw_start (self : Solver) (qk1 : vec) (I_N : list bool) (tk1 : R)
    (k j : nat) (s : NwState) : NwState :=
  match k with
  | O => s
  | S k' =>
      nw_start self qk1 I_N tk1 k' (S j)
        (nw_body spsolve numerical_jacobian self qk1 I_N tk1 j s)
  end.

Definition nw_init (self : Solver) : NwState :=
  let m := model self in
  let tk1 := tk self + dt self in
  let qk1 :=
    vadd (qk self) (vscale (dt self) (q_dot m (tk self) (qk self) (uk self))) in
  let xk1 :=
    uk self ++ la_gk self ++ la_gammak self ++ P_Nk self ++ P_Tk self in
  let I_N := le0 (g_N m tk1 qk1) in
  let error := newton_error_function self (R_newton self qk1 I_N tk1 xk1) in
  {| n_xk1 := xk1;
     n_R := R_newton self qk1 I_N tk1 xk1;
     n_uk1 := uk self;
     n_la_gk1 := la_gk self;
     n_la_gammak1 := la_gammak self;
     n_P_Nk1 := P_Nk self;
     n_P_Tk1 := P_Tk self;
     n_converged := Rltb error (newton_tol self);
     n_error := error;
     n_j := 0 |}.

Definition nw_error (self : Solver) (k : nat) : R :=
  let m := model self in
  let tk1 := tk self + dt self in
  let qk1 :=
    vadd (qk self) (vscale (dt self) (q_dot m (tk self) (qk self) (uk self))) in
  let I_N := le0 (g_N m tk1 qk1) in
  n_error
    (nw_body spsolve numerical_jacobian self qk1 I_N tk1 k
       (nw_start self qk1 I_N tk1 k 0 (nw_init self))).

End Run.

(** The shapes of the contact data, the range of the connectivity table,
    which gives every friction component to at most one contact, and the
    sign of the friction coefficients. *)
Record wf_contacts (self : Solver) : Prop := {
  wf_P_Nk : length (P_Nk self) = nla_N (model self);
  wf_P_Tk : length (P_Tk self) = nla_T (model self);
  wf_prox_r_N : length (prox_r_N (model self)) = nla_N (model self);
  wf_mu : Forall (λ x, 0 <= x) (mu (model self));
  wf_g_N : ∀ t q, length (g_N (model self) t q) = nla_N (model self);
  wf_xi_N :
    ∀ t q u u', length (xi_N (model self) t q u u') = nla_N (model self);
  wf_NT_length : length (NT_connectivity (model self)) = nla_N (model self);
  wf_NT_range :
    Forall (Forall (λ k, (k < nla_T (model self))%nat))
      (NT_connectivity (model self));
  wf_NT_NoDup : NoDup (concat (NT_connectivity (model self)))
}.

(** Admissible contact impulses: non-negative normal impulses, and each
    friction block within the disk of radius [mu * P_N] of its contact. *)
Definition admissible (m : Model) (P_N P_T : vec) : Prop :=
  Forall (λ x, 0 <= x) P_N
  ∧ ∀ i_N i_T,
      NT_connectivity m !! i_N = Some i_T →
      norm (gather P_T i_T) <= nth i_N (mu m) 0 * nth i_N P_N 0.

(** *** Named parts of one pass of the fixed-point loop *)

(** The projection of one contact's friction block, the body of the loop
    over the contacts. *)
Definition friction_block (self : Solver) (a : Assembled)
    (xi_T P_Tk1_i P_Nk1_i1 : vec) (acc : vec) (c : nat * list nat) : vec :=
  if nth c.1 (a_I_N a) false && negb (length c.2 =? 0)%nat then
    scatter acc c.2
      (prox_circle
         (vsub (gather P_Tk1_i c.2)
               (vscale (nth c.1 (prox_r_T (model self)) 0) (gather xi_T c.2)))
         (nth c.1 (mu (model self)) 0 * nth c.1 P_Nk1_i1 0))
  else acc.

(** The argument of the normal projection and the normal impulses after it. *)
Definition normal_arg (self : Solver) (a : Assembled) (s : FpState) : vec :=
  vsub (select (a_I_N a) (s_P_Nk1_i s))
       (vmul (select (a_I_N a) (prox_r_N (model self)))
             (select (a_I_N a)
                (xi_N (model self) (a_tk1 a) (a_qk1 a) (uk self) (s_uk1 s)))).

Definition new_P_N (self : Solver) (a : Assembled) (s : FpState) : vec :=
  mask_assign (a_I_N a) (s_P_Nk1_i1 s) (prox_Rn0 (normal_arg self a s)).

(** The friction impulses after the projections of one pass. *)
Definition new_P_T (self : Solver) (a : Assembled) (s : FpState) : vec :=
  friction_prox self a
    (xi_T (model self) (a_tk1 a) (a_qk1 a) (uk self) (s_uk1 s))
    (s_P_Tk1_i s) (new_P_N self a s) (s_P_Tk1_i1 s).

(** What holds of the locals at the start of every pass. *)
Record fp_inv (self : Solver) (s : FpState) : Prop := {
  inv_P_Nk1 : s_P_Nk1 s = zeros (nla_N (model self));
  inv_P_Tk1 : s_P_Tk1 s = zeros (nla_T (model self));
  inv_P_Nk1_i : length (s_P_Nk1_i s) = nla_N (model self);
  inv_P_Nk1_i1 : length (s_P_Nk1_i1 s) = nla_N (model self);
  inv_P_Tk1_i1 : length (s_P_Tk1_i1 s) = nla_T (model self)
}.

(** *** A point mass above a plane *)

(** A unit point mass with height [q] and weight [10] above the plane
    [q = 0], without friction and without bilateral constraints; the
    contact is inelastic. *)
Definition point_mass (q0 u0 la_N0 : R) : Model :=
  {| t0 := 0; q0 := [q0]; u0 := [u0];
     la_g0 := []; la_gamma0 := []; la_N0 := [la_N0]; la_T0 := [];
     nq := 1; nu := 1; nla_g := 0; nla_gamma := 0; nla_N := 1; nla_T := 0;
     NT_connectivity := [[]];
     prox_r_N := [1 / 2]; prox_r_T := [1 / 2]; mu := [0];
     q_dot := λ _ _ u, u;
     M := λ _ _, Mat 1 1 [[1]];
     h := λ _ _ _, [-10];
     W_g := λ _ _, Mat 1 0 [[]];
     W_gamma := λ _ _, Mat 1 0 [[]];
     W_N := λ _ _, Mat 1 1 [[1]];
     W_T := λ _ _, Mat 1 0 [[]];
     g_dot_u := λ _ _, Mat 0 1 [];
     chi_g := λ _ _, [];
     gamma_u := λ _ _, Mat 0 1 [];
     chi_gamma := λ _ _, [];
     g_dot := λ _ _ _, [];
     gamma := λ _ _ _, [];
     g_N := λ _ q, [nth 0 q 0];
     xi_N := λ _ _ _ uk1, [nth 0 uk1 0];
     xi_T := λ _ _ _ _, [];
     step_callback := λ _ q u, (q, u) |}.

(** The solver for a system with a single unknown. *)
Definition solve_1x1 (A : matrix) (b : vec) : vec :=
  [nth 0 b 0 / nth 0 (nth 0 (rows A) []) 1].

Definition no_jacobian (f : R → vec → vec) (t : R) (x : vec) : matrix :=
  Mat 0 0 [].

(** A [Moreau] object for the point mass with step [1/10] on the grid
    [0, 1/10, 2/10]. *)
Definition point_mass_solver (q0 u0 la_N0 : R) (max_iter : nat) : Solver :=
  {| model := point_mass q0 u0 la_N0;
     t1 := 2 / 10;
     dt := 1 / 10;
     t := [0; 1 / 10; 2 / 10];
     fix_point_error_function := max_abs;
     fix_point_tol := 1 / 100000000;
     fix_point_max_iter := max_iter;
     newton_tol := 1 / 1000000;
     newton_max_iter := 50;
     newton_error_function := max_abs;
     tk := 0;
     qk := [q0];
     uk := [u0];
     la_gk := [];
     la_gammak := [];
     P_Nk := [1 / 10 * la_N0];
     P_Tk := [];
     method := fixed_point |}.

(** What is assembled at the predicted position of the point mass lying on
    the plane, and the locals on entry to the loop when the stored impulse
    balances the weight. *)
Definition point_mass_assembled : Assembled :=
  {| a_tk1 := 1 / 10; a_qk1 := [0];
     a_M := Mat 1 1 [[1]]; a_h := [-10];
     a_W_g := Mat 1 0 [[]]; a_W_gamma := Mat 1 0 [[]];
     a_W_N := Mat 1 1 [[1]]; a_W_T := Mat 1 0 [[]];
     a_g_dot_u := Mat 0 1 []; a_chi_g := [];
     a_gamma_u := Mat 0 1 []; a_chi_gamma := [];
     a_I_N := [true]; a_I_T := [] |}.

Definition resting_start : FpState :=
  {| s_uk1 := [0]; s_la_gk1 := []; s_la_gammak1 := [];
     s_P_Nk1 := [0]; s_P_Tk1 := [];
     s_P_Nk1_i := [1]; s_P_Nk1_i1 := [1];
     s_P_Tk1_i := []; s_P_Tk1_i1 := [];
     s_converged := false; s_error := 0; s_j := 0 |}.

(** The object with another time grid, for runs of a chosen length. *)
Definition with_grid (self : Solver) (t1 : R) (t : vec) : Solver :=
  {| model := model self; t1 := t1; dt := dt self; t := t;
     fix_point_error_function := fix_point_error_function self;
     fix_point_tol := fix_point_tol self;
     fix_point_max_iter := fix_point_max_iter self;
     newton_tol := newton_tol self;
     newton_max_iter := newton_max_iter self;
     newton_error_function := newton_error_function self;
     tk := tk self; qk := qk self; uk := uk self;
     la_gk := la_gk self; la_gammak := la_gammak self;
     P_Nk := P_Nk self; P_Tk := P_Tk self;
     method := method self |}.

(** The object with the other prox solver. *)
Definition with_method (self : Solver) (m : prox_solver_method) : Solver :=
  {| model := model self; t1 := t1 self; dt := dt self; t := t self;
     fix_point_error_function := fix_point_error_function self;
     fix_point_tol := fix_point_tol self;
     fix_point_max_iter := fix_point_max_iter self;
     newton_tol := newton_tol self;
     newton_max_iter := newton_max_iter self;
     newton_error_function := newton_error_function self;
     tk := tk self; qk := qk self; uk := uk self;
     la_gk := la_gk self; la_gammak := la_gammak self;
     P_Nk := P_Nk self; P_Tk := P_Tk self;
     method := m |}.

End MoreauSpec.

(* ================================================================== *)
(** ** Statements about the rod *)

Module RodSpec.
Import Rod.

(** The quaternion blocks of a coordinate vector of length [n]: one index
    block per node, in range, no coordinate in two blocks. *)
Record wf_quaternion_dofs (self : CosseratRod) (n : nat) : Prop := {
  wf_p_length : length (nodalDOF_p self) = nnodes_p self;
  wf_p_range : Forall (Forall (λ k, (k < n)%nat)) (nodalDOF_p self);
  wf_p_NoDup : NoDup (concat (nodalDOF_p self))
}.

(** The degree of freedom maps of the kinematic equation: the centerline
    coordinates are the first [nq_r = nu_r] entries and every one of them
    belongs to a node; the quaternion blocks come after them. *)
Record wf_kinematic_dofs (self : CosseratRod) : Prop := {
  wf_k_quaternions : wf_quaternion_dofs self (nq self);
  wf_k_r_length : length (nodalDOF_r self) = nnodes_r self;
  wf_k_r_size : nq_r self = nu_r self;
  wf_k_r_le : (nq_r self ≤ nq self)%nat;
  wf_k_r_range : Forall (Forall (λ k, (k < nq_r self)%nat)) (nodalDOF_r self);
  wf_k_r_cover :
    ∀ k, (k < nq_r self)%nat → k ∈ concat (nodalDOF_r self);
  wf_k_p_after :
    Forall (Forall (λ k, (nq_r self ≤ k)%nat)) (nodalDOF_p self)
}.

(** The angular velocity of a node and the product of a kinematic matrix
    with it. *)
Definition K_omega_IK (self : CosseratRod) (u : vec) (node : nat) : vec :=
  gather u (nth node (nodalDOF_p_u self) []).

Definition rows_dot (B : list vec) (x : vec) : vec := (λ r, dot r x) <$> B.

(** *** A rod with a single quaternion node *)

Definition one_node_rod : CosseratRod :=
  {| nelement := 1; nquadrature := 1; nquadrature_dyn := 1;
     nnodes_r := 0; nnodes_p := 1;
     nq_r := 0; nu_r := 0; nq := 4; nu := 3;
     elDOF := [[0; 1; 2; 3]%nat];
     nodalDOF_r := [];
     nodalDOF_p := [[0; 1; 2; 3]%nat];
     nodalDOF_p_u := [[0; 1; 2]%nat];
     qp := [[1 / 2]]; qw := [[1]]; qp_dyn := [[1 / 2]];
     Q := [1; 0; 0; 0];
     J := [[0]]; J_dyn := [[0]];
     K_Gamma0 := [[[0; 0; 0]]]; K_Kappa0 := [[[0; 0; 0]]] |}.

(** A kinematic matrix that is linear in the quaternion, to have an instance
    of the parameter [T_SO3_inv_quat]. *)
Definition T_linear (p : vec) : list vec :=
  let p0 := nth 0 p 0 in
  let p1 := nth 1 p 0 in
  let p2 := nth 2 p 0 in
  let p3 := nth 3 p 0 in
  [ [- p1 / 2; - p2 / 2; - p3 / 2];
    [p0 / 2; - p3 / 2; p2 / 2];
    [p3 / 2; p0 / 2; - p1 / 2];
    [- p2 / 2; p1 / 2; p0 / 2] ].

(** An evaluation that sees a straight rod with unit tangent, whatever the
    coordinates. *)
Definition eval_straight (qe : vec) (xi : R) : vec * list vec * vec * vec :=
  ([xi; 0; 0], eye 3, [1; 0; 0], [0; 0; 0]).

(** A model for the Moreau scheme whose only coordinates are the quaternion
    of [one_node_rod], which does not move, and whose step callback is the
    rod's. *)
Definition quaternion_model (q0 : vec) : Moreau.Model :=
  {| Moreau.t0 := 0; Moreau.q0 := q0; Moreau.u0 := [0; 0; 0];
     Moreau.la_g0 := []; Moreau.la_gamma0 := [];
     Moreau.la_N0 := []; Moreau.la_T0 := [];
     Moreau.nq := 4; Moreau.nu := 3;
     Moreau.nla_g := 0; Moreau.nla_gamma := 0;
     Moreau.nla_N := 0; Moreau.nla_T := 0;
     Moreau.NT_connectivity := [];
     Moreau.prox_r_N := []; Moreau.prox_r_T := []; Moreau.mu := [];
     Moreau.q_dot := λ _ _ _, [0; 0; 0; 0];
     Moreau.M := λ _ _, Mat 3 3 (eye 3);
     Moreau.h := λ _ _ _, [0; 0; 0];
     Moreau.W_g := λ _ _, Mat 3 0 [[]; []; []];
     Moreau.W_gamma := λ _ _, Mat 3 0 [[]; []; []];
     Moreau.W_N := λ _ _, Mat 3 0 [[]; []; []];
     Moreau.W_T := λ _ _, Mat 3 0 [[]; []; []];
     Moreau.g_dot_u := λ _ _, Mat 0 3 [];
     Moreau.chi_g := λ _ _, [];
     Moreau.gamma_u := λ _ _, Mat 0 3 [];
     Moreau.chi_gamma := λ _ _, [];
     Moreau.g_dot := λ _ _ _, [];
     Moreau.gamma := λ _ _ _, [];
     Moreau.g_N := λ _ _, [];
     Moreau.xi_N := λ _ _ _ _, [];
     Moreau.xi_T := λ _ _ _ _, [];
     Moreau.step_callback := step_callback one_node_rod |}.

(** Normalising one quaternion block, the body of the loop of the step
    callback. *)
Definition normalize_block (q : vec) (blk : list nat) : vec :=
  scatter q blk (vdiv (gather q blk) (norm (gather q blk))).

(** A trajectory record without samples. *)
Definition empty_solution : Moreau.Solution :=
  {| Moreau.sol_t := []; Moreau.sol_q := []; Moreau.sol_u := [];
     Moreau.sol_la_g := []; Moreau.sol_la_gamma := [];
     Moreau.sol_P_N := []; Moreau.sol_P_T := [] |}.

Definition quaternion_solver (q0 : vec) : Moreau.Solver :=
  {| Moreau.model := quaternion_model q0;
     Moreau.t1 := 1 / 10;
     Moreau.dt := 1 / 10;
     Moreau.t := [0; 1 / 10];
     Moreau.fix_point_error_function := Moreau.max_abs;
     Moreau.fix_point_tol := 1 / 100000000;
     Moreau.fix_point_max_iter := 1000;
     Moreau.newton_tol := 1 / 1000000;
     Moreau.newton_max_iter := 50;
     Moreau.newton_error_function := Moreau.max_abs;
     Moreau.tk := 0;
     Moreau.qk := q0;
     Moreau.uk := [0; 0; 0];
     Moreau.la_gk := [];
     Moreau.la_gammak := [];
     Moreau.P_Nk := [];
     Moreau.P_Tk := [];
     Moreau.method := Moreau.fixed_point |}.

End RodSpec.

(* ================================================================== *)
(** * Properties *)

(** ** Results and assertions *)

Module PyFacts.

Lemma bind_ok_inv {A B} (f : A → result B) c b :
  bind f c = Ok b → ∃ a, c = Ok a ∧ f a = Ok b.
Proof. destruct c as [a|e]; simpl; [eauto | discriminate]. Qed.

Lemma mbind_ok_inv {A B} (f : A → result B) (c : result A) b :
  c ≫= f = Ok b → ∃ a, c = Ok a ∧ f a = Ok b.
Proof. apply bind_ok_inv. Qed.

Lemma py_assert_ok c u : py_assert c = Ok u ↔ c = true.
Proof. destruct c, u; simpl; split; intros; congruence. Qed.

Lemma py_assert_raise c e : py_assert c = Raise e ↔ c = false ∧ e = AssertionError.
Proof.
  destruct c; simpl; split.
  - discriminate.
  - intros [? _]. discriminate.
  - intros [= <-]. done.
  - intros [_ ->]. done.
Qed.

End PyFacts.
Import PyFacts.

(** ** Arrays *)

Module NpFacts.

Lemma Rleb_le x y : Rleb x y = true ↔ x <= y.
Proof. unfold Rleb. destruct (Rle_dec x y); split; intros; (done || lra). Qed.

Lemma Rleb_nle x y : Rleb x y = false ↔ y < x.
Proof. unfold Rleb. destruct (Rle_dec x y); split; intros; (done || lra). Qed.

Lemma Rltb_lt x y : Rltb x y = true ↔ x < y.
Proof. unfold Rltb. destruct (Rlt_dec x y); split; intros; (done || lra). Qed.

Lemma Rltb_nlt x y : Rltb x y = false ↔ y <= x.
Proof. unfold Rltb. destruct (Rlt_dec x y); split; intros; (done || lra). Qed.

Lemma Reqb_eq x y : Reqb x y = true ↔ x = y.
Proof. unfold Reqb. destruct (Req_dec_T x y); split; intros; (done || lra). Qed.

(** *** Dot product and norm *)

Lemma dot_nil_l b : dot [] b = 0.
Proof. reflexivity. Qed.

Lemma dot_nil_r a : dot a [] = 0.
Proof. destruct a; reflexivity. Qed.

Lemma dot_cons x a y b : dot (x :: a) (y :: b) = x * y + dot a b.
Proof. reflexivity. Qed.

Lemma dot_app a b x y :
  length a = length x → dot (a ++ b) (x ++ y) = dot a x + dot b y.
Proof.
  revert x. induction a as [|a0 a IH]; intros [|x0 x] Hlen; simpl in *;
    try discriminate.
  - unfold dot at 2. simpl. lra.
  - rewrite !dot_cons, IH by lia. lra.
Qed.

Lemma dot_vneg_l a x : dot (vneg a) x = - dot a x.
Proof.
  revert x. induction a as [|a0 a IH]; intros [|x0 x];
    rewrite ?dot_nil_l, ?dot_nil_r; try lra.
  change (vneg (a0 :: a)) with (- a0 :: vneg a).
  rewrite !dot_cons, IH. lra.
Qed.

Lemma dot_vscale_l c a x : dot (vscale c a) x = c * dot a x.
Proof.
  revert x. induction a as [|a0 a IH]; intros [|x0 x];
    rewrite ?dot_nil_l, ?dot_nil_r; try lra.
  change (vscale c (a0 :: a)) with (c * a0 :: vscale c a).
  rewrite !dot_cons, IH. lra.
Qed.

Lemma dot_vscale_r c a x : dot a (vscale c x) = c * dot a x.
Proof.
  revert x. induction a as [|a0 a IH]; intros [|x0 x];
    rewrite ?dot_nil_l, ?dot_nil_r; try lra.
  change (vscale c (x0 :: x)) with (c * x0 :: vscale c x).
  rewrite !dot_cons, IH. lra.
Qed.

Lemma dot_zeros_l n x : dot (zeros n) x = 0.
Proof.
  revert x. induction n as [|n IH]; intros [|x0 x]; simpl;
    rewrite ?dot_nil_l, ?dot_nil_r; try reflexivity.
  unfold zeros in *. simpl. rewrite dot_cons, IH. lra.
Qed.

Lemma dot_self_nonneg a : 0 <= dot a a.
Proof.
  induction a as [|a0 a IH]; [unfold dot; simpl; lra|].
  rewrite dot_cons. nra.
Qed.

Lemma norm_nonneg a : 0 <= norm a.
Proof. apply sqrt_pos. Qed.

Lemma norm_zeros n : norm (zeros n) = 0.
Proof. unfold norm. rewrite dot_zeros_l. apply sqrt_0. Qed.

Lemma norm_vscale c a : norm (vscale c a) = Rabs c * norm a.
Proof.
  unfold norm. rewrite dot_vscale_l, dot_vscale_r.
  replace (c * (c * dot a a)) with (c² * dot a a) by (unfold Rsqr; lra).
  rewrite sqrt_mult; [| apply Rle_0_sqr | apply dot_self_nonneg].
  by rewrite sqrt_Rsqr_abs.
Qed.

Lemma vdiv_vscale a c : vdiv a c = vscale (/ c) a.
Proof.
  unfold vdiv, vscale. apply list_fmap_ext. intros _ x _. unfold Rdiv. lra.
Qed.

(** A block that is not zero has norm one after division by its norm. *)
Lemma norm_vdiv_self a : norm a ≠ 0 → norm (vdiv a (norm a)) = 1.
Proof.
  intros Hn. rewrite vdiv_vscale, norm_vscale.
  pose proof (norm_nonneg a) as Hp.
  rewrite Rabs_right.
  - by apply Rinv_l.
  - apply Rle_ge. left. apply Rinv_0_lt_compat. lra.
Qed.

Lemma length_vscale c a : length (vscale c a) = length a.
Proof. apply length_fmap. Qed.

Lemma length_vdiv a c : length (vdiv a c) = length a.
Proof. apply length_fmap. Qed.

Lemma length_zeros n : length (zeros n) = n.
Proof. apply length_replicate. Qed.

(** *** Integer index arrays *)

Lemma length_scatter a idx src : length (scatter a idx src) = length a.
Proof.
  unfold scatter. revert a src.
  induction idx as [|i idx IH]; intros a [|x src]; simpl; try done.
  rewrite IH. apply length_insert.
Qed.

Lemma scatter_cons a i idx x src :
  scatter a (i :: idx) (x :: src) = scatter (<[i:=x]> a) idx src.
Proof. reflexivity. Qed.

Lemma scatter_nil_l a src : scatter a [] src = a.
Proof. reflexivity. Qed.

Lemma scatter_nil_r a idx : scatter a idx [] = a.
Proof. destruct idx; reflexivity. Qed.

Lemma nth_insert_eq (a : vec) i x : (i < length a)%nat → nth i (<[i:=x]> a) 0 = x.
Proof. intros H. rewrite nth_lookup, list_lookup_insert_eq by done. done. Qed.

Lemma nth_insert_ne (a : vec) i k x : i ≠ k → nth k (<[i:=x]> a) 0 = nth k a 0.
Proof. intros H. rewrite !nth_lookup, list_lookup_insert_ne by done. done. Qed.

Lemma nth_scatter_notin a idx src k :
  k ∉ idx → nth k (scatter a idx src) 0 = nth k a 0.
Proof.
  revert a src. induction idx as [|i idx IH]; intros a [|x src] Hk;
    rewrite ?scatter_nil_l, ?scatter_nil_r; try done.
  rewrite scatter_cons. apply not_elem_of_cons in Hk as [Hne Hk].
  rewrite IH by done. by apply nth_insert_ne.
Qed.

Lemma nth_scatter_in a idx src j k x :
  NoDup idx → idx !! j = Some k → (k < length a)%nat → src !! j = Some x →
  nth k (scatter a idx src) 0 = x.
Proof.
  revert a src j. induction idx as [|i idx IH]; intros a [|x0 src] j Hnd Hj Hk Hx;
    try done.
  rewrite scatter_cons. apply NoDup_cons in Hnd as [Hi Hnd].
  destruct j as [|j]; simpl in *.
  - simplify_eq. rewrite nth_scatter_notin by done. by apply nth_insert_eq.
  - eapply IH; eauto. by rewrite length_insert.
Qed.

Lemma gather_scatter_disjoint a idx src idx2 :
  (∀ k, k ∈ idx2 → k ∉ idx) →
  gather (scatter a idx src) idx2 = gather a idx2.
Proof.
  intros H. unfold gather. apply list_fmap_ext. intros i k Hk.
  apply nth_scatter_notin, H. eapply list_elem_of_lookup_2; eauto.
Qed.

Lemma gather_scatter_same a idx src :
  NoDup idx → Forall (λ k, (k < length a)%nat) idx → length src = length idx →
  gather (scatter a idx src) idx = src.
Proof.
  intros Hnd Hr Hl. apply list_eq. intros j. unfold gather.
  rewrite list_lookup_fmap.
  destruct (idx !! j) as [k|] eqn:Hj; simpl.
  - destruct (lookup_lt_is_Some_2 src j) as [x Hx].
    { rewrite Hl. eapply lookup_lt_Some; eauto. }
    rewrite Hx. f_equal. eapply nth_scatter_in; eauto.
    eapply Forall_lookup_1 in Hr; eauto.
  - symmetry. apply lookup_ge_None. rewrite Hl. by apply lookup_ge_None.
Qed.

Lemma length_gather a idx : length (gather a idx) = length idx.
Proof. apply length_fmap. Qed.

Lemma nth_scatter_gather a P idx k :
  Forall (λ k, (k < length a)%nat) idx →
  nth k (scatter a idx (gather P idx)) 0
  = if decide (k ∈ idx) then nth k P 0 else nth k a 0.
Proof.
  revert a. induction idx as [|i idx IH]; intros a Hr.
  - rewrite scatter_nil_l. case_decide as H; [by apply elem_of_nil in H | done].
  - change (gather P (i :: idx)) with (nth i P 0 :: gather P idx).
    rewrite scatter_cons. apply Forall_cons in Hr as [Hi Hr].
    rewrite IH by (by rewrite length_insert).
    destruct (decide (k ∈ idx)) as [Hin|Hnin].
    + rewrite decide_True by (by apply elem_of_cons; right). done.
    + destruct (decide (k = i)) as [->|Hne].
      * rewrite decide_True by (by apply elem_of_cons; left).
        by apply nth_insert_eq.
      * rewrite decide_False by (intros [?|?]%elem_of_cons; done).
        by apply nth_insert_ne.
Qed.

(** *** Boolean masks *)

Lemma length_mask_assign {A} (m : list bool) (a src : list A) :
  length (mask_assign m a src) = length a.
Proof.
  revert a src. induction m as [|b m IH]; intros [|x a] src; simpl; try done.
  destruct b; [destruct src|]; simpl; by rewrite IH.
Qed.

Lemma length_select {A B} (m : list bool) (a : list A) (b : list B) :
  length a = length b → length (select m a) = length (select m b).
Proof.
  revert a b. induction m as [|c m IH]; intros [|x a] [|y b] H; simpl in *;
    try done.
  destruct c; simpl; rewrite (IH a b) by lia; done.
Qed.

Lemma Forall_select {A} (P : A → Prop) (m : list bool) (a : list A) :
  Forall P a → Forall P (select m a).
Proof.
  revert a. induction m as [|c m IH]; intros [|x a] H; simpl; try done.
  apply Forall_cons in H as [Hx H].
  destruct c; [apply Forall_cons; split|]; auto.
Qed.

Lemma Forall_mask_assign {A} (P : A → Prop) (m : list bool) (a src : list A) :
  Forall P a → Forall P src → Forall P (mask_assign m a src).
Proof.
  revert a src. induction m as [|c m IH]; intros [|x a] src Ha Hs; simpl;
    try done.
  apply Forall_cons in Ha as [Hx Ha].
  destruct c.
  - destruct src as [|s src].
    + apply Forall_cons; split; auto.
    + apply Forall_cons in Hs as [Hs0 Hs]. apply Forall_cons; split; auto.
  - apply Forall_cons; split; auto.
Qed.

(** Reading back through the mask what was written through it. *)
Lemma select_mask_assign {A} (m : list bool) (a src : list A) :
  length m = length a → length src = length (select m a) →
  select m (mask_assign m a src) = src.
Proof.
  revert a src. induction m as [|c m IH]; intros [|x a] src Hm Hs; simpl in *;
    try done.
  - by destruct src.
  - destruct c.
    + destruct src as [|s src]; simpl in *; [done|].
      f_equal. apply IH; lia.
    + apply IH; lia.
Qed.

Lemma nth_mask_assign_select {A} (m : list bool) (a b : list A) i d :
  length m = length a → length a = length b →
  nth i (mask_assign m a (select m b)) d
  = if nth i m false then nth i b d else nth i a d.
Proof.
  revert a b i. induction m as [|c m IH]; intros [|x a] [|y b] i Hm Hb;
    simpl in *; try done.
  - by destruct i.
  - destruct c; simpl; (destruct i as [|i]; simpl; [done|]); apply IH; lia.
Qed.

(** Outside the mask nothing changes. *)
Lemma nth_mask_assign_false {A} (m : list bool) (a src : list A) i d :
  nth i m false = false → nth i (mask_assign m a src) d = nth i a d.
Proof.
  revert a src i. induction m as [|c m IH]; intros [|x a] src i Hi; simpl in *;
    try done.
  destruct c.
  - destruct i as [|i]; [done|]. destruct src; simpl; by apply IH.
  - destruct i as [|i]; simpl; [done|]. by apply IH.
Qed.

Lemma np_any_false_iff (m : list bool) :
  np_any m = false ↔ ∀ i, nth i m false = false.
Proof.
  unfold np_any. induction m as [|b m IH]; simpl.
  - split; [intros _ [|i]; done | done].
  - rewrite orb_false_iff, IH. split.
    + intros [-> H] [|i]; [done | apply H].
    + intros H. split; [apply (H 0%nat) | intros i; apply (H (S i))].
Qed.

Lemma np_all_true_iff (m : list bool) :
  np_all m = true ↔ Forall (λ b, b = true) m.
Proof.
  unfold np_all. induction m as [|b m IH]; simpl.
  - split; [constructor | done].
  - rewrite andb_true_iff, IH, Forall_cons. done.
Qed.


Lemma length_le0 v : length (le0 v) = length v.
Proof. apply length_fmap. Qed.

(** *** Elementwise operations *)

Lemma length_vadd a b : length (vadd a b) = min (length a) (length b).
Proof. apply length_zip_with. Qed.

Lemma length_vsub a b : length (vsub a b) = min (length a) (length b).
Proof. apply length_zip_with. Qed.

Lemma length_vmul a b : length (vmul a b) = min (length a) (length b).
Proof. apply length_zip_with. Qed.

Lemma length_vneg a : length (vneg a) = length a.
Proof. apply length_fmap. Qed.


(** *** The proximal maps *)

Lemma length_prox_Rn0 x : length (prox_Rn0 x) = length x.
Proof. apply length_fmap. Qed.

Lemma prox_Rn0_nonneg x : Forall (λ y, 0 <= y) (prox_Rn0 x).
Proof.
  unfold prox_Rn0. apply Forall_fmap, Forall_forall. intros y _. simpl.
  apply Rmax_r.
Qed.

Lemma length_prox_circle x r : length (prox_circle x r) = length x.
Proof.
  unfold prox_circle. destruct (Rleb _ _); [done | apply length_vscale].
Qed.

Lemma prox_circle_norm x r : 0 <= r → norm (prox_circle x r) <= r.
Proof.
  intros Hr. unfold prox_circle.
  destruct (Rleb (norm x) r) eqn:E.
  - by apply Rleb_le.
  - apply Rleb_nle in E. rewrite norm_vscale.
    assert (0 < norm x) by lra.
    rewrite Rabs_right.
    + unfold Rdiv. rewrite Rmult_assoc, Rinv_l by lra. lra.
    + apply Rle_ge. apply Rmult_le_pos; [done|].
      left. by apply Rinv_0_lt_compat.
Qed.

(** *** Block matrices *)

Lemma hstack_nil_r (Ra : list vec) h :
  length Ra = h → hstack Ra (replicate h []) = Ra.
Proof.
  revert h. induction Ra as [|r Ra IH]; intros [|h] H; simpl in *; try done.
  unfold hstack in *. simpl. rewrite IH by lia. by rewrite app_nil_r.
Qed.

Lemma matvec_hstack (Ra Rb : list vec) x y :
  Forall (λ r, length r = length x) Ra →
  (λ r, dot r (x ++ y)) <$> hstack Ra Rb
  = vadd ((λ r, dot r x) <$> Ra) ((λ r, dot r y) <$> Rb).
Proof.
  revert Rb. induction Ra as [|r Ra IH]; intros [|s Rb] H; try done.
  apply Forall_cons in H as [Hr H].
  unfold hstack, vadd in *. simpl. rewrite IH by done.
  by rewrite dot_app.
Qed.

Lemma matvec_zero_rows h w y :
  (λ r, dot r y) <$> replicate h (zeros w) = zeros h.
Proof.
  induction h as [|h IH]; [done|].
  change (replicate (S h) (zeros w)) with (zeros w :: replicate h (zeros w)).
  rewrite fmap_cons, IH, dot_zeros_l. done.
Qed.

Lemma vadd_zeros_r a h : length a = h → vadd a (zeros h) = a.
Proof.
  revert h. induction a as [|x a IH]; intros [|h] H; simpl in *; try done.
  unfold vadd, zeros in *. simpl. rewrite IH by lia. f_equal. lra.
Qed.

Lemma matvec_mneg A x : matvec (mneg A) x = vneg (matvec A x).
Proof.
  unfold matvec, mneg, vneg. simpl. rewrite <- !list_fmap_compose.
  apply list_fmap_ext. intros i r _. simpl. apply dot_vneg_l.
Qed.

Lemma matvec_mscale c A x : matvec (mscale c A) x = vscale c (matvec A x).
Proof.
  unfold matvec, mscale, vscale. simpl. rewrite <- !list_fmap_compose.
  apply list_fmap_ext. intros i r _. simpl. apply dot_vscale_l.
Qed.

Lemma length_matvec A x : length (matvec A x) = length (rows A).
Proof. apply length_fmap. Qed.

Lemma vadd_vneg_vsub a b c :
  vadd a (vadd (vneg b) (vneg c)) = vsub (vsub a b) c.
Proof.
  revert b c. unfold vadd, vsub, vneg.
  induction a as [|x a IH]; intros [|y b] [|z c]; simpl; try done.
  rewrite IH. f_equal. lra.
Qed.

Lemma wf_transpose A : wf_matrix A → wf_matrix (transpose A).
Proof.
  intros [Hl Hr]. split; simpl.
  - by rewrite length_fmap, length_seq.
  - apply Forall_fmap, Forall_forall. intros j _. simpl.
    by rewrite length_fmap.
Qed.

(** The product of the three by three arrangement used by both solvers with
    a vector split accordingly. *)
Lemma matvec_bmat_kkt M A B C D u lg lgam n a b :
  has_shape n n M → has_shape n a A → has_shape n b B →
  ncols C = n → wf_matrix C → ncols D = n → wf_matrix D →
  length u = n → length lg = a →
  matvec (bmat [ [Some M; Some A; Some B];
                 [Some C; None; None];
                 [Some D; None; None] ]) (u ++ lg ++ lgam)
  = vadd (matvec M u) (vadd (matvec A lg) (matvec B lgam))
      ++ matvec C u ++ matvec D u.
Proof.
  intros (HMr & HMc & HMl & HMf) (HAr & HAc & HAl & HAf)
    (HBr & HBc & HBl & HBf) HCc [HCl HCf] HDc [HDl HDf] Hu Hlg.
  unfold matvec, bmat, bmat_row, block_height, block_width. simpl.
  rewrite app_nil_r, !fmap_app.
  rewrite HMc, HAc, HBc in *. rewrite HMr, HAr, HBr in *.
  rewrite (hstack_nil_r (rows B)) by done.
  rewrite !(hstack_nil_r (replicate _ _)) by apply length_replicate.
  rewrite !matvec_hstack; try (eapply Forall_impl; [eassumption|]; simpl; lia).
  - rewrite !matvec_zero_rows.
    rewrite !(vadd_zeros_r (zeros _)) by apply length_zeros.
    rewrite !vadd_zeros_r by (by rewrite length_fmap).
    done.
  - apply Forall_replicate. by rewrite length_zeros.
  - apply Forall_replicate. by rewrite length_zeros.
Qed.

Lemma ncols_bmat_kkt M A B C D :
  ncols (bmat [ [Some M; Some A; Some B];
                [Some C; None; None];
                [Some D; None; None] ])
  = (ncols M + (ncols A + ncols B))%nat.
Proof. unfold bmat, block_width. simpl. lia. Qed.

End NpFacts.
Import NpFacts.

(** ** [consistent_initial_conditions] *)

Module BaseProofs.
Import Base BaseSpec.

Lemma split3 (x : vec) a b c :
  length x = (a + (b + c))%nat →
  x = take a x ++ take b (drop a x) ++ take c (drop (a + b) x).
Proof.
  intros H. rewrite <- (drop_drop x b a).
  rewrite (take_ge (drop b (drop a x))) by (rewrite !length_drop; lia).
  by rewrite !take_drop.
Qed.

Lemma wf_mneg m n A : has_shape m n A → has_shape m n (mneg A).
Proof.
  intros (Hr & Hc & Hl & Hf). repeat split; simpl; try done.
  - by rewrite length_fmap.
  - apply Forall_fmap. eapply Forall_impl; [exact Hf|].
    intros r Hlen. simpl. by rewrite length_vneg.
Qed.

Section Solver.

Variable spsolve : matrix → vec → vec.

(** The function is a chain of assertions followed by the return. *)
Lemma cic_unfold system rtol atol :
  consistent_initial_conditions spsolve system rtol atol
  = if asserted_conditions spsolve system rtol atol then
      Ok (t0 system, q0 system, u0 system,
          q_dot system (t0 system) (q0 system) (u0 system),
          u_dot0 spsolve system, la_g0 spsolve system,
          la_gamma0 spsolve system)
    else Raise AssertionError.
Proof.
  unfold consistent_initial_conditions, asserted_conditions,
    bilateral_residuals_within_tol, contact_accelerations_admissible,
    closing_velocities_admissible, gaps_feasible, within_tol,
    u_dot0, la_g0, la_gamma0.
  repeat match goal with
         | |- context [py_assert ?c] => destruct c; simpl; try reflexivity
         end.
Qed.

(** A solution of [A x = b] for the assembled [A] and [b] solves the three
    block equations. *)
Lemma kkt_blocks system x :
  wf_shapes system →
  solves (kkt_A system) (kkt_b system) x →
  x = take (nu system) x ++ take (nla_g system) (drop (nu system) x)
        ++ take (nla_gamma system) (drop (nu system + nla_g system) x)
  ∧ kkt_solution system (take (nu system) x)
      (take (nla_g system) (drop (nu system) x))
      (take (nla_gamma system) (drop (nu system + nla_g system) x)).
Proof.
  intros Hwf [Hlen Hsol].
  destruct Hwf as [HM HWg HWgam [HWNr HWN] [HWFr HWF] Hh Hzg Hzgam].
  pose proof HM as (HMr & HMc & HMl & HMf).
  pose proof HWg as (Hgr & Hgc & Hgl & Hgf).
  pose proof HWgam as (Hgar & Hgac & Hgal & Hgaf).
  unfold kkt_A in Hlen, Hsol. cbv zeta in Hlen, Hsol.
  rewrite ncols_bmat_kkt in Hlen. simpl in Hlen.
  rewrite HMc, Hgc, Hgac in Hlen.
  pose proof (split3 x _ _ _ Hlen) as Hx.
  split; [exact Hx|].
  set (u := take (nu system) x) in *.
  set (lg := take (nla_g system) (drop (nu system) x)) in *.
  set (lgam := take (nla_gamma system) (drop (nu system + nla_g system) x)) in *.
  assert (Hu : length u = nu system) by (subst u; rewrite length_take; lia).
  assert (Hlg : length lg = nla_g system).
  { subst lg. rewrite length_take, length_drop. lia. }
  rewrite Hx in Hsol.
  rewrite (matvec_bmat_kkt _ _ _ _ _ _ _ _ (nu system) (nla_g system)
             (nla_gamma system)) in Hsol;
    try done; try (by apply wf_mneg); try (by apply wf_transpose).
  rewrite !matvec_mneg, vadd_vneg_vsub in Hsol.
  unfold kkt_b in Hsol. cbv zeta in Hsol.
  apply app_inj_1 in Hsol as [Htop Hrest].
  - apply app_inj_1 in Hrest as [Hg Hgam].
    + unfold kkt_solution, rhs_motion. cbv zeta. done.
    + rewrite length_matvec, length_vneg, Hzg. simpl.
      by rewrite length_fmap, length_seq.
  - destruct HWN as [HWNl _], HWF as [HWFl _].
    rewrite !length_vsub, !length_vadd, !length_matvec, Hh. lia.
Qed.

(** C1: with feasible initial data, [consistent_initial_conditions] returns
    [t0], [q0], [u0] unchanged together with [q_dot0] and the first [nu],
    next [nla_g] and following [nla_gamma] components of
    [spsolve(A, b)], where [A] is the block matrix
    [[M0, -W_g0, -W_gamma0], [W_g0.T, 0, 0], [W_gamma0.T, 0, 0]] and
    [b = [h0 + W_N0 @ la_N0 + W_F0 @ la_F0, -zeta_g0, -zeta_gamma0]], all at
    [(t0, q0, u0)]; when [spsolve] returns a solution of [A x = b], the
    three returned parts solve the KKT system block by block. *)
Theorem cic_solves_kkt system rtol atol r :
  wf_shapes system →
  consistent_initial_conditions spsolve system rtol atol = Ok r →
  let x := spsolve (kkt_A system) (kkt_b system) in
  r = (t0 system, q0 system, u0 system,
       q_dot system (t0 system) (q0 system) (u0 system),
       take (nu system) x,
       take (nla_g system) (drop (nu system) x),
       take (nla_gamma system) (drop (nu system + nla_g system) x))
  ∧ (solves (kkt_A system) (kkt_b system) x →
     x = r.1.1.2 ++ r.1.2 ++ r.2
     ∧ kkt_solution system r.1.1.2 r.1.2 r.2).
Proof.
  intros Hwf Hok x. rewrite cic_unfold in Hok.
  destruct (asserted_conditions _ _ _ _); [|discriminate].
  injection Hok as <-. split; [reflexivity|].
  intros Hsol. simpl. by apply kkt_blocks.
Qed.

(** C7 (as the code has it): [consistent_initial_conditions] either returns
    or raises [AssertionError]; it returns exactly when the initial gaps are
    non-negative, the velocities of the closed gaps are admissible, the gap
    accelerations found with the solved [u_dot0] are admissible, and the six
    bilateral residuals [g], [g_dot], [g_ddot], [gamma], [gamma_dot], [g_S]
    are within tolerance; it raises exactly when one of these four
    conditions fails. *)
Theorem cic_fails_iff system rtol atol :
  (is_ok (consistent_initial_conditions spsolve system rtol atol)
   ↔ gaps_feasible system = true
     ∧ closing_velocities_admissible system rtol atol = true
     ∧ contact_accelerations_admissible spsolve system rtol atol = true
     ∧ bilateral_residuals_within_tol spsolve system rtol atol = true)
  ∧ (raises (consistent_initial_conditions spsolve system rtol atol)
       AssertionError
     ↔ gaps_feasible system = false
       ∨ closing_velocities_admissible system rtol atol = false
       ∨ contact_accelerations_admissible spsolve system rtol atol = false
       ∨ bilateral_residuals_within_tol spsolve system rtol atol = false)
  ∧ (∀ e, consistent_initial_conditions spsolve system rtol atol = Raise e
          → e = AssertionError).
Proof.
  rewrite cic_unfold. unfold asserted_conditions.
  destruct (gaps_feasible system),
    (closing_velocities_admissible system rtol atol),
    (contact_accelerations_admissible spsolve system rtol atol),
    (bilateral_residuals_within_tol spsolve system rtol atol); simpl;
    (split; [|split]);
    try (split; [intros H | intros H]);
    try (intros e [= <-]); try done; try tauto;
    try (destruct H as (? & ? & ? & ?); discriminate);
    try (destruct H as [?|[?|[?|?]]]; discriminate).
Qed.

End Solver.

(** *** Concrete systems *)

Ltac r_abs :=
  repeat match goal with
         | |- context [Rabs ?x] =>
             first [ rewrite (Rabs_pos_eq x) by lra
                   | rewrite (Rabs_left x) by lra ]
         end.

Ltac r_cmp :=
  repeat match goal with
         | |- context [Rleb ?x ?y] =>
             first [ rewrite (proj2 (Rleb_le x y)) by lra
                   | rewrite (proj2 (Rleb_nle x y)) by lra ]
         | |- context [Rltb ?x ?y] =>
             first [ rewrite (proj2 (Rltb_lt x y)) by lra
                   | rewrite (proj2 (Rltb_nlt x y)) by lra ]
         end.

Ltac r_eval := repeat (progress (simpl; r_abs; r_cmp)).

Ltac np_eval :=
  repeat (progress (unfold matvec, kkt_A, kkt_b, bmat, bmat_row, hstack, dot,
                      vadd, vsub, vneg, vscale;
                    simpl)).

Ltac vec_eq :=
  repeat (apply (f_equal2 cons); [lra|]); reflexivity.

Ltac shape := repeat split; simpl; repeat constructor.

Lemma pinned_mass_shapes : wf_shapes pinned_mass.
Proof. split; shape. Qed.

Lemma pinned_mass_asserted :
  asserted_conditions pinned_mass_solver pinned_mass rtol_default atol_default
  = true.
Proof.
  unfold asserted_conditions, bilateral_residuals_within_tol,
    contact_accelerations_admissible, closing_velocities_admissible,
    gaps_feasible, within_tol, allclose, rtol_default, atol_default.
  unfold Rminus. r_eval. reflexivity.
Qed.

Lemma pinned_mass_solved :
  solves (kkt_A pinned_mass) (kkt_b pinned_mass)
    (pinned_mass_solver (kkt_A pinned_mass) (kkt_b pinned_mass)).
Proof.
  split; [reflexivity|].
  np_eval. vec_eq.
Qed.

(** The first theorem at the pinned mass: the returned parts are
    [u_dot0 = [0]] and [la_g0 = [-4]], and they solve
    [2 u_dot - la_g = 4], [u_dot = 0]. *)
Lemma cic_solves_kkt_witness :
  wf_shapes pinned_mass
  ∧ consistent_initial_conditions pinned_mass_solver pinned_mass
      rtol_default atol_default
    = Ok (0, [0], [0], [0], [0], [-4], [])
  ∧ kkt_solution pinned_mass [0] [-4] [].
Proof.
  assert (Hok : consistent_initial_conditions pinned_mass_solver pinned_mass
                  rtol_default atol_default
                = Ok (0, [0], [0], [0], [0], [-4], [])).
  { rewrite cic_unfold, pinned_mass_asserted. reflexivity. }
  split; [exact pinned_mass_shapes|]. split; [exact Hok|].
  destruct (cic_solves_kkt pinned_mass_solver pinned_mass rtol_default
              atol_default _ pinned_mass_shapes Hok) as [_ Hsol].
  exact (proj2 (Hsol pinned_mass_solved)).
Defined.

Lemma pressed_contact_solved :
  solves (kkt_A pressed_contact) (kkt_b pressed_contact)
    (pressed_contact_solver (kkt_A pressed_contact) (kkt_b pressed_contact)).
Proof.
  split; [reflexivity|].
  np_eval. vec_eq.
Qed.

(** C7 as stated fails: at the pressed contact every listed condition holds
    (gap [0], gap velocity [0], no bilateral constraint), and the function
    still raises, because the gap acceleration [-1] is asserted as well. *)
Lemma cic_raises_beyond_listed :
  listed_conditions pressed_contact_solver pressed_contact
    rtol_default atol_default = true
  ∧ ¬ (raises (consistent_initial_conditions pressed_contact_solver
                 pressed_contact rtol_default atol_default) AssertionError
       ↔ listed_conditions pressed_contact_solver pressed_contact
           rtol_default atol_default = false).
Proof.
  assert (Hl : listed_conditions pressed_contact_solver pressed_contact
                 rtol_default atol_default = true).
  { unfold listed_conditions, bilateral_residuals_within_tol,
      closing_velocities_admissible, gaps_feasible, within_tol, allclose.
    r_eval. reflexivity. }
  split; [exact Hl|].
  intros [Hraise _]. rewrite Hl in Hraise.
  assert (Hr : raises (consistent_initial_conditions pressed_contact_solver
                         pressed_contact rtol_default atol_default)
                 AssertionError).
  { rewrite cic_unfold.
    unfold asserted_conditions, bilateral_residuals_within_tol,
      contact_accelerations_admissible, closing_velocities_admissible,
      gaps_feasible, within_tol, allclose, rtol_default, atol_default.
    unfold Rminus. r_eval. reflexivity. }
  specialize (Hraise Hr). discriminate.
Qed.

End BaseProofs.

(** ** [LobattoIIIAB.__init__] *)

Module LobattoProofs.
Import Base BaseSpec BaseProofs Lobatto.

(** The tuple returned by [consistent_initial_conditions] has seven
    items. *)
Lemma length_as_tuple r : length (as_tuple r) = 7%nat.
Proof. by destruct r as [[[[[[? ?] ?] ?] ?] ?] ?]. Qed.

Lemma unpack_9_fails r : unpack 9 (as_tuple r) = Raise ValueError.
Proof. unfold unpack. by rewrite length_as_tuple. Qed.

(** C9 (as the code has it): constructing a [LobattoIIIAB] never succeeds.
    With [t1 > t0] the constructor reaches
    [consistent_initial_conditions]; if that raises, its [AssertionError]
    is what the constructor raises, and if it returns, its seven items are
    unpacked into nine names, which raises [ValueError]. (With [t1 <= t0]
    the time grid cannot be built and a [TypeError] is raised before.) *)
Theorem lobatto_init_raises spsolve np_arange system t1 dt stages atol
    max_iter :
  Lobatto.init spsolve np_arange system t1 dt stages atol max_iter
  = Raise
      (if Rltb (t0 system) t1 then
         if asserted_conditions spsolve system rtol_default atol_default
         then ValueError
         else AssertionError
       else TypeError)
  ∧ (∀ r, consistent_initial_conditions spsolve system rtol_default
            atol_default = Ok r
          → length (as_tuple r) = 7%nat).
Proof.
  split; [|intros r _; apply length_as_tuple].
  unfold Lobatto.init. destruct (Rltb (t0 system) t1); simpl; [|done].
  rewrite cic_unfold.
  destruct (asserted_conditions _ _ _ _); simpl; [|done].
  unfold unpack. simpl. done.
Qed.

(** For a system whose initial gap is negative the constructor raises the
    [AssertionError] of [consistent_initial_conditions], whatever the linear
    solver. *)
Lemma penetrated_contact_init :
  ∀ spsolve np_arange,
    Lobatto.init spsolve np_arange penetrated_contact 1 (1 / 10) 2
      (1 / 1000000) 20
    = Raise AssertionError
    ∧ ¬ raises (Lobatto.init spsolve np_arange penetrated_contact 1 (1 / 10) 2
                  (1 / 1000000) 20) ValueError.
Proof.
  intros spsolve np_arange.
  assert (H : Lobatto.init spsolve np_arange penetrated_contact 1 (1 / 10) 2
                (1 / 1000000) 20 = Raise AssertionError).
  { unfold Lobatto.init. r_eval. rewrite cic_unfold.
    unfold asserted_conditions, gaps_feasible. r_eval. reflexivity. }
  split; [exact H|]. rewrite H. simpl. discriminate.
Qed.

(** C9 as stated fails: for a system whose initial gap is negative the
    constructor raises the [AssertionError] of
    [consistent_initial_conditions], not an unpacking error. *)
Lemma lobatto_init_assertion_first :
  Lobatto.init pressed_contact_solver (λ a b h, [a; b]) penetrated_contact
    1 (1 / 10) 2 (1 / 1000000) 20
  = Raise AssertionError
  ∧ ¬ raises (Lobatto.init pressed_contact_solver (λ a b h, [a; b])
                penetrated_contact 1 (1 / 10) 2 (1 / 1000000) 20) ValueError.
Proof. exact (penetrated_contact_init pressed_contact_solver (λ a b h, [a; b])). Qed.

End LobattoProofs.

(** ** The error estimate of the Radau IIA integrator *)

Module RadauProofs.
Import Radau.

Lemma length_index_array d nq nu nla_g nla_gamma nla_S :
  length (index_array d nq nu nla_g nla_gamma nla_S)
  = ny d nq nu nla_g nla_gamma nla_S.
Proof.
  destruct d; unfold index_array, ny;
    rewrite ?length_app, ?length_replicate; lia.
Qed.







End RadauProofs.

(** ** The Moreau scheme *)

Module MoreauProofs.
Import Moreau MoreauSpec.

Lemma elem_of_concat {A} (x : A) (ls : list (list A)) :
  x ∈ concat ls ↔ ∃ l, x ∈ l ∧ l ∈ ls.
Proof.
  induction ls as [|l ls IH]; simpl.
  - split; [intros H; by apply elem_of_nil in H|].
    intros (l & _ & H). by apply elem_of_nil in H.
  - rewrite elem_of_app, IH. split.
    + intros [H|(l' & H1 & H2)].
      * exists l. split; [done | by left].
      * exists l'. split; [done | by right].
    + intros (l' & H1 & H2). apply elem_of_cons in H2 as [->|H2].
      * by left.
      * right. by exists l'.
Qed.

Section Run.

Variable spsolve : matrix → vec → vec.
Variable numerical_jacobian : (R → vec → vec) → R → vec → matrix.

Local Abbreviation step := (step spsolve numerical_jacobian).
Local Abbreviation solve_body := (solve_body spsolve numerical_jacobian).
Local Abbreviation solve_loop := (solve_loop spsolve numerical_jacobian).
Local Abbreviation solve := (solve spsolve numerical_jacobian).
Local Abbreviation advance := (advance spsolve numerical_jacobian).
Local Abbreviation state_after := (state_after spsolve numerical_jacobian).

(** *** The loop over the time grid *)

Lemma solve_body_unfold self sol :
  solve_body self sol
  = if converged (step self) then
      Ok (advance self,
          record_step sol (qk (advance self)) (uk (advance self))
            (la_gk (advance self)) (la_gammak (advance self))
            (P_Nk (advance self)) (P_Tk (advance self)))
    else Raise RuntimeError.
Proof.
  unfold Moreau.solve_body, MoreauSpec.advance.
  destruct (converged (step self)); simpl; [|done].
  by destruct (step_callback _ _ _ _).
Qed.

Lemma state_after_S k self :
  state_after (S k) self = state_after k (advance self).
Proof.
  unfold MoreauSpec.state_after. induction k as [|k IH]; [done|].
  simpl in *. by rewrite IH.
Qed.

(** The run returns exactly when every step converges. *)
Lemma solve_loop_ok_iff n self sol :
  is_ok (solve_loop n self sol)
  ↔ ∀ k, (k < n)%nat → converged (step (state_after k self)) = true.
Proof.
  revert self sol. induction n as [|n IH]; intros self sol; simpl.
  - split; [intros _ k Hk; lia | done].
  - rewrite solve_body_unfold.
    destruct (converged (step self)) eqn:Hc; simpl.
    + change (Py.bind ?f (Ok ?x)) with (f x). simpl.
      rewrite IH. split.
      * intros H [|k] Hk; [done|]. rewrite state_after_S. apply H. lia.
      * intros H k Hk. rewrite <- state_after_S. apply H. lia.
    + split; [done|]. intros H. specialize (H 0%nat ltac:(lia)).
      simpl in H. congruence.
Qed.

(** The run raises exactly at its first step that does not converge, and
    what it raises is [RuntimeError]. *)
Lemma solve_loop_raise n self sol e :
  solve_loop n self sol = Raise e →
  e = RuntimeError
  ∧ ∃ k, (k < n)%nat
         ∧ converged (step (state_after k self)) = false
         ∧ ∀ i, (i < k)%nat → converged (step (state_after i self)) = true.
Proof.
  revert self sol. induction n as [|n IH]; intros self sol; simpl; [done|].
  rewrite solve_body_unfold.
  destruct (converged (step self)) eqn:Hc; simpl.
  - change (Py.bind ?f (Ok ?x)) with (f x). simpl.
    intros H. apply IH in H as (-> & k & Hk & Hf & Hb). split; [done|].
    exists (S k). split; [lia|]. rewrite state_after_S. split; [done|].
    intros [|i] Hi; [done|]. rewrite state_after_S. apply Hb. lia.
  - intros [= <-]. split; [done|]. exists 0%nat. split; [lia|].
    split; [done|]. intros i Hi. lia.
Qed.

Lemma solve_loop_first_failure n self sol k :
  (k < n)%nat → converged (step (state_after k self)) = false →
  ∃ e, solve_loop n self sol = Raise e.
Proof.
  intros Hk Hf.
  destruct (solve_loop n self sol) as [r|e] eqn:E; [|by eexists].
  assert (Hok : is_ok (solve_loop n self sol)) by (by rewrite E).
  apply solve_loop_ok_iff with (k := k) in Hok; [congruence | done].
Qed.

(** Each accepted step appends one sample. *)
Lemma solve_loop_length n self sol self' sol' :
  solve_loop n self sol = Ok (self', sol') →
  self' = state_after n self
  ∧ length (sol_q sol') = (length (sol_q sol) + n)%nat
  ∧ length (sol_P_N sol') = (length (sol_P_N sol) + n)%nat.
Proof.
  revert self sol. induction n as [|n IH]; intros self sol; simpl.
  - intros [= <- <-]. repeat split; lia.
  - rewrite solve_body_unfold.
    destruct (converged (step self)); simpl; [|done].
    change (Py.bind ?f (Ok ?x)) with (f x). simpl.
    intros H. apply IH in H as (-> & Hq & HP).
    rewrite <- state_after_S. split; [done|].
    rewrite Hq, HP. simpl. rewrite !length_app. simpl. lia.
Qed.

(** *** The inner loops stop unconverged at the cap *)

Lemma fp_loop_S self a n j s :
  fp_loop spsolve self a (S n) j s
  = if s_converged (fp_prox self a j s) then fp_prox self a j s
    else fp_loop spsolve self a n (S j)
           (fp_resolve spsolve self a (fp_prox self a j s)).
Proof. reflexivity. Qed.

Lemma nw_loop_S self qk1 I_N tk1 n j s :
  nw_loop spsolve numerical_jacobian self qk1 I_N tk1 (S n) j s
  = if n_converged (nw_body spsolve numerical_jacobian self qk1 I_N tk1 j s)
    then nw_body spsolve numerical_jacobian self qk1 I_N tk1 j s
    else nw_loop spsolve numerical_jacobian self qk1 I_N tk1 n (S j)
           (nw_body spsolve numerical_jacobian self qk1 I_N tk1 j s).
Proof. reflexivity. Qed.

Lemma fp_resolve_converged self a s :
  s_converged (fp_resolve spsolve self a s) = s_converged s.
Proof.
  unfold fp_resolve. by destruct (lin_solve _ _ _ _ _) as [[? ?] ?].
Qed.

Lemma fp_init_converged self a :
  s_converged (fp_init spsolve self a) = negb (np_any (a_I_N a)).
Proof.
  unfold fp_init. by destruct (lin_solve _ _ _ _ _) as [[? ?] ?].
Qed.

Lemma step_newton_converged self :
  converged (step_newton spsolve numerical_jacobian self)
  = n_converged
      (if negb (n_converged (nw_init self)) then
         nw_loop spsolve numerical_jacobian self
           (vadd (qk self)
              (vscale (dt self)
                 (q_dot (model self) (tk self) (qk self) (uk self))))
           (le0 (g_N (model self) (tk self + dt self)
                   (vadd (qk self)
                      (vscale (dt self)
                         (q_dot (model self) (tk self) (qk self) (uk self))))))
           (tk self + dt self) (newton_max_iter self) 0 (nw_init self)
       else nw_init self).
Proof. reflexivity. Qed.

Lemma fp_loop_cap self a n j s :
  s_converged s = false →
  (∀ k, (k < n)%nat →
        fix_point_tol self
        <= s_error (fp_prox self a (j + k)
                      (fp_start spsolve self a k j s))) →
  s_converged (fp_loop spsolve self a n j s) = false.
Proof.
  revert j s. induction n as [|n IH]; intros j s Hs H; [done|].
  pose proof (H 0%nat ltac:(lia)) as H0. simpl in H0.
  rewrite ?Nat.add_0_r in H0.
  assert (Hc : s_converged (fp_prox self a j s) = false).
  { unfold fp_prox. simpl. by apply Rltb_nlt. }
  rewrite fp_loop_S, Hc. apply IH.
  - by rewrite fp_resolve_converged.
  - intros k Hk. specialize (H (S k) ltac:(lia)). simpl in H.
    by replace (j + S k)%nat with (S j + k)%nat in H by lia.
Qed.

Lemma fp_loop_converged self a n j s :
  s_converged s = false →
  s_converged (fp_loop spsolve self a n j s) = true →
  ∃ k, (k < n)%nat
       ∧ s_error (fp_prox self a (j + k) (fp_start spsolve self a k j s))
         < fix_point_tol self.
Proof.
  revert j s. induction n as [|n IH]; intros j s Hs H;
    [simpl in H; congruence|].
  rewrite fp_loop_S in H.
  destruct (s_converged (fp_prox self a j s)) eqn:Hc.
  - exists 0%nat. split; [lia|]. simpl. rewrite ?Nat.add_0_r.
    unfold fp_prox in Hc. simpl in Hc. by apply Rltb_lt in Hc.
  - apply IH in H as (k & Hk & He).
    + exists (S k). split; [lia|]. simpl.
      by replace (j + S k)%nat with (S j + k)%nat by lia.
    + by rewrite fp_resolve_converged.
Qed.

Lemma nw_loop_cap self qk1 I_N tk1 n j s :
  n_converged s = false →
  (∀ k, (k < n)%nat →
        newton_tol self
        <= n_error (nw_body spsolve numerical_jacobian self qk1 I_N tk1 (j + k)
                      (nw_start spsolve numerical_jacobian self qk1 I_N tk1
                         k j s))) →
  n_converged (nw_loop spsolve numerical_jacobian self qk1 I_N tk1 n j s)
  = false.
Proof.
  revert j s. induction n as [|n IH]; intros j s Hs H; [done|].
  pose proof (H 0%nat ltac:(lia)) as H0. simpl in H0.
  rewrite ?Nat.add_0_r in H0.
  assert (Hc : n_converged
                 (nw_body spsolve numerical_jacobian self qk1 I_N tk1 j s)
               = false).
  { unfold nw_body. simpl. by apply Rltb_nlt. }
  rewrite nw_loop_S, Hc. apply IH; [done|].
  intros k Hk. specialize (H (S k) ltac:(lia)). simpl in H.
  by replace (j + S k)%nat with (S j + k)%nat in H by lia.
Qed.

(** A pass whose error is below tolerance ends the loop converged. *)
Lemma fp_loop_accepts self a n j s :
  (∃ k, (k < n)%nat
        ∧ s_error (fp_prox self a (j + k) (fp_start spsolve self a k j s))
          < fix_point_tol self) →
  s_converged (fp_loop spsolve self a n j s) = true.
Proof.
  revert j s. induction n as [|n IH]; intros j s (k & Hk & He); [lia|].
  rewrite fp_loop_S.
  destruct (s_converged (fp_prox self a j s)) eqn:Hc; [exact Hc|].
  destruct k as [|k].
  - simpl in He. rewrite ?Nat.add_0_r in He.
    unfold fp_prox in Hc. simpl in Hc. apply Rltb_lt in He. congruence.
  - apply IH. exists k. split; [lia|]. simpl in He.
    by replace (S j + k)%nat with (j + S k)%nat by lia.
Qed.

(** The loop returns the locals of the first pass whose error is below
    tolerance. *)
Lemma fp_loop_first self a n j s k :
  (k < n)%nat →
  (∀ i, (i < k)%nat →
        fix_point_tol self
        <= s_error (fp_prox self a (j + i) (fp_start spsolve self a i j s))) →
  s_error (fp_prox self a (j + k) (fp_start spsolve self a k j s))
  < fix_point_tol self →
  fp_loop spsolve self a n j s
  = fp_prox self a (j + k) (fp_start spsolve self a k j s).
Proof.
  revert j s k. induction n as [|n IH]; intros j s k Hk Hlt He; [lia|].
  rewrite fp_loop_S. destruct k as [|k].
  - cbn [fp_start] in He |- *. rewrite Nat.add_0_r in *.
    assert (Hc : s_converged (fp_prox self a j s) = true).
    { unfold fp_prox in He |- *. cbn [s_error s_converged] in He |- *.
      by apply Rltb_lt. }
    by rewrite Hc.
  - assert (Hc : s_converged (fp_prox self a j s) = false).
    { pose proof (Hlt 0%nat ltac:(lia)) as H0. cbn [fp_start] in H0.
      rewrite Nat.add_0_r in H0.
      unfold fp_prox in H0 |- *. cbn [s_error s_converged] in H0 |- *.
      by apply Rltb_nlt. }
    rewrite Hc. cbn [fp_start].
    replace (j + S k)%nat with (S j + k)%nat by lia.
    apply IH; [lia | | by replace (S j + k)%nat with (j + S k)%nat by lia].
    intros i Hi. specialize (Hlt (S i) ltac:(lia)). cbn [fp_start] in Hlt.
    by replace (S j + i)%nat with (j + S i)%nat by lia.
Qed.

Lemma nw_loop_converged self qk1 I_N tk1 n j s :
  n_converged s = false →
  n_converged (nw_loop spsolve numerical_jacobian self qk1 I_N tk1 n j s)
  = true →
  ∃ k, (k < n)%nat
       ∧ n_error (nw_body spsolve numerical_jacobian self qk1 I_N tk1 (j + k)
                    (nw_start spsolve numerical_jacobian self qk1 I_N tk1
                       k j s))
         < newton_tol self.
Proof.
  revert j s. induction n as [|n IH]; intros j s Hs H;
    [simpl in H; congruence|].
  rewrite nw_loop_S in H.
  destruct (n_converged
              (nw_body spsolve numerical_jacobian self qk1 I_N tk1 j s)) eqn:Hc.
  - exists 0%nat. split; [lia|]. simpl. rewrite ?Nat.add_0_r.
    unfold nw_body in Hc. simpl in Hc. by apply Rltb_lt in Hc.
  - apply IH in H as (k & Hk & He); [|exact Hc].
    exists (S k). split; [lia|]. simpl.
    by replace (j + S k)%nat with (S j + k)%nat by lia.
Qed.

Lemma nw_loop_accepts self qk1 I_N tk1 n j s :
  (∃ k, (k < n)%nat
        ∧ n_error (nw_body spsolve numerical_jacobian self qk1 I_N tk1 (j + k)
                     (nw_start spsolve numerical_jacobian self qk1 I_N tk1
                        k j s))
          < newton_tol self) →
  n_converged (nw_loop spsolve numerical_jacobian self qk1 I_N tk1 n j s)
  = true.
Proof.
  revert j s. induction n as [|n IH]; intros j s (k & Hk & He); [lia|].
  rewrite nw_loop_S.
  destruct (n_converged
              (nw_body spsolve numerical_jacobian self qk1 I_N tk1 j s))
    eqn:Hc; [exact Hc|].
  destruct k as [|k].
  - simpl in He. rewrite ?Nat.add_0_r in He.
    unfold nw_body in Hc. simpl in Hc. apply Rltb_lt in He. congruence.
  - apply IH. exists k. split; [lia|]. simpl in He.
    by replace (S j + k)%nat with (j + S k)%nat by lia.
Qed.

Lemma nw_loop_first self qk1 I_N tk1 n j s k :
  (k < n)%nat →
  (∀ i, (i < k)%nat →
        newton_tol self
        <= n_error (nw_body spsolve numerical_jacobian self qk1 I_N tk1 (j + i)
                      (nw_start spsolve numerical_jacobian self qk1 I_N tk1
                         i j s))) →
  n_error (nw_body spsolve numerical_jacobian self qk1 I_N tk1 (j + k)
             (nw_start spsolve numerical_jacobian self qk1 I_N tk1 k j s))
  < newton_tol self →
  nw_loop spsolve numerical_jacobian self qk1 I_N tk1 n j s
  = nw_body spsolve numerical_jacobian self qk1 I_N tk1 (j + k)
      (nw_start spsolve numerical_jacobian self qk1 I_N tk1 k j s).
Proof.
  revert j s k. induction n as [|n IH]; intros j s k Hk Hlt He; [lia|].
  rewrite nw_loop_S. destruct k as [|k].
  - cbn [nw_start] in He |- *. rewrite Nat.add_0_r in *.
    assert (Hc : n_converged
                   (nw_body spsolve numerical_jacobian self qk1 I_N tk1 j s)
                 = true).
    { unfold nw_body in He |- *. cbn [n_error n_converged] in He |- *.
      by apply Rltb_lt. }
    by rewrite Hc.
  - assert (Hc : n_converged
                   (nw_body spsolve numerical_jacobian self qk1 I_N tk1 j s)
                 = false).
    { pose proof (Hlt 0%nat ltac:(lia)) as H0. cbn [nw_start] in H0.
      rewrite Nat.add_0_r in H0.
      unfold nw_body in H0 |- *. cbn [n_error n_converged] in H0 |- *.
      by apply Rltb_nlt. }
    rewrite Hc. cbn [nw_start].
    replace (j + S k)%nat with (S j + k)%nat by lia.
    apply IH; [lia | | by replace (S j + k)%nat with (j + S k)%nat by lia].
    intros i Hi. specialize (Hlt (S i) ltac:(lia)). cbn [nw_start] in Hlt.
    by replace (S j + i)%nat with (j + S i)%nat by lia.
Qed.

(** What the Newton step returns, in terms of the locals of its loop. *)
Lemma step_newton_result self :
  let s :=
    if negb (n_converged (nw_init self)) then
      nw_loop spsolve numerical_jacobian self
        (vadd (qk self)
           (vscale (dt self)
              (q_dot (model self) (tk self) (qk self) (uk self))))
        (le0 (g_N (model self) (tk self + dt self)
                (vadd (qk self)
                   (vscale (dt self)
                      (q_dot (model self) (tk self) (qk self) (uk self))))))
        (tk self + dt self) (newton_max_iter self) 0 (nw_init self)
    else nw_init self in
  converged (step_newton spsolve numerical_jacobian self) = n_converged s
  ∧ iterations (step_newton spsolve numerical_jacobian self) = n_j s
  ∧ error (step_newton spsolve numerical_jacobian self) = n_error s.
Proof. done. Qed.

(** C6: a step of the fixed-point scheme with an active contact, or of the
    Newton scheme with an initial residual that is not below tolerance, whose
    error stays at or above tolerance in every pass up to the iteration
    cap, returns unconverged; [solve] raises [RuntimeError] at the first
    step that returns unconverged, nothing is retried and no later step is
    taken; and [solve] returns exactly when every step converged, with one
    recorded sample per step. Conversely a step returns converged exactly
    when its inner iteration converged: for the fixed-point scheme when no
    contact is active or some pass within the cap measures an error below
    tolerance, for the Newton scheme when the initial residual or the
    residual of some pass within the cap is below tolerance; the step then
    returns after the first such pass, with its index and its error; and
    the body of the time loop accepts a step exactly when it returned
    converged. *)
Theorem moreau_nonconvergence_is_fatal self :
  (method self = fixed_point →
   np_any (a_I_N (assemble self)) = true →
   (∀ k, (k < fix_point_max_iter self)%nat →
         fix_point_tol self <= fp_error spsolve self k) →
   converged (step self) = false)
  ∧ (method self = newton →
     newton_tol self <= n_error (nw_init self) →
     (∀ k, (k < newton_max_iter self)%nat →
           newton_tol self <= nw_error spsolve numerical_jacobian self k) →
     converged (step self) = false)
  ∧ (∀ sol, converged (step self) = false →
            solve_body self sol = Raise RuntimeError)
  ∧ (∀ n sol k,
       (k < n)%nat →
       converged (step (state_after k self)) = false →
       (∀ i, (i < k)%nat → converged (step (state_after i self)) = true) →
       solve_loop n self sol = Raise RuntimeError)
  ∧ (∀ n sol,
       is_ok (solve_loop n self sol)
       ↔ ∀ k, (k < n)%nat → converged (step (state_after k self)) = true)
  ∧ (∀ self' sol',
       solve self = Ok (self', sol') →
       self' = state_after (length (t self) - 1) self
       ∧ length (sol_q sol') = S (length (t self) - 1))
  ∧ (method self = fixed_point →
     (converged (step self) = true
      ↔ np_any (a_I_N (assemble self)) = false
        ∨ ∃ k, (k < fix_point_max_iter self)%nat
               ∧ fp_error spsolve self k < fix_point_tol self))
  ∧ (method self = newton →
     (converged (step self) = true
      ↔ n_error (nw_init self) < newton_tol self
        ∨ ∃ k, (k < newton_max_iter self)%nat
               ∧ nw_error spsolve numerical_jacobian self k
                 < newton_tol self))
  ∧ (method self = fixed_point →
     np_any (a_I_N (assemble self)) = true →
     ∀ k, (k < fix_point_max_iter self)%nat →
          (∀ i, (i < k)%nat → fix_point_tol self <= fp_error spsolve self i) →
          fp_error spsolve self k < fix_point_tol self →
          converged (step self) = true
          ∧ iterations (step self) = k
          ∧ error (step self) = fp_error spsolve self k)
  ∧ (method self = newton →
     newton_tol self <= n_error (nw_init self) →
     ∀ k, (k < newton_max_iter self)%nat →
          (∀ i, (i < k)%nat →
                newton_tol self
                <= nw_error spsolve numerical_jacobian self i) →
          nw_error spsolve numerical_jacobian self k < newton_tol self →
          converged (step self) = true
          ∧ iterations (step self) = k
          ∧ error (step self) = nw_error spsolve numerical_jacobian self k)
  ∧ (∀ sol, is_ok (solve_body self sol) ↔ converged (step self) = true).
Proof.
  split; [|split; [|split; [|split; [|split; [|split; [|split; [|split;
    [|split; [|split]]]]]]]]].
  - intros Hm Hany Herr.
    unfold Moreau.step, step_fixed_point. rewrite Hm. cbv zeta.
    rewrite Hany. unfold result_of. cbn [converged].
    apply fp_loop_cap.
    + by rewrite fp_init_converged, Hany.
    + intros k Hk. apply (Herr k Hk).
  - intros Hm H0 Herr.
    unfold Moreau.step. rewrite Hm, step_newton_converged.
    assert (Hc : n_converged (nw_init self) = false).
    { unfold nw_init. cbn [n_converged]. apply Rltb_nlt. exact H0. }
    rewrite Hc. cbn [negb].
    apply nw_loop_cap; [exact Hc|].
    intros k Hk. apply (Herr k Hk).
  - intros sol Hc. rewrite solve_body_unfold. by rewrite Hc.
  - intros n sol k Hk Hf Hb.
    destruct (solve_loop_first_failure n self sol k Hk Hf) as [e He].
    rewrite He. f_equal. by apply solve_loop_raise in He as [-> _].
  - intros n sol. apply solve_loop_ok_iff.
  - intros self' sol' H. unfold Moreau.solve in H.
    apply solve_loop_length in H as (-> & Hq & _). split; [done|].
    rewrite Hq. simpl. lia.
  - intros Hm. unfold Moreau.step, step_fixed_point. rewrite Hm. cbv zeta.
    unfold result_of. cbn [converged].
    destruct (np_any (a_I_N (assemble self))) eqn:Hany.
    + split.
      * intros Hc. right.
        apply fp_loop_converged in Hc as (k & Hk & He).
        -- exists k. by split.
        -- by rewrite fp_init_converged, Hany.
      * intros [?|(k & Hk & He)]; [done|].
        apply fp_loop_accepts. exists k. by split.
    + split; [by left|]. intros _. by rewrite fp_init_converged, Hany.
  - intros Hm. unfold Moreau.step. rewrite Hm, step_newton_converged.
    destruct (n_converged (nw_init self)) eqn:Hc0; cbn [negb].
    + rewrite Hc0. split; [|done]. intros _. left.
      unfold nw_init in Hc0. cbn [n_converged] in Hc0.
      by apply Rltb_lt in Hc0.
    + assert (H0 : ¬ n_error (nw_init self) < newton_tol self).
      { unfold nw_init in Hc0 |- *. cbn [n_converged n_error] in Hc0 |- *.
        apply Rltb_nlt in Hc0. lra. }
      split.
      * intros Hc. right.
        apply nw_loop_converged in Hc as (k & Hk & He); [|exact Hc0].
        exists k. by split.
      * intros [?|(k & Hk & He)]; [done|].
        apply nw_loop_accepts. exists k. by split.
  - intros Hm Hany k Hk Hlt He.
    unfold Moreau.step, step_fixed_point. rewrite Hm. cbv zeta.
    rewrite Hany. unfold result_of. cbn [converged iterations error].
    rewrite (fp_loop_first self (assemble self) (fix_point_max_iter self) 0
               (fp_init spsolve self (assemble self)) k Hk Hlt He).
    split; [|split; [|reflexivity]].
    + unfold fp_prox. cbn [s_converged]. apply Rltb_lt. exact He.
    + reflexivity.
  - intros Hm H0 k Hk Hlt He.
    unfold Moreau.step. rewrite Hm.
    destruct (step_newton_result self) as (-> & -> & ->).
    assert (Hc : n_converged (nw_init self) = false).
    { unfold nw_init. cbn [n_converged]. apply Rltb_nlt. exact H0. }
    rewrite Hc. cbn [negb].
    rewrite (nw_loop_first self _ _ _ (newton_max_iter self) 0
               (nw_init self) k Hk Hlt He).
    split; [|split; [|reflexivity]].
    + unfold nw_body. cbn [n_converged]. apply Rltb_lt. exact He.
    + reflexivity.
  - intros sol. rewrite solve_body_unfold.
    destruct (converged (step self)); simpl; split; done.
Qed.

(** *** Prediction, active set and first solve *)

Lemma nth_true_lookup (m : list bool) i :
  nth i m false = true ↔ m !! i = Some true.
Proof.
  rewrite nth_lookup. destruct (m !! i) as [[]|]; simpl; split; congruence.
Qed.

(** [I_T] holds the friction components of the active contacts. *)
Lemma elem_of_active_tangent I_N NT k :
  k ∈ active_tangent I_N NT
  ↔ ∃ i, nth i I_N false = true ∧ k ∈ nth i NT [].
Proof.
  unfold active_tangent. destruct (np_any I_N) eqn:Hany.
  - rewrite elem_of_concat. split.
    + intros (blk & Hk & Hblk).
      apply elem_of_lookup_imap in Hblk as (i & b & -> & Hi).
      destruct b; [|by apply elem_of_nil in Hk].
      exists i. split; [by apply nth_true_lookup | done].
    + intros (i & Hi & Hk). apply nth_true_lookup in Hi.
      exists (nth i NT []). split; [done|].
      apply elem_of_lookup_imap. exists i, true. done.
  - split; [intros H; by apply elem_of_nil in H|].
    intros (i & Hi & _).
    rewrite (proj1 (np_any_false_iff I_N) Hany i) in Hi. discriminate.
Qed.

Lemma lin_solve_unfold self a P_N P_T :
  lin_solve spsolve self a P_N P_T
  = (take (nu (model self)) (spsolve (lin_A self a) (lin_b self a P_N P_T)),
     take (nla_g (model self))
       (drop (nu (model self))
          (spsolve (lin_A self a) (lin_b self a P_N P_T))),
     drop (nu (model self) + nla_g (model self))
       (spsolve (lin_A self a) (lin_b self a P_N P_T))).
Proof. reflexivity. Qed.

Lemma fp_init_velocity self a :
  (s_uk1 (fp_init spsolve self a), s_la_gk1 (fp_init spsolve self a),
   s_la_gammak1 (fp_init spsolve self a))
  = lin_solve spsolve self a (P_Nk self) (P_Tk self).
Proof.
  unfold fp_init. by destruct (lin_solve _ _ _ _ _) as [[? ?] ?].
Qed.

(** Without active contact the step is converged at once. *)
Lemma step_fixed_point_no_contact self :
  np_any (a_I_N (assemble self)) = false →
  converged (step_fixed_point spsolve self) = true.
Proof.
  intros Hany. unfold step_fixed_point. cbv zeta.
  rewrite Hany. unfold result_of. cbn [converged].
  by rewrite fp_init_converged, Hany.
Qed.




End Run.

End MoreauProofs.

(** ** Admissible contact impulses *)

Module MoreauContact.
Import Moreau MoreauSpec MoreauProofs.

Lemma nth_zeros i n : nth i (zeros n) 0 = 0.
Proof.
  unfold zeros. rewrite nth_lookup.
  destruct (replicate n 0 !! i) as [x|] eqn:E; [|done].
  by apply lookup_replicate in E as [-> _].
Qed.

Lemma gather_zeros n idx : gather (zeros n) idx = zeros (length idx).
Proof.
  unfold gather. induction idx as [|i idx IH]; [done|].
  rewrite fmap_cons, IH, nth_zeros. done.
Qed.

Lemma norm_nil : norm [] = 0.
Proof. unfold norm, dot. simpl. apply sqrt_0. Qed.

Lemma Forall_zeros n : Forall (λ x, 0 <= x) (zeros n).
Proof. apply Forall_replicate. lra. Qed.

Lemma nth_nonneg (v : vec) i : Forall (λ x, 0 <= x) v → 0 <= nth i v 0.
Proof.
  intros H. rewrite nth_lookup. destruct (v !! i) as [x|] eqn:E; simpl.
  - by eapply Forall_lookup_1 in H.
  - lra.
Qed.

Lemma gather_ext a b idx :
  (∀ k, k ∈ idx → nth k a 0 = nth k b 0) → gather a idx = gather b idx.
Proof.
  intros H. unfold gather. apply list_fmap_ext. intros i k Hk.
  apply H. eapply list_elem_of_lookup_2; eauto.
Qed.

(** Blocks of a table without repeated entries are disjoint. *)
Lemma concat_NoDup_disjoint (NT : list (list nat)) i j b1 b2 k :
  NoDup (concat NT) → NT !! i = Some b1 → NT !! j = Some b2 →
  k ∈ b1 → k ∈ b2 → i = j.
Proof.
  revert i j. induction NT as [|b NT IH]; intros i j Hnd Hi Hj H1 H2;
    [done|].
  simpl in Hnd. apply NoDup_app in Hnd as (_ & Hdis & Hnd).
  destruct i as [|i], j as [|j]; simpl in *; simplify_eq; try done.
  - exfalso. apply (Hdis k H1). apply elem_of_concat. exists b2.
    split; [done|]. eapply list_elem_of_lookup_2; eauto.
  - exfalso. apply (Hdis k H2). apply elem_of_concat. exists b1.
    split; [done|]. eapply list_elem_of_lookup_2; eauto.
  - f_equal. by apply IH.
Qed.

Lemma concat_NoDup_block (NT : list (list nat)) i b :
  NoDup (concat NT) → NT !! i = Some b → NoDup b.
Proof.
  revert i. induction NT as [|b0 NT IH]; intros i Hnd Hi; [done|].
  simpl in Hnd. apply NoDup_app in Hnd as (Hb & _ & Hnd).
  destruct i as [|i]; simpl in *; simplify_eq; eauto.
Qed.

Lemma elem_of_select {A} (m : list bool) (a : list A) i x :
  m !! i = Some true → a !! i = Some x → x ∈ select m a.
Proof.
  revert a i. induction m as [|b m IH]; intros [|y a] [|i] Hm Ha;
    simpl in *; simplify_eq.
  - by left.
  - destruct b; [right|]; eauto.
Qed.

Lemma fmap_snd_imap_pair {A} (l : list A) : (imap pair l).*2 = l.
Proof.
  apply list_eq. intros i. rewrite list_lookup_fmap, list_lookup_imap.
  by destruct (l !! i).
Qed.

Section Contact.

Variable spsolve : matrix → vec → vec.

(** *** The loop over the contacts *)

Section Friction.

Variables (self : Solver) (a : Assembled) (xi_T P_Tk1_i P_Nk1_i1 : vec).

Local Abbreviation F := (friction_block self a xi_T P_Tk1_i P_Nk1_i1).

Lemma friction_prox_fold acc :
  friction_prox self a xi_T P_Tk1_i P_Nk1_i1 acc
  = foldl F acc (imap pair (NT_connectivity (model self))).
Proof. reflexivity. Qed.

Lemma length_friction_block acc c : length (F acc c) = length acc.
Proof.
  unfold friction_block. destruct (_ && _); [apply length_scatter | done].
Qed.

Lemma length_friction_fold cs acc : length (foldl F acc cs) = length acc.
Proof.
  revert acc. induction cs as [|c cs IH]; intros acc; simpl; [done|].
  by rewrite IH, length_friction_block.
Qed.

Lemma friction_fold_other cs acc blk :
  (∀ k, k ∈ blk → k ∉ concat (cs.*2)) →
  gather (foldl F acc cs) blk = gather acc blk.
Proof.
  revert acc. induction cs as [|c cs IH]; intros acc Hdis; simpl; [done|].
  rewrite IH.
  - unfold friction_block. destruct (_ && _); [|done].
    apply gather_scatter_disjoint. intros k Hk Hc.
    apply (Hdis k Hk). simpl. apply elem_of_app. by left.
  - intros k Hk Hc. apply (Hdis k Hk). simpl. apply elem_of_app. by right.
Qed.

(** After the loop the block of an active contact holds its projection. *)
Lemma friction_fold_block cs acc i blk :
  NoDup (concat (cs.*2)) →
  Forall (Forall (λ k, (k < length acc)%nat)) (cs.*2) →
  (i, blk) ∈ cs → nth i (a_I_N a) false = true → blk ≠ [] →
  gather (foldl F acc cs) blk
  = prox_circle
      (vsub (gather P_Tk1_i blk)
            (vscale (nth i (prox_r_T (model self)) 0) (gather xi_T blk)))
      (nth i (mu (model self)) 0 * nth i P_Nk1_i1 0).
Proof.
  revert acc. induction cs as [|c cs IH]; intros acc Hnd Hr Hin Hact Hne.
  { by apply elem_of_nil in Hin. }
  simpl in Hnd, Hr. apply NoDup_app in Hnd as (Hb & Hdis & Hnd).
  apply Forall_cons in Hr as [Hrc Hr].
  destruct (decide (c = (i, blk))) as [->|Hc].
  - assert (Hlen : (length blk =? 0)%nat = false) by (by destruct blk).
    cbn [foldl]. rewrite friction_fold_other by (intros k Hk; by apply Hdis).
    unfold friction_block. cbn [fst snd]. rewrite Hact, Hlen. cbn [negb andb].
    apply gather_scatter_same; [done | done |].
    rewrite length_prox_circle, length_vsub, length_vscale, !length_gather.
    lia.
  - apply elem_of_cons in Hin as [Heq|Hin]; [congruence|].
    cbn [foldl]. apply IH; try done.
    by rewrite length_friction_block.
Qed.

End Friction.

(** *** One pass of the fixed-point loop *)

Lemma fp_prox_P_N self a j s :
  s_P_Nk1_i1 (fp_prox self a j s) = new_P_N self a s.
Proof. reflexivity. Qed.

Lemma fp_prox_P_T self a j s :
  s_P_Tk1_i1 (fp_prox self a j s) = new_P_T self a s.
Proof. reflexivity. Qed.

Lemma fp_prox_accepted self a j s :
  s_converged (fp_prox self a j s) = true →
  s_P_Nk1 (fp_prox self a j s)
  = mask_assign (a_I_N a) (s_P_Nk1 s) (select (a_I_N a) (new_P_N self a s))
  ∧ s_P_Tk1 (fp_prox self a j s)
    = scatter (s_P_Tk1 s) (a_I_T a) (gather (new_P_T self a s) (a_I_T a)).
Proof.
  intros H. unfold fp_prox in *. cbn [s_converged s_P_Nk1 s_P_Tk1] in *.
  rewrite H. done.
Qed.

Lemma fp_prox_rejected self a j s :
  s_converged (fp_prox self a j s) = false →
  s_P_Nk1 (fp_prox self a j s) = s_P_Nk1 s
  ∧ s_P_Tk1 (fp_prox self a j s) = s_P_Tk1 s.
Proof.
  intros H. unfold fp_prox in *. cbn [s_converged s_P_Nk1 s_P_Tk1] in *.
  rewrite H. done.
Qed.

Lemma length_new_P_N self a s :
  length (new_P_N self a s) = length (s_P_Nk1_i1 s).
Proof. apply length_mask_assign. Qed.

Lemma length_new_P_T self a s :
  length (new_P_T self a s) = length (s_P_Tk1_i1 s).
Proof.
  unfold new_P_T. rewrite friction_prox_fold. apply length_friction_fold.
Qed.

Lemma fp_inv_init self :
  wf_contacts self → fp_inv self (fp_init spsolve self (assemble self)).
Proof.
  intros Hwf. unfold fp_init.
  destruct (lin_solve _ _ _ _ _) as [[? ?] ?].
  split; simpl; try done; apply Hwf.
Qed.

Lemma fp_inv_next self a j s :
  fp_inv self s → s_converged (fp_prox self a j s) = false →
  fp_inv self (fp_resolve spsolve self a (fp_prox self a j s)).
Proof.
  intros [H1 H2 H3 H4 H5] Hc.
  destruct (fp_prox_rejected _ _ _ _ Hc) as [HN HT].
  unfold fp_resolve. destruct (lin_solve _ _ _ _ _) as [[? ?] ?].
  split; cbn [s_P_Nk1 s_P_Tk1 s_P_Nk1_i s_P_Nk1_i1 s_P_Tk1_i1].
  - by rewrite HN.
  - by rewrite HT.
  - by rewrite fp_prox_P_N, length_new_P_N.
  - by rewrite fp_prox_P_N, length_new_P_N.
  - by rewrite fp_prox_P_T, length_new_P_T.
Qed.

(** A loop that ends converged ends in a pass that passed the test. *)
Lemma fp_loop_last_pass self a n j s :
  fp_inv self s → s_converged s = false →
  s_converged (fp_loop spsolve self a n j s) = true →
  ∃ j' s', fp_inv self s'
           ∧ fp_loop spsolve self a n j s = fp_prox self a j' s'
           ∧ s_converged (fp_prox self a j' s') = true.
Proof.
  revert j s. induction n as [|n IH]; intros j s Hinv Hs H;
    [simpl in H; congruence|].
  rewrite fp_loop_S in *.
  destruct (s_converged (fp_prox self a j s)) eqn:Hc.
  - by exists j, s.
  - apply IH in H; [done | by apply fp_inv_next |].
    by rewrite fp_resolve_converged.
Qed.

(** The lengths of the returned impulses, converged or not. *)
Lemma fp_loop_lengths self a n j s :
  length (s_P_Nk1 s) = nla_N (model self) →
  length (s_P_Tk1 s) = nla_T (model self) →
  length (s_P_Nk1 (fp_loop spsolve self a n j s)) = nla_N (model self)
  ∧ length (s_P_Tk1 (fp_loop spsolve self a n j s)) = nla_T (model self).
Proof.
  revert j s. induction n as [|n IH]; intros j s HN HT; [done|].
  rewrite fp_loop_S.
  destruct (s_converged (fp_prox self a j s)) eqn:Hc.
  - destruct (fp_prox_accepted _ _ _ _ Hc) as [-> ->].
    by rewrite length_mask_assign, length_scatter.
  - destruct (fp_prox_rejected _ _ _ _ Hc) as [HN' HT'].
    apply IH; unfold fp_resolve; destruct (lin_solve _ _ _ _ _) as [[? ?] ?];
      cbn [s_P_Nk1 s_P_Tk1]; congruence.
Qed.

(** *** The impulses of an accepted pass *)

Section Accepted.

Variables (self : Solver) (s : FpState).
Hypothesis Hwf : wf_contacts self.
Hypothesis Hinv : fp_inv self s.

Local Abbreviation a := (assemble self).
Local Abbreviation m := (model self).
Local Abbreviation P_N :=
  (mask_assign (a_I_N a) (zeros (nla_N m)) (select (a_I_N a) (new_P_N self a s))).
Local Abbreviation P_T :=
  (scatter (zeros (nla_T m)) (a_I_T a) (gather (new_P_T self a s) (a_I_T a))).

Lemma length_I_N : length (a_I_N a) = nla_N m.
Proof. unfold assemble. cbn [a_I_N]. rewrite length_le0. apply Hwf. Qed.

Lemma select_new_P_N :
  select (a_I_N a) (new_P_N self a s) = prox_Rn0 (normal_arg self a s).
Proof.
  unfold new_P_N. destruct Hinv, Hwf.
  apply select_mask_assign; [by rewrite length_I_N|].
  rewrite length_prox_Rn0. unfold normal_arg.
  rewrite length_vsub, length_vmul.
  rewrite (length_select _ (prox_r_N m) (s_P_Nk1_i s)) by congruence.
  rewrite (length_select _ (xi_N m _ _ _ _) (s_P_Nk1_i s)) by congruence.
  rewrite (length_select _ (s_P_Nk1_i1 s) (s_P_Nk1_i s)) by congruence.
  lia.
Qed.

Lemma P_N_nonneg : Forall (λ x, 0 <= x) P_N.
Proof.
  apply Forall_mask_assign; [apply Forall_zeros|].
  rewrite select_new_P_N. apply prox_Rn0_nonneg.
Qed.

Lemma nth_P_N i :
  nth i P_N 0 = if nth i (a_I_N a) false then nth i (new_P_N self a s) 0 else 0.
Proof.
  rewrite nth_mask_assign_select.
  - by rewrite nth_zeros.
  - by rewrite length_I_N, length_zeros.
  - rewrite length_zeros, length_new_P_N. by destruct Hinv.
Qed.

Lemma I_T_range : Forall (λ k, (k < nla_T m)%nat) (a_I_T a).
Proof.
  apply Forall_forall. intros k Hk.
  unfold assemble in Hk. cbn [a_I_T] in Hk.
  apply elem_of_active_tangent in Hk as (i & _ & Hk).
  destruct (NT_connectivity m !! i) as [blk|] eqn:E.
  - rewrite (nth_lookup_Some _ _ _ _ E) in Hk.
    pose proof (wf_NT_range _ Hwf) as Hr.
    eapply Forall_lookup_1 in Hr; [|exact E].
    by eapply Forall_forall in Hr.
  - rewrite nth_lookup, E in Hk. by apply elem_of_nil in Hk.
Qed.

Lemma nth_P_T k :
  nth k P_T 0 = if decide (k ∈ a_I_T a) then nth k (new_P_T self a s) 0 else 0.
Proof.
  rewrite nth_scatter_gather.
  - by rewrite nth_zeros.
  - rewrite length_zeros. apply I_T_range.
Qed.

Lemma P_T_active i blk :
  NT_connectivity m !! i = Some blk → nth i (a_I_N a) false = true →
  gather P_T blk = gather (new_P_T self a s) blk.
Proof.
  intros Hb Hact. apply gather_ext. intros k Hk.
  rewrite nth_P_T, decide_True; [done|].
  unfold assemble. cbn [a_I_T]. apply elem_of_active_tangent.
  exists i. split; [exact Hact|]. by rewrite (nth_lookup_Some _ _ _ _ Hb).
Qed.

Lemma P_T_inactive i blk :
  NT_connectivity m !! i = Some blk → nth i (a_I_N a) false = false →
  gather P_T blk = zeros (length blk).
Proof.
  intros Hb Hina. rewrite <- (gather_zeros (nla_T m)).
  apply gather_ext. intros k Hk.
  rewrite nth_P_T, nth_zeros, decide_False; [done|].
  unfold assemble. cbn [a_I_T]. intros Hin.
  apply elem_of_active_tangent in Hin as (i' & Hact & Hk').
  destruct (NT_connectivity m !! i') as [blk'|] eqn:E.
  - rewrite (nth_lookup_Some _ _ _ _ E) in Hk'.
    assert (i = i').
    { eapply concat_NoDup_disjoint; eauto. apply Hwf. }
    subst i'. change (nth i (a_I_N a) false = true) in Hact. congruence.
  - rewrite nth_lookup, E in Hk'. by apply elem_of_nil in Hk'.
Qed.

Lemma new_P_T_block i blk :
  NT_connectivity m !! i = Some blk → nth i (a_I_N a) false = true →
  blk ≠ [] →
  gather (new_P_T self a s) blk
  = prox_circle
      (vsub (gather (s_P_Tk1_i s) blk)
            (vscale (nth i (prox_r_T m) 0)
               (gather (xi_T m (a_tk1 a) (a_qk1 a) (uk self) (s_uk1 s)) blk)))
      (nth i (mu m) 0 * nth i (new_P_N self a s) 0).
Proof.
  intros Hb Hact Hne. unfold new_P_T. rewrite friction_prox_fold.
  apply friction_fold_block; try done.
  - rewrite fmap_snd_imap_pair. apply Hwf.
  - rewrite fmap_snd_imap_pair. destruct Hinv as [_ _ _ _ ->]. apply Hwf.
  - by apply (elem_of_lookup_imap_2 pair).
Qed.

Lemma accepted_admissible : admissible m P_N P_T.
Proof.
  split; [apply P_N_nonneg|].
  intros i blk Hb.
  assert (Hmu : 0 <= nth i (mu m) 0) by (apply nth_nonneg, Hwf).
  pose proof (nth_nonneg _ i P_N_nonneg) as HPi.
  destruct (nth i (a_I_N a) false) eqn:Hact.
  - rewrite (P_T_active i blk Hb Hact).
    destruct blk as [|k0 blk].
    + change (gather _ []) with (@nil R). rewrite norm_nil. nra.
    + rewrite (new_P_T_block i (k0 :: blk) Hb Hact) by done.
      rewrite nth_P_N, Hact in *.
      apply prox_circle_norm. nra.
  - rewrite (P_T_inactive i blk Hb Hact), norm_zeros. nra.
Qed.

End Accepted.

Lemma select_none {A} (m : list bool) (v : list A) :
  np_any m = false → select m v = [].
Proof.
  unfold np_any. revert v. induction m as [|b m IH]; intros [|x v] H;
    simpl in *; try done.
  apply orb_false_iff in H as [-> H]. by apply IH.
Qed.

Lemma step_fixed_point_lengths self :
  length (r_P_Nk1 (step_fixed_point spsolve self)) = nla_N (model self)
  ∧ length (r_P_Tk1 (step_fixed_point spsolve self)) = nla_T (model self).
Proof.
  unfold step_fixed_point. cbv zeta. unfold result_of.
  cbn [r_P_Nk1 r_P_Tk1].
  assert (H0 : length (s_P_Nk1 (fp_init spsolve self (assemble self)))
               = nla_N (model self)
               ∧ length (s_P_Tk1 (fp_init spsolve self (assemble self)))
                 = nla_T (model self)).
  { unfold fp_init. destruct (lin_solve _ _ _ _ _) as [[? ?] ?].
    cbn [s_P_Nk1 s_P_Tk1]. by rewrite !length_zeros. }
  destruct H0 as [HN HT].
  destruct (np_any _); [by apply fp_loop_lengths | done].
Qed.

(** The two ways in which a step is accepted: the last pass of the loop
    passed the test, or no contact is active and the impulses are zero. *)
Lemma accepted_step_cases self :
  wf_contacts self →
  converged (step_fixed_point spsolve self) = true →
  (np_any (a_I_N (assemble self)) = true
   ∧ ∃ s, fp_inv self s
          ∧ r_P_Nk1 (step_fixed_point spsolve self)
            = mask_assign (a_I_N (assemble self)) (zeros (nla_N (model self)))
                (select (a_I_N (assemble self))
                   (new_P_N self (assemble self) s))
          ∧ r_P_Tk1 (step_fixed_point spsolve self)
            = scatter (zeros (nla_T (model self))) (a_I_T (assemble self))
                (gather (new_P_T self (assemble self) s)
                   (a_I_T (assemble self))))
  ∨ (np_any (a_I_N (assemble self)) = false
     ∧ r_P_Nk1 (step_fixed_point spsolve self) = zeros (nla_N (model self))
     ∧ r_P_Tk1 (step_fixed_point spsolve self) = zeros (nla_T (model self))).
Proof.
  intros Hwf Hc.
  unfold step_fixed_point in *. cbv zeta in *. unfold result_of in *.
  cbn [converged r_P_Nk1 r_P_Tk1] in *.
  pose proof (fp_inv_init self Hwf) as Hinv0.
  destruct (np_any (a_I_N (assemble self))) eqn:Hany.
  - left. split; [done|].
    destruct (fp_loop_last_pass self (assemble self)
                (fix_point_max_iter self) 0 _ Hinv0) as
      (j & s & Hinv & -> & Hcj); [by rewrite fp_init_converged, Hany | done |].
    destruct (fp_prox_accepted _ _ _ _ Hcj) as [-> ->].
    rewrite (inv_P_Nk1 _ _ Hinv), (inv_P_Tk1 _ _ Hinv). by exists s.
  - right. split; [done|]. split; apply Hinv0.
Qed.

Lemma zero_impulses_admissible m n1 n2 : admissible m (zeros n1) (zeros n2).
Proof.
  split; [apply Forall_zeros|]. intros i blk _.
  rewrite gather_zeros, norm_zeros, nth_zeros. lra.
Qed.

(** C5: when a step of the fixed-point scheme is accepted, the returned
    impulses are admissible: every normal impulse is non-negative, inactive
    components are exactly zero and the active ones are the image of
    [prox_Rn0]; the friction block of every contact has norm at most [mu]
    times the normal impulse of that contact, the block of an active
    contact being the image of [prox_circle] with radius [mu * P_N] and the
    block of an inactive contact being zero. *)
Theorem moreau_impulses_admissible self :
  wf_contacts self →
  converged (step_fixed_point spsolve self) = true →
  let m := model self in
  let I_N := a_I_N (assemble self) in
  let P_N := r_P_Nk1 (step_fixed_point spsolve self) in
  let P_T := r_P_Tk1 (step_fixed_point spsolve self) in
  admissible m P_N P_T
  ∧ (∀ i, nth i I_N false = false → nth i P_N 0 = 0)
  ∧ (∃ z, select I_N P_N = prox_Rn0 z)
  ∧ (∀ i blk,
       NT_connectivity m !! i = Some blk → nth i I_N false = true →
       blk ≠ [] →
       ∃ z, gather P_T blk
            = prox_circle z (nth i (mu m) 0 * nth i P_N 0))
  ∧ (∀ i blk,
       NT_connectivity m !! i = Some blk → nth i I_N false = false →
       gather P_T blk = zeros (length blk)).
Proof.
  intros Hwf Hc m I_N P_N P_T. subst m I_N P_N P_T.
  destruct (accepted_step_cases self Hwf Hc)
    as [(Hany & s & Hinv & -> & ->) | (Hany & -> & ->)].
  - split; [by apply accepted_admissible|].
    split.
    { intros i Hi. by rewrite (nth_P_N self s Hwf Hinv), Hi. }
    split.
    { exists (normal_arg self (assemble self) s).
      rewrite select_mask_assign.
      - by apply select_new_P_N.
      - by rewrite length_I_N, length_zeros.
      - apply length_select.
        rewrite length_new_P_N, length_zeros. by destruct Hinv. }
    split.
    { intros i blk Hb Hact Hne. eexists.
      rewrite (P_T_active self s Hwf i blk Hb Hact).
      rewrite (new_P_T_block self s Hwf Hinv i blk Hb Hact Hne).
      by rewrite (nth_P_N self s Hwf Hinv), Hact. }
    intros i blk Hb Hina. by apply (P_T_inactive self s Hwf i blk).
  - split; [apply zero_impulses_admissible|].
    split; [intros i _; apply nth_zeros|].
    split; [exists []; by apply select_none|].
    split.
    { intros i blk _ Hact.
      by rewrite (proj1 (np_any_false_iff _) Hany i) in Hact. }
    intros i blk _ _. apply gather_zeros.
Qed.

(** *** Every accepted step of a run *)

Variable numerical_jacobian : (R → vec → vec) → R → vec → matrix.

Local Abbreviation step := (step spsolve numerical_jacobian).
Local Abbreviation solve_loop := (solve_loop spsolve numerical_jacobian).
Local Abbreviation advance := (advance spsolve numerical_jacobian).
Local Abbreviation state_after := (state_after spsolve numerical_jacobian).

Lemma advance_fields self :
  model (advance self) = model self
  ∧ method (advance self) = method self
  ∧ dt (advance self) = dt self
  ∧ tk (advance self) = r_tk1 (step self)
  ∧ (qk (advance self), uk (advance self))
    = step_callback (model self) (r_tk1 (step self)) (r_qk1 (step self))
        (r_uk1 (step self))
  ∧ P_Nk (advance self) = r_P_Nk1 (step self)
  ∧ P_Tk (advance self) = r_P_Tk1 (step self).
Proof.
  unfold MoreauSpec.advance. by destruct (step_callback _ _ _ _).
Qed.

Lemma wf_contacts_advance self :
  method self = fixed_point → wf_contacts self → wf_contacts (advance self).
Proof.
  intros Hm Hwf.
  destruct (advance_fields self) as (Hmod & _ & _ & _ & _ & HN & HT).
  destruct (step_fixed_point_lengths self) as [HlN HlT].
  unfold Moreau.step in HN, HT. rewrite Hm in HN, HT.
  destruct Hwf. split; rewrite ?Hmod, ?HN, ?HT; done.
Qed.

Lemma wf_contacts_state_after k self :
  method self = fixed_point → wf_contacts self →
  method (state_after k self) = fixed_point
  ∧ model (state_after k self) = model self
  ∧ wf_contacts (state_after k self).
Proof.
  intros Hm Hwf. induction k as [|k IH]; [done|].
  destruct IH as (IHm & IHmod & IHwf).
  change (state_after (S k) self) with (advance (state_after k self)).
  destruct (advance_fields (state_after k self)) as (Hmod & Hmeth & _).
  split; [congruence|]. split; [congruence|].
  by apply wf_contacts_advance.
Qed.

(** The samples a run records are the states of the object after each
    accepted step. *)
Lemma solve_loop_samples n self sol self' sol' :
  solve_loop n self sol = Ok (self', sol') →
  sol_q sol' = sol_q sol ++ ((λ k, qk (state_after (S k) self)) <$> seq 0 n)
  ∧ sol_u sol' = sol_u sol ++ ((λ k, uk (state_after (S k) self)) <$> seq 0 n)
  ∧ sol_P_N sol'
    = sol_P_N sol ++ ((λ k, P_Nk (state_after (S k) self)) <$> seq 0 n)
  ∧ sol_P_T sol'
    = sol_P_T sol ++ ((λ k, P_Tk (state_after (S k) self)) <$> seq 0 n).
Proof.
  revert self sol. induction n as [|n IH]; intros self sol.
  - intros [= <- <-]. simpl. by rewrite !app_nil_r.
  - cbn [Moreau.solve_loop]. rewrite solve_body_unfold.
    destruct (converged (step self)); [|done].
    change (Py.bind ?f (Ok ?x)) with (f x). cbv beta iota.
    intros H. apply IH in H as (Hq & Hu & HN & HT).
    rewrite Hq, Hu, HN, HT. cbn [record_step sol_q sol_u sol_P_N sol_P_T].
    rewrite <- !app_assoc. cbn [seq fmap list_fmap].
    rewrite <- !(fmap_S_seq 0), <- !list_fmap_compose.
    repeat split; apply (f_equal2 app); try reflexivity;
      (apply (f_equal2 cons); [reflexivity|]);
      apply list_fmap_ext; intros i k _; unfold compose;
      by rewrite (state_after_S spsolve numerical_jacobian (S k)).
Qed.

(** In a run of the fixed-point scheme that returns, the impulses recorded
    for every step are admissible. *)
Lemma moreau_run_admissible n self sol self' sol' :
  method self = fixed_point → wf_contacts self →
  solve_loop n self sol = Ok (self', sol') →
  ∀ k, (k < n)%nat →
    ∃ P_N P_T,
      sol_P_N sol' !! (length (sol_P_N sol) + k)%nat = Some P_N
      ∧ sol_P_T sol' !! (length (sol_P_T sol) + k)%nat = Some P_T
      ∧ admissible (model self) P_N P_T.
Proof.
  intros Hm Hwf Hrun k Hk.
  destruct (solve_loop_samples _ _ _ _ _ Hrun) as (_ & _ & HN & HT).
  exists (P_Nk (state_after (S k) self)), (P_Tk (state_after (S k) self)).
  rewrite HN, HT.
  rewrite !lookup_app_r by lia.
  replace (length (sol_P_N sol) + k - length (sol_P_N sol))%nat with k by lia.
  replace (length (sol_P_T sol) + k - length (sol_P_T sol))%nat with k by lia.
  rewrite !list_lookup_fmap, !lookup_seq_lt by done. simpl.
  split; [done|]. split; [done|].
  destruct (wf_contacts_state_after k self Hm Hwf) as (Hmk & Hmodk & Hwfk).
  change (state_after (S k) self) with (advance (state_after k self)).
  destruct (advance_fields (state_after k self))
    as (_ & _ & _ & _ & _ & -> & ->).
  assert (Hok : is_ok (solve_loop n self sol)) by (by rewrite Hrun).
  pose proof (proj1 (solve_loop_ok_iff spsolve numerical_jacobian n self sol)
                Hok k Hk) as Hc.
  unfold Moreau.step in *. rewrite Hmk in *. rewrite <- Hmodk.
  destruct (accepted_step_cases _ Hwfk Hc)
    as [(_ & s & Hinv & -> & ->) | (_ & -> & ->)].
  - by apply accepted_admissible.
  - apply zero_impulses_admissible.
Qed.

End Contact.

(** *** The point mass resting on the plane *)

Ltac r_max :=
  repeat match goal with
         | |- context [Rmax ?x ?y] =>
             first [ rewrite (Rmax_left x y) by lra
                   | rewrite (Rmax_right x y) by lra ]
         end.

Ltac np_unfold :=
  unfold matvec, bmat, bmat_row, hstack, dot, vadd, vsub, vmul, vneg, vscale,
    cols_mask, cols_idx, gather, scatter, mscale, prox_Rn0, prox_circle,
    max_abs, le0, active_tangent, zeros.

Ltac m_eval :=
  repeat (progress (simpl; BaseProofs.r_abs; r_max; BaseProofs.r_cmp)).

Lemma resting_mass_wf : wf_contacts (point_mass_solver 0 0 10 5).
Proof.
  split; cbn; try done.
  - apply Forall_cons. split; [lra | constructor].
  - repeat constructor.
  - constructor.
Qed.

Lemma resting_mass_assemble :
  a_I_N (assemble (point_mass_solver 0 0 10 5)) = [true]
  ∧ a_I_T (assemble (point_mass_solver 0 0 10 5)) = [].
Proof.
  unfold assemble, active_tangent, le0. m_eval. done.
Qed.

Lemma resting_mass_assembled :
  assemble (point_mass_solver 0 0 10 5) = point_mass_assembled.
Proof.
  unfold assemble, point_mass_assembled. simpl. unfold le0, active_tangent. m_eval.
  replace (0 + 1 / 10) with (1 / 10) by lra.
  replace (0 + 1 / 10 * 0) with 0 by lra. reflexivity.
Qed.

Lemma resting_mass_first_solve :
  fp_init solve_1x1 (point_mass_solver 0 0 10 5) point_mass_assembled
  = {| s_uk1 := [0]; s_la_gk1 := []; s_la_gammak1 := [];
       s_P_Nk1 := [0]; s_P_Tk1 := [];
       s_P_Nk1_i := [1]; s_P_Nk1_i1 := [1];
       s_P_Tk1_i := []; s_P_Tk1_i1 := [];
       s_converged := false; s_error := 0; s_j := 0 |}.
Proof.
  unfold fp_init, lin_solve, lin_A, lin_b, solve_1x1, point_mass_assembled. simpl.
  np_unfold. m_eval.
  replace ((1 * 0 + 0 + 1 / 10 * -10 + (1 * (1 / 10 * 10) + 0) + 0) / 1)
    with 0 by lra.
  replace (1 / 10 * 10) with 1 by lra. reflexivity.
Qed.

Lemma resting_mass_first_pass :
  fp_prox (point_mass_solver 0 0 10 5) point_mass_assembled 0 resting_start
  = {| s_uk1 := [0]; s_la_gk1 := []; s_la_gammak1 := [];
       s_P_Nk1 := [1]; s_P_Tk1 := [];
       s_P_Nk1_i := [1]; s_P_Nk1_i1 := [1];
       s_P_Tk1_i := []; s_P_Tk1_i1 := [];
       s_converged := true; s_error := 0; s_j := 0 |}.
Proof.
  unfold fp_prox, friction_prox, point_mass_assembled, resting_start. simpl.
  np_unfold. m_eval.
  replace (1 - 1 / 2 * 0 - 1) with 0 by lra.
  replace (1 - 1 / 2 * 0) with 1 by lra. reflexivity.
Qed.

Lemma resting_mass_step :
  step_fixed_point solve_1x1 (point_mass_solver 0 0 10 5)
  = {| converged := true; iterations := 0; error := 0;
       r_tk1 := 1 / 10; r_qk1 := [0]; r_uk1 := [0];
       r_la_gk1 := []; r_la_gammak1 := [];
       r_P_Nk1 := [1]; r_P_Tk1 := [] |}.
Proof.
  unfold step_fixed_point. rewrite resting_mass_assembled.
  rewrite resting_mass_first_solve. cbv zeta.
  change (np_any (a_I_N point_mass_assembled)) with true. cbv iota.
  change (fix_point_max_iter (point_mass_solver 0 0 10 5)) with 5%nat.
  rewrite fp_loop_S. fold resting_start. rewrite resting_mass_first_pass.
  reflexivity.
Qed.

(** The theorem at the resting point mass: the step is accepted with the
    impulse [1], the weight times the step size. *)
Lemma moreau_impulses_admissible_witness :
  wf_contacts (point_mass_solver 0 0 10 5)
  ∧ converged (step_fixed_point solve_1x1 (point_mass_solver 0 0 10 5)) = true
  ∧ admissible (point_mass 0 0 10) [1] [].
Proof.
  assert (Hc : converged
                 (step_fixed_point solve_1x1 (point_mass_solver 0 0 10 5))
               = true) by (by rewrite resting_mass_step).
  split; [exact resting_mass_wf|]. split; [exact Hc|].
  pose proof (moreau_impulses_admissible solve_1x1
                (point_mass_solver 0 0 10 5) resting_mass_wf Hc) as H.
  cbv zeta in H. rewrite resting_mass_step in H. exact (proj1 H).
Defined.


(** *** The point mass without initial contact force: the cap is reached *)

Lemma pushed_mass_assembled :
  assemble (point_mass_solver 0 0 0 2) = point_mass_assembled.
Proof.
  unfold assemble, point_mass_assembled. simpl. unfold le0, active_tangent. m_eval.
  replace (0 + 1 / 10) with (1 / 10) by lra.
  replace (0 + 1 / 10 * 0) with 0 by lra. reflexivity.
Qed.

Lemma pushed_mass_first_solve :
  fp_init solve_1x1 (point_mass_solver 0 0 0 2) point_mass_assembled
  = {| s_uk1 := [-1]; s_la_gk1 := []; s_la_gammak1 := [];
       s_P_Nk1 := [0]; s_P_Tk1 := [];
       s_P_Nk1_i := [0]; s_P_Nk1_i1 := [0];
       s_P_Tk1_i := []; s_P_Tk1_i1 := [];
       s_converged := false; s_error := 0; s_j := 0 |}.
Proof.
  unfold fp_init, lin_solve, lin_A, lin_b, solve_1x1, point_mass_assembled. simpl.
  np_unfold. m_eval.
  replace ((1 * 0 + 0 + 1 / 10 * -10 + (1 * (1 / 10 * 0) + 0) + 0) / 1)
    with (-1) by lra.
  replace (1 / 10 * 0) with 0 by lra. reflexivity.
Qed.

Lemma pushed_mass_pass_0 :
  fp_resolve solve_1x1 (point_mass_solver 0 0 0 2) point_mass_assembled
    (fp_prox (point_mass_solver 0 0 0 2) point_mass_assembled 0
       {| s_uk1 := [-1]; s_la_gk1 := []; s_la_gammak1 := [];
          s_P_Nk1 := [0]; s_P_Tk1 := [];
          s_P_Nk1_i := [0]; s_P_Nk1_i1 := [0];
          s_P_Tk1_i := []; s_P_Tk1_i1 := [];
          s_converged := false; s_error := 0; s_j := 0 |})
  = {| s_uk1 := [-1 / 2]; s_la_gk1 := []; s_la_gammak1 := [];
       s_P_Nk1 := [0]; s_P_Tk1 := [];
       s_P_Nk1_i := [1 / 2]; s_P_Nk1_i1 := [1 / 2];
       s_P_Tk1_i := []; s_P_Tk1_i1 := [];
       s_converged := false; s_error := 1 / 2; s_j := 0 |}.
Proof.
  unfold fp_resolve, fp_prox, friction_prox, lin_solve, lin_A, lin_b,
    solve_1x1, point_mass_assembled. simpl.
  np_unfold. m_eval.
  replace ((1 * 0 + 0 + 1 / 10 * -10 + (1 * (0 - 1 / 2 * -1) + 0) + 0) / 1)
    with (-1 / 2) by lra.
  replace (0 - 1 / 2 * -1 - 0) with (1 / 2) by lra.
  replace (0 - 1 / 2 * -1) with (1 / 2) by lra. reflexivity.
Qed.

Lemma pushed_mass_pass_1 :
  s_converged
    (fp_prox (point_mass_solver 0 0 0 2) point_mass_assembled 1
       {| s_uk1 := [-1 / 2]; s_la_gk1 := []; s_la_gammak1 := [];
          s_P_Nk1 := [0]; s_P_Tk1 := [];
          s_P_Nk1_i := [1 / 2]; s_P_Nk1_i1 := [1 / 2];
          s_P_Tk1_i := []; s_P_Tk1_i1 := [];
          s_converged := false; s_error := 1 / 2; s_j := 0 |})
  = false.
Proof.
  unfold fp_prox, friction_prox, point_mass_assembled. simpl. np_unfold. m_eval. reflexivity.
Qed.

Lemma pushed_mass_step :
  converged (step_fixed_point solve_1x1 (point_mass_solver 0 0 0 2)) = false.
Proof.
  unfold step_fixed_point. rewrite pushed_mass_assembled.
  rewrite pushed_mass_first_solve. cbv zeta.
  change (np_any (a_I_N point_mass_assembled)) with true. cbv iota.
  change (fix_point_max_iter (point_mass_solver 0 0 0 2)) with 2%nat.
  unfold result_of. cbn [converged].
  rewrite fp_loop_S.
  replace (s_converged (fp_prox (point_mass_solver 0 0 0 2) point_mass_assembled 0 _))
    with false.
  2:{ unfold fp_prox, friction_prox, point_mass_assembled. simpl. np_unfold. m_eval.
      reflexivity. }
  rewrite pushed_mass_pass_0, fp_loop_S, pushed_mass_pass_1.
  cbn [fp_loop]. rewrite fp_resolve_converged. apply pushed_mass_pass_1.
Qed.

(** The theorem at a run whose first step reaches the cap of two passes:
    the run raises. *)
Lemma moreau_nonconvergence_is_fatal_witness :
  solve solve_1x1 no_jacobian (point_mass_solver 0 0 0 2)
  = Raise RuntimeError.
Proof.
  unfold solve. change (length (t (point_mass_solver 0 0 0 2)) - 1)%nat
    with 2%nat.
  destruct (moreau_nonconvergence_is_fatal solve_1x1 no_jacobian
              (point_mass_solver 0 0 0 2)) as (_ & _ & _ & H & _).
  apply (H 2%nat _ 0%nat); [lia | exact pushed_mass_step |].
  intros i Hi. lia.
Defined.

End MoreauContact.

(** ** The rod: reference strains *)

Module RodStrains.
Import Rod RodSpec.

Lemma nth_fmap_seq {A} (f : nat → A) n i d :
  (i < n)%nat → nth i (f <$> seq 0 n) d = f i.
Proof.
  intros H. rewrite nth_lookup, list_lookup_fmap, lookup_seq_lt by done.
  done.
Qed.

Section Strains.

Variable _eval : vec → R → vec * list vec * vec * vec.
Variable element_number : R → nat.

(** What [set_reference_strains] caches at a quadrature point. *)
Lemma cached_reference_strains self Q el i :
  (el < nelement self)%nat → (i < nquadrature self)%nat →
  let self' := set_reference_strains _eval self Q in
  let qpi := nth i (nth el (qp self) []) 0 in
  let K_Gamma_bar := (_eval (gather Q (nth el (elDOF self) [])) qpi).1.2 in
  let K_Kappa_bar := (_eval (gather Q (nth el (elDOF self) [])) qpi).2 in
  nth i (nth el (J self') []) 0 = norm K_Gamma_bar
  ∧ nth i (nth el (K_Gamma0 self') []) [] = vdiv K_Gamma_bar (norm K_Gamma_bar)
  ∧ nth i (nth el (K_Kappa0 self') []) [] = vdiv K_Kappa_bar (norm K_Gamma_bar).
Proof.
  intros Hel Hi. cbv zeta. unfold set_reference_strains.
  cbn [J K_Gamma0 K_Kappa0].
  rewrite !(nth_fmap_seq _ (nelement self)) by done.
  rewrite !(nth_fmap_seq _ (nquadrature self)) by done.
  by destruct (_eval _ _) as [[[? ?] ?] ?].
Qed.


End Strains.



End RodStrains.

(** ** The rod: normalisation of the quaternions after a step *)

Module RodCallback.
Import Rod RodSpec MoreauProofs MoreauContact.

Lemma foldl_fmap {A B C} (f : A → B → A) (g : C → B) (a : A) (l : list C) :
  foldl f a (g <$> l) = foldl (λ a x, f a (g x)) a l.
Proof. revert a. induction l as [|x l IH]; intros a; simpl; [done|]. apply IH. Qed.

Lemma fmap_nth_seq {A} (l : list A) d :
  (λ i, nth i l d) <$> seq 0 (length l) = l.
Proof.
  apply list_eq. intros i. rewrite list_lookup_fmap.
  destruct (decide (i < length l)%nat) as [Hlt|Hge].
  - rewrite lookup_seq_lt by done. simpl.
    destruct (lookup_lt_is_Some_2 l i Hlt) as [x Hx].
    by rewrite Hx, (nth_lookup_Some _ _ _ _ Hx).
  - rewrite lookup_seq_ge by lia. simpl. symmetry.
    apply lookup_ge_None. lia.
Qed.

Lemma step_callback_fold self t q u :
  length (nodalDOF_p self) = nnodes_p self →
  step_callback self t q u = (foldl normalize_block q (nodalDOF_p self), u).
Proof.
  intros Hlen. unfold step_callback. f_equal.
  change (foldl (λ q node, normalize_block q (nth node (nodalDOF_p self) []))
            q (seq 0 (nnodes_p self))
          = foldl normalize_block q (nodalDOF_p self)).
  rewrite <- (foldl_fmap normalize_block (λ i, nth i (nodalDOF_p self) [])).
  by rewrite <- Hlen, fmap_nth_seq.
Qed.

Lemma length_normalize_fold bs q :
  length (foldl normalize_block q bs) = length q.
Proof.
  revert q. induction bs as [|b bs IH]; intros q; simpl; [done|].
  rewrite IH. apply length_scatter.
Qed.

Lemma normalize_fold_other bs q blk :
  (∀ k, k ∈ blk → k ∉ concat bs) →
  gather (foldl normalize_block q bs) blk = gather q blk.
Proof.
  revert q. induction bs as [|b bs IH]; intros q Hdis; simpl; [done|].
  rewrite IH.
  - apply gather_scatter_disjoint. intros k Hk Hb.
    apply (Hdis k Hk). simpl. apply elem_of_app. by left.
  - intros k Hk Hc. apply (Hdis k Hk). simpl. apply elem_of_app. by right.
Qed.

Lemma nth_normalize_fold_other bs q k :
  k ∉ concat bs → nth k (foldl normalize_block q bs) 0 = nth k q 0.
Proof.
  revert q. induction bs as [|b bs IH]; intros q Hk; simpl in *; [done|].
  rewrite elem_of_app in Hk. rewrite IH by tauto.
  apply nth_scatter_notin. tauto.
Qed.

(** After the loop every block holds its own normalisation. *)
Lemma normalize_fold_block bs q blk :
  NoDup (concat bs) → Forall (Forall (λ k, (k < length q)%nat)) bs →
  blk ∈ bs →
  gather (foldl normalize_block q bs) blk
  = vdiv (gather q blk) (norm (gather q blk)).
Proof.
  revert q. induction bs as [|b bs IH]; intros q Hnd Hr Hin.
  { by apply elem_of_nil in Hin. }
  simpl in Hnd. apply NoDup_app in Hnd as (Hb & Hdis & Hnd).
  apply Forall_cons in Hr as [Hrb Hr].
  destruct (decide (blk = b)) as [->|Hne].
  - cbn [foldl]. rewrite normalize_fold_other by done.
    unfold normalize_block.
    apply gather_scatter_same; [done | done |].
    by rewrite length_vdiv, length_gather.
  - apply elem_of_cons in Hin as [?|Hin]; [done|].
    cbn [foldl].
    assert (Hg : gather (normalize_block q b) blk = gather q blk).
    { apply gather_scatter_disjoint. intros k Hk Hkb.
      apply (Hdis k Hkb). apply elem_of_concat. by exists blk. }
    rewrite IH; [by rewrite Hg | done | | done].
    unfold normalize_block. by rewrite length_scatter.
Qed.

(** What the rod's step callback returns. *)
Lemma step_callback_spec self t q u :
  wf_quaternion_dofs self (length q) →
  ∃ q', step_callback self t q u = (q', u)
        ∧ length q' = length q
        ∧ (∀ k, k ∉ concat (nodalDOF_p self) → nth k q' 0 = nth k q 0)
        ∧ ∀ node blk,
            nodalDOF_p self !! node = Some blk →
            gather q' blk = vdiv (gather q blk) (norm (gather q blk))
            ∧ (norm (gather q blk) ≠ 0 → norm (gather q' blk) = 1).
Proof.
  intros [Hlen Hr Hnd]. eexists. split; [by apply step_callback_fold|].
  split; [apply length_normalize_fold|].
  split; [intros k Hk; by apply nth_normalize_fold_other|].
  intros node blk Hb.
  assert (Hg : gather (foldl normalize_block q (nodalDOF_p self)) blk
               = vdiv (gather q blk) (norm (gather q blk))).
  { apply normalize_fold_block; try done.
    eapply list_elem_of_lookup_2; eauto. }
  split; [done|]. intros Hn. rewrite Hg. by apply norm_vdiv_self.
Qed.

Section Run.

Variable spsolve : matrix → vec → vec.
Variable numerical_jacobian : (R → vec → vec) → R → vec → matrix.

Local Abbreviation step := (Moreau.step spsolve numerical_jacobian).
Local Abbreviation solve_body := (Moreau.solve_body spsolve numerical_jacobian).

(** What an accepted step stores and records went through the step
    callback of the system. *)
Lemma accepted_step_callback self sol self' sol' :
  solve_body self sol = Ok (self', sol') →
  (Moreau.qk self', Moreau.uk self')
  = Moreau.step_callback (Moreau.model self) (Moreau.r_tk1 (step self))
      (Moreau.r_qk1 (step self)) (Moreau.r_uk1 (step self))
  ∧ Moreau.sol_q sol' = Moreau.sol_q sol ++ [Moreau.qk self']
  ∧ Moreau.sol_u sol' = Moreau.sol_u sol ++ [Moreau.uk self'].
Proof.
  intros Hb. rewrite solve_body_unfold in Hb.
  destruct (Moreau.converged (step self)); [|done].
  injection Hb as <- <-.
  by destruct (advance_fields spsolve numerical_jacobian self)
    as (_ & _ & _ & _ & Hqu & _ & _).
Qed.

(** C3: what an accepted step of the Moreau scheme appends to the
    trajectory and stores in the object is the position and velocity
    returned by the step callback of the system; the callback of the rod
    leaves [u] and every coordinate outside the quaternion blocks unchanged
    and replaces every nodal quaternion block [p] by [p / norm(p)]; so,
    the blocks of the predicted position being quaternions that are not
    zero, every quaternion block of the recorded position has norm one. *)
Theorem moreau_step_normalizes_quaternions self sol self' sol' rod :
  Moreau.step_callback (Moreau.model self) = step_callback rod →
  wf_quaternion_dofs rod (length (Moreau.r_qk1 (step self))) →
  (∀ node p,
     nodalDOF_p rod !! node = Some p →
     norm (gather (Moreau.r_qk1 (step self)) p) ≠ 0) →
  solve_body self sol = Ok (self', sol') →
  let r := step self in
  (Moreau.qk self', Moreau.uk self')
  = step_callback rod (Moreau.r_tk1 r) (Moreau.r_qk1 r) (Moreau.r_uk1 r)
  ∧ Moreau.sol_q sol' = Moreau.sol_q sol ++ [Moreau.qk self']
  ∧ Moreau.sol_u sol' = Moreau.sol_u sol ++ [Moreau.uk self']
  ∧ Moreau.uk self' = Moreau.r_uk1 r
  ∧ length (Moreau.qk self') = length (Moreau.r_qk1 r)
  ∧ (∀ k, k ∉ concat (nodalDOF_p rod) →
          nth k (Moreau.qk self') 0 = nth k (Moreau.r_qk1 r) 0)
  ∧ ∀ node p,
      nodalDOF_p rod !! node = Some p →
      gather (Moreau.qk self') p
      = vdiv (gather (Moreau.r_qk1 r) p) (norm (gather (Moreau.r_qk1 r) p))
      ∧ norm (gather (Moreau.qk self') p) = 1.
Proof.
  intros Hcb Hwf Hnz Hb r. subst r.
  destruct (accepted_step_callback _ _ _ _ Hb) as (Hqu & Hsq & Hsu).
  rewrite Hcb in Hqu.
  destruct (step_callback_spec rod (Moreau.r_tk1 (step self))
              (Moreau.r_qk1 (step self)) (Moreau.r_uk1 (step self)) Hwf)
    as (q' & Hq' & Hlen & Hout & Hblk).
  rewrite Hq' in Hqu. injection Hqu as Hq Hu.
  rewrite Hq'. rewrite Hq, Hu.
  split; [done|]. split; [by rewrite <- Hq|]. split; [by rewrite <- Hu|].
  split; [done|]. split; [exact Hlen|]. split; [exact Hout|].
  intros node p Hp. destruct (Hblk node p Hp) as [Hg Hn].
  split; [exact Hg | exact (Hn (Hnz node p Hp))].
Qed.

End Run.

(** *** One quaternion node carried by the Moreau scheme *)

Lemma one_node_wf : wf_quaternion_dofs one_node_rod 4.
Proof.
  split; simpl.
  - done.
  - repeat constructor; lia.
  - apply (bool_decide_unpack _). by vm_compute.
Qed.

Section Quaternion.

Variable spsolve : matrix → vec → vec.
Variable numerical_jacobian : (R → vec → vec) → R → vec → matrix.
Variable q0 : vec.
Hypothesis Hq0 : length q0 = 4%nat.

Local Abbreviation self := (quaternion_solver q0).

Lemma quaternion_step_position :
  Moreau.r_qk1 (Moreau.step spsolve numerical_jacobian self)
  = vadd q0 (vscale (1 / 10) [0; 0; 0; 0]).
Proof. reflexivity. Qed.

Lemma quaternion_step_accepted sol :
  Moreau.solve_body spsolve numerical_jacobian self sol
  = Ok (MoreauSpec.advance spsolve numerical_jacobian self,
        Moreau.record_step sol
          (Moreau.qk (MoreauSpec.advance spsolve numerical_jacobian self))
          (Moreau.uk (MoreauSpec.advance spsolve numerical_jacobian self))
          (Moreau.la_gk (MoreauSpec.advance spsolve numerical_jacobian self))
          (Moreau.la_gammak
             (MoreauSpec.advance spsolve numerical_jacobian self))
          (Moreau.P_Nk (MoreauSpec.advance spsolve numerical_jacobian self))
          (Moreau.P_Tk (MoreauSpec.advance spsolve numerical_jacobian self))).
Proof.
  rewrite solve_body_unfold.
  change (Moreau.step spsolve numerical_jacobian self)
    with (Moreau.step_fixed_point spsolve self).
  by rewrite (step_fixed_point_no_contact spsolve self eq_refl).
Qed.

Lemma quaternion_step_wf :
  wf_quaternion_dofs one_node_rod
    (length (Moreau.r_qk1 (Moreau.step spsolve numerical_jacobian self))).
Proof.
  rewrite quaternion_step_position, length_vadd, Hq0. exact one_node_wf.
Qed.

End Quaternion.

Lemma quaternion_step_nonzero spsolve numerical_jacobian node p :
  nodalDOF_p one_node_rod !! node = Some p →
  norm (gather
          (Moreau.r_qk1
             (Moreau.step spsolve numerical_jacobian
                (quaternion_solver [2; 0; 0; 0]))) p) ≠ 0.
Proof.
  intros Hp. destruct node as [|node]; simpl in Hp; [|done].
  injection Hp as <-. rewrite quaternion_step_position.
  apply Rgt_not_eq, sqrt_lt_R0.
  unfold gather, vadd, vscale, dot. simpl. lra.
Qed.

(** The theorem at the quaternion [(2, 0, 0, 0)]: the recorded block has
    norm one. *)
Lemma moreau_step_normalizes_quaternions_witness :
  ∃ self' sol',
    Moreau.solve_body (λ _ b, b) MoreauSpec.no_jacobian
      (quaternion_solver [2; 0; 0; 0]) empty_solution = Ok (self', sol')
    ∧ Moreau.sol_q sol' = [Moreau.qk self']
    ∧ norm (gather (Moreau.qk self') [0; 1; 2; 3]%nat) = 1.
Proof.
  eexists _, _. split; [apply quaternion_step_accepted|].
  destruct (moreau_step_normalizes_quaternions (λ _ b, b)
              MoreauSpec.no_jacobian (quaternion_solver [2; 0; 0; 0])
              empty_solution _ _ one_node_rod eq_refl
              (quaternion_step_wf _ _ [2; 0; 0; 0] eq_refl)
              (quaternion_step_nonzero _ _)
              (quaternion_step_accepted _ _ _ _))
    as (_ & Hq & _ & _ & _ & _ & Hblk).
  split; [exact Hq|].
  exact (proj2 (Hblk 0%nat [0; 1; 2; 3]%nat eq_refl)).
Defined.

End RodCallback.

(** ** The rod: the kinematic equation and its matrix *)

Module RodKinematics.
Import Rod RodSpec MoreauProofs MoreauContact RodStrains RodCallback.

(** *** Assignments of blocks in a loop *)

Lemma nth_scatter_at a idx src j k :
  NoDup idx → idx !! j = Some k → (k < length a)%nat →
  nth k (scatter a idx src) 0 = default (nth k a 0) (src !! j).
Proof.
  intros Hnd Hj Hk. destruct (src !! j) as [x|] eqn:Hx; simpl.
  { by eapply nth_scatter_in. }
  revert a src j Hnd Hj Hk Hx.
  induction idx as [|i idx IH]; intros a [|x0 src] j Hnd Hj Hk Hx;
    rewrite ?scatter_nil_l, ?scatter_nil_r; try done.
  destruct j as [|j]; [done|]. simpl in *.
  apply NoDup_cons in Hnd as [Hi Hnd].
  rewrite scatter_cons, (IH _ _ j) by (by rewrite ?length_insert).
  apply nth_insert_ne. intros ->. apply Hi.
  eapply list_elem_of_lookup_2; eauto.
Qed.

Section Loop.

Variable blk : nat → list nat.
Variable val : nat → vec.

Local Abbreviation loop :=
  (foldl (λ (a : vec) (n : nat), scatter a (blk n) (val n))).

Lemma length_loop ns a : length (loop a ns) = length a.
Proof.
  revert a. induction ns as [|n ns IH]; intros a; simpl; [done|].
  rewrite IH. apply length_scatter.
Qed.

Lemma nth_loop_notin ns a k :
  (∀ n, n ∈ ns → k ∉ blk n) → nth k (loop a ns) 0 = nth k a 0.
Proof.
  revert a. induction ns as [|n ns IH]; intros a Hk; simpl; [done|].
  rewrite IH.
  - apply nth_scatter_notin. apply Hk. by left.
  - intros n' Hn'. apply Hk. by right.
Qed.

Lemma nth_loop_in ns a n j k :
  NoDup (concat (blk <$> ns)) → n ∈ ns → blk n !! j = Some k →
  (k < length a)%nat →
  nth k (loop a ns) 0 = default (nth k a 0) (val n !! j).
Proof.
  revert a. induction ns as [|n0 ns IH]; intros a Hnd Hn Hj Hk.
  { by apply elem_of_nil in Hn. }
  rewrite fmap_cons in Hnd. simpl in Hnd.
  apply NoDup_app in Hnd as (Hb & Hdis & Hnd).
  assert (Hkn : k ∈ blk n) by (eapply list_elem_of_lookup_2; eauto).
  cbn [foldl]. destruct (decide (n = n0)) as [->|Hne].
  - rewrite nth_loop_notin.
    + by apply nth_scatter_at.
    + intros n' Hn' Hk'. apply (Hdis k Hkn).
      apply elem_of_concat. exists (blk n'). split; [done|].
      apply list_elem_of_fmap. by exists n'.
  - apply elem_of_cons in Hn as [?|Hn]; [done|].
    rewrite IH by (by rewrite ?length_scatter).
    rewrite nth_scatter_notin; [done|].
    intros Hk0. apply (Hdis k Hk0).
    apply elem_of_concat. exists (blk n). split; [done|].
    apply list_elem_of_fmap. by exists n.
Qed.

End Loop.

(** The loop [q_dot[nodalDOF_r] = u[nodalDOF_r]] over the nodes. *)
Lemma nth_copy_loop (u : vec) bs a k :
  Forall (Forall (λ k, (k < length a)%nat)) bs →
  nth k (foldl (λ (a : vec) b, scatter a b (gather u b)) a bs) 0
  = if decide (k ∈ concat bs) then nth k u 0 else nth k a 0.
Proof.
  revert a. induction bs as [|b bs IH]; intros a Hr; simpl.
  { destruct (decide (k ∈ [])) as [H|]; [by apply elem_of_nil in H | done]. }
  apply Forall_cons in Hr as [Hb Hr].
  rewrite IH by (by rewrite length_scatter).
  rewrite nth_scatter_gather by done.
  destruct (decide (k ∈ concat bs)) as [Hc|Hc];
    destruct (decide (k ∈ b)) as [Hkb|Hkb];
    destruct (decide (k ∈ b ++ concat bs)) as [Ha|Ha];
    try done; exfalso; apply Ha || (apply elem_of_app in Ha; tauto);
    apply elem_of_app; tauto.
Qed.

Lemma length_copy_loop (u : vec) bs a :
  length (foldl (λ (a : vec) b, scatter a b (gather u b)) a bs) = length a.
Proof.
  revert a. induction bs as [|b bs IH]; intros a; simpl; [done|].
  rewrite IH. apply length_scatter.
Qed.

(** *** Rows of a coordinate matrix *)

Lemma row_sum_app d1 d2 x i :
  Coo.row_sum (d1 ++ d2) x i = Coo.row_sum d1 x i + Coo.row_sum d2 x i.
Proof.
  induction d1 as [|e d1 IH]; simpl; [lra|]. rewrite IH. lra.
Qed.

Lemma row_sum_row i cols (r : vec) x k :
  Coo.row_sum (zip_with (λ j v, (i, j, v)) cols r) x k
  = if (i =? k)%nat then dot r (gather x cols) else 0.
Proof.
  revert r. induction cols as [|c cols IH]; intros [|v r]; simpl;
    rewrite ?dot_nil_l, ?dot_nil_r; try (by destruct (i =? k)%nat).
  rewrite IH. change (gather x (c :: cols)) with (nth c x 0 :: gather x cols).
  rewrite dot_cons. destruct (i =? k)%nat; lra.
Qed.

Lemma block_entries_cons i rows cols r B :
  Coo.block_entries (i :: rows) cols (r :: B)
  = zip_with (λ j v, (i, j, v)) cols r ++ Coo.block_entries rows cols B.
Proof. reflexivity. Qed.

Lemma row_sum_block_notin rows cols B x k :
  k ∉ rows → Coo.row_sum (Coo.block_entries rows cols B) x k = 0.
Proof.
  revert B. induction rows as [|i rows IH]; intros [|r B] Hk; try done.
  apply not_elem_of_cons in Hk as [Hne Hk].
  rewrite block_entries_cons, row_sum_app, row_sum_row, IH by done.
  destruct (Nat.eqb_spec i k); [congruence | lra].
Qed.

Lemma row_sum_block_in rows cols B x j k :
  NoDup rows → rows !! j = Some k →
  Coo.row_sum (Coo.block_entries rows cols B) x k
  = nth j (rows_dot B (gather x cols)) 0.
Proof.
  revert B j. induction rows as [|i rows IH]; intros [|r B] j Hnd Hj;
    try done.
  { by destruct j. }
  apply NoDup_cons in Hnd as [Hi Hnd].
  rewrite block_entries_cons, row_sum_app, row_sum_row.
  destruct j as [|j]; simpl in Hj.
  - simplify_eq. rewrite Nat.eqb_refl, row_sum_block_notin by done.
    simpl. lra.
  - rewrite (IH B j) by done.
    destruct (Nat.eqb_spec i k) as [->|_]; [|simpl; lra].
    exfalso. apply Hi. eapply list_elem_of_lookup_2; eauto.
Qed.

Section Blocks.

Variable rows cols : nat → list nat.
Variable B : nat → list vec.

Local Abbreviation fill :=
  (foldl (λ coo n, Coo.setitem coo (rows n) (cols n) (B n))).
Local Abbreviation entries :=
  (λ n, Coo.block_entries (rows n) (cols n) (B n)).

Lemma shape_fill ns coo : Coo.shape (fill coo ns) = Coo.shape coo.
Proof.
  revert coo. induction ns as [|n ns IH]; intros coo; simpl; [done|].
  by rewrite IH.
Qed.

Lemma data_fill ns coo :
  Coo.data (fill coo ns) = Coo.data coo ++ concat (entries <$> ns).
Proof.
  revert coo. induction ns as [|n ns IH]; intros coo; simpl.
  - by rewrite app_nil_r.
  - rewrite IH. simpl. by rewrite <- app_assoc.
Qed.

Lemma row_sum_blocks_notin ns x k :
  (∀ n, n ∈ ns → k ∉ rows n) →
  Coo.row_sum (concat (entries <$> ns)) x k = 0.
Proof.
  induction ns as [|n ns IH]; intros Hk; [done|].
  rewrite fmap_cons. cbn [concat].
  rewrite row_sum_app, row_sum_block_notin, IH.
  - lra.
  - intros n' Hn'. apply Hk. by right.
  - apply Hk. by left.
Qed.

Lemma row_sum_blocks_in ns x n j k :
  NoDup (concat (rows <$> ns)) → n ∈ ns → rows n !! j = Some k →
  Coo.row_sum (concat (entries <$> ns)) x k
  = nth j (rows_dot (B n) (gather x (cols n))) 0.
Proof.
  induction ns as [|n0 ns IH]; intros Hnd Hn Hj.
  { by apply elem_of_nil in Hn. }
  rewrite fmap_cons in Hnd. simpl in Hnd.
  apply NoDup_app in Hnd as (Hb & Hdis & Hnd).
  assert (Hkn : k ∈ rows n) by (eapply list_elem_of_lookup_2; eauto).
  rewrite fmap_cons. cbn [concat]. rewrite row_sum_app.
  destruct (decide (n = n0)) as [->|Hne].
  - rewrite (row_sum_block_in _ _ _ _ j) by done.
    rewrite row_sum_blocks_notin; [lra|].
    intros n' Hn' Hk'. apply (Hdis k Hkn).
    apply elem_of_concat. exists (rows n'). split; [done|].
    apply list_elem_of_fmap. by exists n'.
  - apply elem_of_cons in Hn as [?|Hn]; [done|].
    rewrite IH by done. rewrite row_sum_block_notin; [lra|].
    intros Hk0. apply (Hdis k Hk0).
    apply elem_of_concat. exists (rows n). split; [done|].
    apply list_elem_of_fmap. by exists n.
Qed.

End Blocks.

Lemma dot_unit_row k s n x :
  dot ((λ j, if (k =? j)%nat then 1 else 0) <$> seq s n) (gather x (seq s n))
  = if decide (s ≤ k < s + n)%nat then nth k x 0 else 0.
Proof.
  revert s. induction n as [|n IH]; intros s.
  { simpl. destruct (decide _); [lia | done]. }
  cbn [seq]. rewrite fmap_cons.
  change (gather x (s :: seq (S s) n)) with (nth s x 0 :: gather x (seq (S s) n)).
  rewrite dot_cons, IH.
  destruct (Nat.eqb_spec k s) as [->|Hne];
    repeat destruct (decide _); try lia; lra.
Qed.

Lemma row_sum_eye n x k :
  Coo.row_sum (Coo.block_entries (seq 0 n) (seq 0 n) (eye n)) x k
  = if decide (k < n)%nat then nth k x 0 else 0.
Proof.
  destruct (decide (k < n)%nat) as [Hlt|Hge].
  - rewrite (row_sum_block_in _ _ _ _ k);
      [| apply NoDup_seq | by apply lookup_seq_lt].
    unfold rows_dot, eye. rewrite <- list_fmap_compose.
    rewrite nth_fmap_seq by done. simpl. rewrite dot_unit_row.
    destruct (decide _); [done | lia].
  - apply row_sum_block_notin. rewrite elem_of_seq. lia.
Qed.

Lemma nth_coo_matvec coo x k :
  (k < (Coo.shape coo).1)%nat →
  nth k (Coo.matvec coo x) 0 = Coo.row_sum (Coo.data coo) x k.
Proof. intros H. unfold Coo.matvec. by rewrite nth_fmap_seq. Qed.

Lemma length_coo_matvec coo x : length (Coo.matvec coo x) = (Coo.shape coo).1.
Proof. unfold Coo.matvec. by rewrite length_fmap, length_seq. Qed.

Lemma vdiv_one (p : vec) : vdiv p 1 = p.
Proof.
  unfold vdiv. rewrite <- (list_fmap_id p) at 2.
  apply list_fmap_ext. intros _ x _. simpl. lra.
Qed.

(** *** The two kinematic maps, coordinate by coordinate *)

Section Kinematics.

Variable T_SO3_inv_quat : vec → list vec.

Local Abbreviation q_dot := (Rod.q_dot T_SO3_inv_quat).
Local Abbreviation q_dot_u := (Rod.q_dot_u T_SO3_inv_quat).

Variable self : CosseratRod.
Hypothesis Hwf : wf_kinematic_dofs self.

Local Abbreviation P := (λ n : nat, nth n (nodalDOF_p self) []).

Lemma blocks_of_nodes :
  P <$> seq 0 (nnodes_p self) = nodalDOF_p self.
Proof.
  destruct Hwf as [[Hlen _ _] _ _ _ _ _ _]. rewrite <- Hlen.
  apply fmap_nth_seq.
Qed.

Lemma node_of_block node blk :
  nodalDOF_p self !! node = Some blk →
  node ∈ seq 0 (nnodes_p self) ∧ P node = blk.
Proof.
  intros Hb. destruct Hwf as [[Hlen _ _] _ _ _ _ _ _]. split.
  - rewrite elem_of_seq. apply lookup_lt_Some in Hb. lia.
  - by apply nth_lookup_Some.
Qed.

Lemma block_of_node n k :
  k ∈ P n → k ∈ concat (nodalDOF_p self).
Proof.
  intros Hk. apply elem_of_concat. exists (P n). split; [done|].
  simpl. destruct (nth_in_or_default n (nodalDOF_p self) []) as [Hin | Hd].
  - by apply list_elem_of_In.
  - simpl in Hk. rewrite Hd in Hk. by apply elem_of_nil in Hk.
Qed.

Lemma quaternion_after_centerline k :
  k ∈ concat (nodalDOF_p self) → (nq_r self ≤ k < nq self)%nat.
Proof.
  intros Hk. apply elem_of_concat in Hk as (blk & Hk & Hblk).
  destruct Hwf as [[_ Hr _] _ _ _ _ _ Hafter].
  rewrite Forall_forall in Hr, Hafter.
  specialize (Hr _ Hblk). specialize (Hafter _ Hblk).
  rewrite Forall_forall in Hr, Hafter.
  split; [by apply Hafter | by apply Hr].
Qed.

Lemma centerline_before_quaternion k :
  k ∈ concat (nodalDOF_r self) → (k < nq_r self)%nat.
Proof.
  intros Hk. apply elem_of_concat in Hk as (blk & Hk & Hblk).
  destruct Hwf as [_ _ _ _ Hr _ _].
  rewrite Forall_forall in Hr. specialize (Hr _ Hblk).
  rewrite Forall_forall in Hr. by apply Hr.
Qed.

Lemma q_dot_loops t q u :
  q_dot self t q u
  = foldl (λ (a : vec) (n : nat),
             scatter a (P n)
               (rows_dot (T_SO3_inv_quat (gather q (P n)))
                  (K_omega_IK self u n)))
      (foldl (λ (a : vec) b, scatter a b (gather u b)) (zeros (length q))
         (nodalDOF_r self))
      (seq 0 (nnodes_p self)).
Proof.
  unfold Rod.q_dot. cbv zeta. f_equal.
  rewrite <- (wf_k_r_length _ Hwf).
  rewrite <- (foldl_fmap (λ (a : vec) b, scatter a b (gather u b))
                (λ i, nth i (nodalDOF_r self) [])).
  by rewrite fmap_nth_seq.
Qed.

Lemma length_q_dot t q u : length (q_dot self t q u) = length q.
Proof.
  by rewrite q_dot_loops, length_loop, length_copy_loop, length_zeros.
Qed.

Lemma shape_q_dot_u t q : Coo.shape (q_dot_u self t q) = (nq self, nu self).
Proof. unfold Rod.q_dot_u. cbv zeta. by rewrite shape_fill. Qed.

Lemma data_q_dot_u t q :
  Coo.data (q_dot_u self t q)
  = Coo.block_entries (seq 0 (nq_r self)) (seq 0 (nu_r self)) (eye (nq_r self))
    ++ concat ((λ n, Coo.block_entries (P n) (nth n (nodalDOF_p_u self) [])
                       (T_SO3_inv_quat
                          (vdiv (gather q (P n)) (norm (gather q (P n))))))
               <$> seq 0 (nnodes_p self)).
Proof. unfold Rod.q_dot_u. cbv zeta. by rewrite data_fill. Qed.

Lemma centerline_range (q : vec) :
  length q = nq self →
  Forall (Forall (λ k, (k < length (zeros (length q)))%nat)) (nodalDOF_r self).
Proof.
  intros Hq. rewrite length_zeros, Hq.
  eapply Forall_impl; [apply (wf_k_r_range _ Hwf)|].
  intros b Hb. eapply Forall_impl; [exact Hb|].
  intros k Hk. simpl in *. pose proof (wf_k_r_le _ Hwf). lia.
Qed.

(** The centerline coordinates: both maps give the velocity itself. *)
Lemma q_dot_centerline t q u k :
  length q = nq self → (k < nq_r self)%nat →
  nth k (q_dot self t q u) 0 = nth k u 0.
Proof.
  intros Hq Hk. rewrite q_dot_loops, nth_loop_notin.
  - rewrite nth_copy_loop by by apply centerline_range.
    destruct (decide _) as [|Hn]; [done|].
    exfalso. apply Hn. by apply (wf_k_r_cover _ Hwf).
  - intros n _ Hkn. apply block_of_node, quaternion_after_centerline in Hkn.
    lia.
Qed.

Lemma q_dot_u_centerline t q u k :
  (k < nq_r self)%nat →
  nth k (Coo.matvec (q_dot_u self t q) u) 0 = nth k u 0.
Proof.
  intros Hk. pose proof (wf_k_r_le _ Hwf).
  rewrite nth_coo_matvec by (rewrite shape_q_dot_u; simpl; lia).
  rewrite data_q_dot_u, row_sum_app, <- (wf_k_r_size _ Hwf), row_sum_eye.
  rewrite row_sum_blocks_notin.
  - destruct (decide _); [lra | lia].
  - intros n _ Hkn. apply block_of_node, quaternion_after_centerline in Hkn.
    lia.
Qed.

(** A coordinate of a quaternion block: the row of the kinematic matrix
    times the angular velocity of the node, for [q_dot] at the block as it
    is and for [q_dot_u] at the normalised block. *)
Lemma q_dot_block t q u node blk j k :
  length q = nq self →
  nodalDOF_p self !! node = Some blk → blk !! j = Some k →
  nth k (q_dot self t q u) 0
  = nth j (rows_dot (T_SO3_inv_quat (gather q blk)) (K_omega_IK self u node)) 0.
Proof.
  intros Hq Hb Hj. destruct (node_of_block _ _ Hb) as [Hn HP].
  assert (Hk : k ∈ concat (nodalDOF_p self)).
  { apply elem_of_concat. exists blk. split.
    - eapply list_elem_of_lookup_2; eauto.
    - eapply list_elem_of_lookup_2; eauto. }
  apply quaternion_after_centerline in Hk.
  rewrite q_dot_loops.
  rewrite (nth_loop_in _ _ _ _ node j k).
  - rewrite nth_copy_loop by by apply centerline_range.
    destruct (decide _) as [Hc|_].
    { apply centerline_before_quaternion in Hc. lia. }
    rewrite nth_zeros. simpl. rewrite HP. by rewrite nth_lookup.
  - rewrite blocks_of_nodes. apply (wf_p_NoDup _ _ (wf_k_quaternions _ Hwf)).
  - done.
  - simpl. by rewrite HP.
  - rewrite length_copy_loop, length_zeros. lia.
Qed.

Lemma q_dot_u_block t q u node blk j k :
  nodalDOF_p self !! node = Some blk → blk !! j = Some k →
  nth k (Coo.matvec (q_dot_u self t q) u) 0
  = nth j (rows_dot
             (T_SO3_inv_quat (vdiv (gather q blk) (norm (gather q blk))))
             (K_omega_IK self u node)) 0.
Proof.
  intros Hb Hj. destruct (node_of_block _ _ Hb) as [Hn HP].
  assert (Hk : k ∈ concat (nodalDOF_p self)).
  { apply elem_of_concat. exists blk. split.
    - eapply list_elem_of_lookup_2; eauto.
    - eapply list_elem_of_lookup_2; eauto. }
  apply quaternion_after_centerline in Hk.
  rewrite nth_coo_matvec by (rewrite shape_q_dot_u; simpl; lia).
  rewrite data_q_dot_u, row_sum_app, <- (wf_k_r_size _ Hwf), row_sum_eye.
  destruct (decide _) as [|_]; [lia|].
  rewrite (row_sum_blocks_in P _ _ _ _ node j k).
  - simpl. rewrite HP. unfold K_omega_IK. lra.
  - rewrite blocks_of_nodes. apply (wf_p_NoDup _ _ (wf_k_quaternions _ Hwf)).
  - done.
  - simpl. by rewrite HP.
Qed.

(** The remaining coordinates are zero in both. *)
Lemma q_dot_other t q u k :
  length q = nq self →
  (nq_r self ≤ k)%nat → k ∉ concat (nodalDOF_p self) →
  nth k (q_dot self t q u) 0 = 0.
Proof.
  intros Hq Hk Hn. rewrite q_dot_loops, nth_loop_notin.
  - rewrite nth_copy_loop by by apply centerline_range.
    destruct (decide _) as [Hc|_]; [|apply nth_zeros].
    apply centerline_before_quaternion in Hc. lia.
  - intros n _ Hkn. by apply Hn, (block_of_node n).
Qed.

Lemma q_dot_u_other t q u k :
  (k < nq self)%nat →
  (nq_r self ≤ k)%nat → k ∉ concat (nodalDOF_p self) →
  nth k (Coo.matvec (q_dot_u self t q) u) 0 = 0.
Proof.
  intros Hlt Hk Hn.
  rewrite nth_coo_matvec by (rewrite shape_q_dot_u; simpl; lia).
  rewrite data_q_dot_u, row_sum_app, <- (wf_k_r_size _ Hwf), row_sum_eye.
  destruct (decide _) as [|_]; [lia|].
  rewrite row_sum_blocks_notin; [lra|].
  intros n _ Hkn. by apply Hn, (block_of_node n).
Qed.

(** The two maps agree when they agree on every quaternion block. *)
Lemma kinematic_maps_agree t q u :
  length q = nq self →
  (∀ node blk j,
     nodalDOF_p self !! node = Some blk → (j < length blk)%nat →
     nth j (rows_dot (T_SO3_inv_quat (gather q blk))
              (K_omega_IK self u node)) 0
     = nth j (rows_dot
                (T_SO3_inv_quat (vdiv (gather q blk) (norm (gather q blk))))
                (K_omega_IK self u node)) 0) →
  q_dot self t q u = Coo.matvec (q_dot_u self t q) u.
Proof.
  intros Hq Hblk.
  apply (nth_ext _ _ 0 0).
  { by rewrite length_q_dot, length_coo_matvec, shape_q_dot_u. }
  intros k Hk. rewrite length_q_dot, Hq in Hk.
  destruct (decide (k < nq_r self)%nat) as [Hc|Hc].
  { by rewrite q_dot_centerline, q_dot_u_centerline. }
  destruct (decide (k ∈ concat (nodalDOF_p self))) as [Hin|Hout].
  - apply elem_of_concat in Hin as (blk & Hkb & Hb).
    apply list_elem_of_lookup in Hb as [node Hb].
    apply list_elem_of_lookup in Hkb as [j Hj].
    rewrite (q_dot_block _ _ _ node blk j k),
      (q_dot_u_block _ _ _ node blk j k) by done.
    apply Hblk; [done|]. by apply lookup_lt_Some in Hj.
  - rewrite q_dot_other, q_dot_u_other by (done || lia). done.
Qed.

Lemma dot_vdiv_l (a x : vec) c : dot (vdiv a c) x = dot a x / c.
Proof.
  revert x. induction a as [|y a IH]; intros [|z x].
  - change (vdiv [] c) with (@nil R). rewrite dot_nil_l. lra.
  - change (vdiv [] c) with (@nil R). rewrite dot_nil_l. lra.
  - rewrite !dot_nil_r. lra.
  - change (vdiv (y :: a) c) with (y / c :: vdiv a c).
    rewrite !dot_cons, IH. lra.
Qed.

Lemma nth_rows_dot_vdiv (B : list vec) (x : vec) c j :
  nth j (rows_dot ((λ row, vdiv row c) <$> B) x) 0
  = nth j (rows_dot B x) 0 / c.
Proof.
  unfold rows_dot. rewrite !nth_lookup, !list_lookup_fmap.
  destruct (B !! j) as [r|]; simpl; [apply dot_vdiv_l | lra].
Qed.

(** C10: for every configuration [q] of the right length whose nodal
    quaternion blocks are not zero, [q_dot(t, q, u)] and
    [q_dot_u(t, q) @ u] are equal when every nodal quaternion block has
    unit norm; for every [q] they agree on the centerline coordinates; on
    the coordinates of a quaternion block [p] the first is
    [T_SO3_inv_quat(p) @ K_omega_IK] and the second is
    [T_SO3_inv_quat(p / norm(p)) @ K_omega_IK], so the two are equal
    exactly when these two products agree on every block; and for a
    kinematic matrix that is homogeneous of degree one in the quaternion,
    every coordinate of [q_dot_u(t, q) @ u] in a block is the coordinate of
    [q_dot(t, q, u)] divided by the norm of the block, so that on a block
    whose norm is not one the two differ at every coordinate where [q_dot]
    is not zero. *)
Theorem q_dot_matches_q_dot_u t q u :
  length q = nq self →
  (∀ node blk,
     nodalDOF_p self !! node = Some blk → norm (gather q blk) ≠ 0) →
  let lhs := q_dot self t q u in
  let rhs := Coo.matvec (q_dot_u self t q) u in
  ((∀ node blk,
      nodalDOF_p self !! node = Some blk → norm (gather q blk) = 1) →
   lhs = rhs)
  ∧ (∀ k, (k < nq_r self)%nat → nth k lhs 0 = nth k rhs 0)
  ∧ (∀ node blk j k,
       nodalDOF_p self !! node = Some blk → blk !! j = Some k →
       nth k lhs 0
       = nth j (rows_dot (T_SO3_inv_quat (gather q blk))
                  (K_omega_IK self u node)) 0
       ∧ nth k rhs 0
         = nth j (rows_dot
                    (T_SO3_inv_quat
                       (vdiv (gather q blk) (norm (gather q blk))))
                    (K_omega_IK self u node)) 0)
  ∧ (lhs = rhs
     ↔ ∀ node blk j,
         nodalDOF_p self !! node = Some blk → (j < length blk)%nat →
         nth j (rows_dot (T_SO3_inv_quat (gather q blk))
                  (K_omega_IK self u node)) 0
         = nth j (rows_dot
                    (T_SO3_inv_quat
                       (vdiv (gather q blk) (norm (gather q blk))))
                    (K_omega_IK self u node)) 0)
  ∧ ((∀ p c, c ≠ 0 →
             T_SO3_inv_quat (vdiv p c)
             = (λ row, vdiv row c) <$> T_SO3_inv_quat p) →
     ∀ node blk j k,
       nodalDOF_p self !! node = Some blk → blk !! j = Some k →
       nth k rhs 0 = nth k lhs 0 / norm (gather q blk)
       ∧ (norm (gather q blk) ≠ 1 → nth k lhs 0 ≠ 0 →
          nth k lhs 0 ≠ nth k rhs 0)).
Proof.
  intros Hq Hnz lhs rhs. subst lhs rhs.
  split.
  { intros Hunit. apply kinematic_maps_agree; [done|].
    intros node blk j Hb _. by rewrite (Hunit node blk Hb), vdiv_one. }
  split.
  { intros k Hk. by rewrite q_dot_centerline, q_dot_u_centerline. }
  split.
  { intros node blk j k Hb Hj. split.
    - by apply q_dot_block.
    - by apply q_dot_u_block. }
  split.
  { split; [|by apply kinematic_maps_agree].
    intros Heq node blk j Hb Hj.
    destruct (lookup_lt_is_Some_2 blk j Hj) as [k Hk].
    rewrite <- (q_dot_block t q u node blk j k) by done.
    rewrite <- (q_dot_u_block t q u node blk j k) by done.
    by rewrite Heq. }
  intros Hhom node blk j k Hb Hj.
  assert (Hr : nth k (Coo.matvec (q_dot_u self t q) u) 0
               = nth k (q_dot self t q u) 0 / norm (gather q blk)).
  { rewrite (q_dot_block t q u node blk j k),
      (q_dot_u_block t q u node blk j k) by done.
    rewrite (Hhom _ _ (Hnz node blk Hb)). apply nth_rows_dot_vdiv. }
  split; [exact Hr|].
  intros Hn1 Hx Heq. rewrite Hr in Heq.
  pose proof (Hnz node blk Hb) as Hn0.
  apply Hn1.
  apply (Rmult_eq_reg_l (nth k (q_dot self t q u) 0)); [|exact Hx].
  rewrite Rmult_1_r.
  assert (E : nth k (q_dot self t q u) 0 / norm (gather q blk)
              * norm (gather q blk)
              = nth k (q_dot self t q u) 0).
  { unfold Rdiv. rewrite Rmult_assoc, Rinv_l by exact Hn0. apply Rmult_1_r. }
  rewrite <- Heq in E. exact E.
Qed.

End Kinematics.

(** *** The rod with one node *)

Lemma one_node_kinematic_wf : wf_kinematic_dofs one_node_rod.
Proof.
  split; simpl.
  - apply one_node_wf.
  - done.
  - done.
  - lia.
  - constructor.
  - intros k Hk. lia.
  - repeat constructor; lia.
Qed.

Lemma norm_scaled_unit c :
  0 <= c → norm (gather [c; 0; 0; 0] [0; 1; 2; 3]%nat) = c.
Proof.
  intros Hc. unfold norm, gather, dot. simpl.
  replace (c * c + (0 * 0 + (0 * 0 + (0 * 0 + 0)))) with (c * c) by lra.
  by apply sqrt_square.
Qed.

Lemma nth_vdiv (p : vec) c i : nth i (vdiv p c) 0 = nth i p 0 / c.
Proof.
  unfold vdiv. rewrite !nth_lookup, list_lookup_fmap.
  destruct (p !! i); simpl; lra.
Qed.

(** The matrix that is linear in the quaternion is homogeneous of degree
    one. *)
Lemma T_linear_homogeneous p c :
  c ≠ 0 → T_linear (vdiv p c) = (λ row, vdiv row c) <$> T_linear p.
Proof.
  intros Hc. unfold T_linear. cbv zeta. rewrite !nth_vdiv.
  cbn [fmap list_fmap]. unfold vdiv. cbn [fmap list_fmap].
  repeat match goal with
         | |- _ :: _ = _ :: _ => f_equal
         end; try reflexivity; field; exact Hc.
Qed.

Lemma one_node_block_nonzero c :
  0 < c →
  ∀ node blk,
    nodalDOF_p one_node_rod !! node = Some blk →
    norm (gather [c; 0; 0; 0] blk) ≠ 0.
Proof.
  intros Hc node blk Hb. destruct node as [|node]; simpl in Hb; [|done].
  injection Hb as <-. rewrite norm_scaled_unit by lra. lra.
Qed.

(** With the matrix that is linear in the quaternion, the quaternion
    [(2, 0, 0, 0)] and a velocity that is not zero, the second coordinate
    is [1] in the one map and [1 / 2] in the other. *)
Lemma q_dot_differs_off_unit_norm :
  nth 1 (Rod.q_dot T_linear one_node_rod 0 [2; 0; 0; 0] [1; 0; 0]) 0 = 1
  ∧ nth 1 (Coo.matvec (Rod.q_dot_u T_linear one_node_rod 0 [2; 0; 0; 0])
             [1; 0; 0]) 0 = 1 / 2.
Proof.
  split.
  - rewrite (q_dot_block T_linear one_node_rod one_node_kinematic_wf
               0 [2; 0; 0; 0] [1; 0; 0] 0%nat [0; 1; 2; 3]%nat 1%nat 1%nat)
      by done.
    unfold rows_dot, K_omega_IK, T_linear, gather, dot. simpl. lra.
  - rewrite (q_dot_u_block T_linear one_node_rod one_node_kinematic_wf
               0 [2; 0; 0; 0] [1; 0; 0] 0%nat [0; 1; 2; 3]%nat 1%nat 1%nat)
      by done.
    rewrite norm_scaled_unit by lra.
    unfold rows_dot, K_omega_IK, T_linear, vdiv, gather, dot. simpl. lra.
Qed.

(** The theorem at the quaternion [(2, 0, 0, 0)], whose norm is not one,
    with the matrix that is linear in the quaternion: the two maps differ
    at the second coordinate. *)
Lemma q_dot_matches_q_dot_u_witness :
  length [2; 0; 0; 0] = nq one_node_rod
  ∧ norm (gather [2; 0; 0; 0] [0; 1; 2; 3]%nat) ≠ 0
  ∧ norm (gather [2; 0; 0; 0] [0; 1; 2; 3]%nat) ≠ 1
  ∧ nth 1 (Rod.q_dot T_linear one_node_rod 0 [2; 0; 0; 0] [1; 0; 0]) 0
    ≠ nth 1 (Coo.matvec (Rod.q_dot_u T_linear one_node_rod 0 [2; 0; 0; 0])
               [1; 0; 0]) 0.
Proof.
  assert (Hn : norm (gather [2; 0; 0; 0] [0; 1; 2; 3]%nat) = 2).
  { apply norm_scaled_unit. lra. }
  split; [reflexivity|].
  split; [rewrite Hn; lra|]. split; [rewrite Hn; lra|].
  destruct (q_dot_matches_q_dot_u T_linear one_node_rod
              one_node_kinematic_wf 0 [2; 0; 0; 0] [1; 0; 0] eq_refl
              (one_node_block_nonzero 2 ltac:(lra)))
    as (_ & _ & _ & _ & H).
  destruct (H T_linear_homogeneous 0%nat [0; 1; 2; 3]%nat 1%nat 1%nat
              eq_refl eq_refl) as [_ Hd].
  apply Hd.
  - rewrite Hn. lra.
  - rewrite (proj1 q_dot_differs_off_unit_norm). lra.
Defined.

End RodKinematics.

(** ** Tolerances and contact index sets of the solver base *)

Module BaseContacts.
Import Base BaseSpec BaseProofs.

(** *** Tolerances of [consistent_initial_conditions] *)

(** A comparison with zeros looks at the absolute tolerance only. *)
Lemma allclose_zeros a n rtol atol :
  allclose a (zeros n) rtol atol
  = np_all ((λ x, Rleb (Rabs x) atol) <$> take n a).
Proof.
  unfold allclose, np_all. revert n.
  induction a as [|x a IH]; intros [|n]; simpl; try reflexivity.
  change (replicate n 0) with (zeros n). rewrite IH. f_equal.
  unfold Rminus. rewrite Ropp_0, Rplus_0_r, Rabs_R0, Rmult_0_r, Rplus_0_r.
  reflexivity.
Qed.

Lemma within_tol_rtol v n rtol rtol' atol :
  within_tol v n rtol atol = within_tol v n rtol' atol.
Proof. unfold within_tol. by rewrite !allclose_zeros. Qed.

Lemma within_tol_mono v n rtol rtol' atol atol' :
  atol <= atol' →
  within_tol v n rtol atol = true → within_tol v n rtol' atol' = true.
Proof.
  intros Hle. unfold within_tol. rewrite !allclose_zeros.
  unfold np_all. rewrite !forallb_forall. intros H b Hb.
  apply in_map_iff in Hb as (x & <- & Hx).
  specialize (H (Rleb (Rabs x) atol)
                (in_map (λ x, Rleb (Rabs x) atol) _ _ Hx)).
  apply Rleb_le in H. apply Rleb_le. lra.
Qed.

Section Tolerances.

Variable spsolve : matrix → vec → vec.

Lemma asserted_conditions_mono system rtol rtol' atol atol' :
  atol <= atol' →
  asserted_conditions spsolve system rtol atol = true →
  asserted_conditions spsolve system rtol' atol' = true.
Proof.
  intros Hle. unfold asserted_conditions, bilateral_residuals_within_tol,
    contact_accelerations_admissible, closing_velocities_admissible.
  cbv zeta. rewrite !andb_true_iff, !orb_true_iff.
  pose proof (λ v n, within_tol_mono v n rtol rtol' atol atol' Hle) as Hm.
  intros (((Hg & Hv) & Ha) & ((((H1 & H2) & H3) & H4) & H5) & H6).
  repeat split; auto.
  - destruct Hv as [?|?]; auto.
  - destruct Ha as [?|?]; auto.
Qed.

(** X1: the relative tolerance of [consistent_initial_conditions] has no
    effect, because every [np.allclose] in it compares with zeros; and what
    the function returns for an absolute tolerance it returns for every
    larger one. *)
Theorem cic_tolerances system rtol atol :
  (∀ rtol',
     consistent_initial_conditions spsolve system rtol atol
     = consistent_initial_conditions spsolve system rtol' atol)
  ∧ (∀ rtol' atol' r,
       atol <= atol' →
       consistent_initial_conditions spsolve system rtol atol = Ok r →
       consistent_initial_conditions spsolve system rtol' atol' = Ok r).
Proof.
  split.
  - intros rtol'. rewrite !cic_unfold.
    destruct (asserted_conditions spsolve system rtol atol) eqn:E.
    + by rewrite (asserted_conditions_mono system rtol rtol' atol atol
                    (Rle_refl _) E).
    + destruct (asserted_conditions spsolve system rtol' atol) eqn:E';
        [|done].
      by rewrite (asserted_conditions_mono system rtol' rtol atol atol
                    (Rle_refl _) E') in E.
  - intros rtol' atol' r Hle. rewrite !cic_unfold.
    destruct (asserted_conditions spsolve system rtol atol) eqn:E; [|done].
    by rewrite (asserted_conditions_mono system rtol rtol' atol atol' Hle E).
Qed.

End Tolerances.

(** *** [compute_I_F] *)

Lemma I_F_of_in_range NF i I_N :
  (i + length I_N ≤ length NF)%nat →
  I_F_of NF i I_N
  = Ok (concat (imap (λ k (b : bool), if b then nth (i + k) NF [] else [])
                  I_N)).
Proof.
  revert i. induction I_N as [|b I_N IH]; intros i Hlen; simpl in *;
    [done|].
  destruct (lookup_lt_is_Some_2 NF i ltac:(lia)) as [cs Hcs].
  rewrite Hcs, IH by lia. simpl.
  change (Py.bind ?f (Ok ?x)) with (f x). cbv beta.
  rewrite Nat.add_0_r, (nth_lookup_Some _ _ _ _ Hcs).
  do 3 f_equal. apply imap_ext. intros k x _. simpl.
  by replace (i + S k)%nat with (S i + k)%nat by lia.
Qed.

Lemma I_F_of_short NF i I_N :
  (i ≤ length NF)%nat → (length NF < i + length I_N)%nat →
  I_F_of NF i I_N = Raise IndexError.
Proof.
  revert i. induction I_N as [|b I_N IH]; intros i Hi Hlen; simpl in *;
    [lia|].
  destruct (NF !! i) as [cs|] eqn:Hcs; [|done].
  apply lookup_lt_Some in Hcs. by rewrite IH by lia.
Qed.

(** X2: when the connectivity table has an entry for every contact,
    [compute_I_F] returns, in the order of the contacts, the friction
    components of the active contacts and nothing else; it is the index set
    the steps of the Moreau scheme build inline. *)
Theorem compute_I_F_active I_N NF_connectivity :
  (length I_N ≤ length NF_connectivity)%nat →
  ∃ I_F,
    compute_I_F I_N NF_connectivity = Ok I_F
    ∧ I_F = Moreau.active_tangent I_N NF_connectivity
    ∧ ∀ c, c ∈ I_F
           ↔ ∃ i cs, I_N !! i = Some true ∧ NF_connectivity !! i = Some cs
                     ∧ c ∈ cs.
Proof.
  intros Hlen. exists (Moreau.active_tangent I_N NF_connectivity).
  split.
  { unfold compute_I_F, Moreau.active_tangent.
    destruct (np_any I_N); [|done].
    by rewrite I_F_of_in_range by (simpl; lia). }
  split; [done|]. intros c.
  rewrite (MoreauProofs.elem_of_active_tangent I_N NF_connectivity c).
  split.
  - intros (i & Hi & Hc).
    assert (Hlt : (i < length I_N)%nat).
    { destruct (decide (i < length I_N)%nat); [done|].
      rewrite nth_overflow in Hi by lia. done. }
    destruct (lookup_lt_is_Some_2 NF_connectivity i ltac:(lia)) as [cs Hcs].
    exists i, cs. rewrite (nth_lookup_Some _ _ _ _ Hcs) in Hc.
    split; [|done].
    destruct (lookup_lt_is_Some_2 I_N i Hlt) as [b Hb].
    by rewrite (nth_lookup_Some _ _ _ _ Hb) in Hi; subst.
  - intros (i & cs & Hi & Hcs & Hc). exists i.
    by rewrite (nth_lookup_Some _ _ _ _ Hi), (nth_lookup_Some _ _ _ _ Hcs).
Qed.

(** The theorem at two contacts, the second one active. *)
Lemma compute_I_F_active_witness :
  compute_I_F [false; true] [[0; 1]; [2; 3]]%nat = Ok [2; 3]%nat.
Proof.
  destruct (compute_I_F_active [false; true] [[0; 1]; [2; 3]]%nat
              ltac:(simpl; lia)) as (I_F & H & -> & _).
  exact H.
Defined.

(** X3: [compute_I_F] raises exactly when some contact is active and the
    connectivity table is shorter than the contact mask, and what it raises
    is an [IndexError]: the table is read for every contact, active or not;
    without active contact the table is not read at all. *)
Theorem compute_I_F_raises I_N NF_connectivity :
  (raises (compute_I_F I_N NF_connectivity) IndexError
   ↔ np_any I_N = true ∧ (length NF_connectivity < length I_N)%nat)
  ∧ (∀ e, compute_I_F I_N NF_connectivity = Raise e → e = IndexError)
  ∧ (np_any I_N = false → compute_I_F I_N NF_connectivity = Ok []).
Proof.
  unfold compute_I_F. destruct (np_any I_N) eqn:Hany.
  - destruct (decide (length I_N ≤ length NF_connectivity)%nat) as [Hle|Hgt].
    + rewrite I_F_of_in_range by (simpl; lia). simpl.
      split; [|split]; [split; [done | lia] | done | done].
    + rewrite I_F_of_short by (simpl; lia). simpl.
      split; [|split]; [split; [intros _; split; [done | lia] | done]
                       | by intros e [= <-] | done].
  - simpl. split; [|split]; [split; [done | by intros [? _]] | done | done].
Qed.

End BaseContacts.

(** ** Runs of the Moreau scheme *)

Module MoreauRun.
Import Moreau MoreauSpec MoreauProofs MoreauContact.

Section Run.

Variable spsolve : matrix → vec → vec.
Variable numerical_jacobian : (R → vec → vec) → R → vec → matrix.

Local Abbreviation step := (Moreau.step spsolve numerical_jacobian).
Local Abbreviation solve := (Moreau.solve spsolve numerical_jacobian).
Local Abbreviation advance := (MoreauSpec.advance spsolve numerical_jacobian).
Local Abbreviation state_after :=
  (MoreauSpec.state_after spsolve numerical_jacobian).

(** X4: in a run of the fixed-point scheme that returns, the contact
    impulses recorded for every step have one entry per contact and per
    friction component and are admissible: the normal impulses are
    non-negative and every friction block has norm at most [mu] times the
    normal impulse of its contact. *)
Theorem moreau_solve_admissible self self' sol' :
  method self = fixed_point → wf_contacts self →
  solve self = Ok (self', sol') →
  ∀ k, (k < length (t self) - 1)%nat →
    ∃ P_N P_T,
      sol_P_N sol' !! S k = Some P_N
      ∧ sol_P_T sol' !! S k = Some P_T
      ∧ length P_N = nla_N (model self)
      ∧ length P_T = nla_T (model self)
      ∧ admissible (model self) P_N P_T.
Proof.
  intros Hm Hwf Hrun k Hk.
  destruct (moreau_run_admissible spsolve numerical_jacobian _ _ _ _ _ Hm Hwf
              Hrun k Hk) as (P_N & P_T & HN & HT & Hadm).
  exists P_N, P_T. split; [exact HN|]. split; [exact HT|].
  destruct (solve_loop_samples spsolve numerical_jacobian _ _ _ _ _ Hrun)
    as (_ & _ & HsN & HsT).
  cbn [sol_P_N sol_P_T] in HsN, HsT. rewrite HsN in HN. rewrite HsT in HT.
  change (?x :: ?l) with ([x] ++ l) in HN, HT.
  rewrite lookup_app_r in HN, HT by (simpl; lia). simpl in HN, HT.
  rewrite Nat.sub_0_r in HN, HT.
  rewrite list_lookup_fmap, lookup_seq_lt in HN, HT by done.
  simpl in HN, HT. injection HN as <-. injection HT as <-.
  destruct (wf_contacts_state_after spsolve numerical_jacobian (S k) self
              Hm Hwf) as (_ & Hmod & [HlN HlT _ _ _ _ _ _ _]).
  rewrite Hmod in HlN, HlT. done.
Qed.

Lemma step_time self : r_tk1 (step self) = tk self + dt self.
Proof. unfold Moreau.step. by destruct (method self). Qed.

Lemma advance_frame self :
  t (advance self) = t self
  ∧ t1 (advance self) = t1 self
  ∧ fix_point_tol (advance self) = fix_point_tol self
  ∧ fix_point_max_iter (advance self) = fix_point_max_iter self
  ∧ newton_tol (advance self) = newton_tol self
  ∧ newton_max_iter (advance self) = newton_max_iter self.
Proof. unfold MoreauSpec.advance. by destruct (step_callback _ _ _ _). Qed.

Lemma state_after_frame n self :
  model (state_after n self) = model self
  ∧ dt (state_after n self) = dt self
  ∧ t (state_after n self) = t self
  ∧ method (state_after n self) = method self
  ∧ fix_point_tol (state_after n self) = fix_point_tol self
  ∧ fix_point_max_iter (state_after n self) = fix_point_max_iter self
  ∧ newton_tol (state_after n self) = newton_tol self
  ∧ newton_max_iter (state_after n self) = newton_max_iter self
  ∧ tk (state_after n self) = tk self + INR n * dt self.
Proof.
  induction n as [|n IH].
  - simpl. repeat split; try done. lra.
  - destruct IH as (Hmod & Hdt & Ht & Hmeth & H1 & H2 & H3 & H4 & Htk).
    change (state_after (S n) self) with (advance (state_after n self)).
    destruct (advance_fields spsolve numerical_jacobian (state_after n self))
      as (Hmod' & Hmeth' & Hdt' & Htk' & _).
    destruct (advance_frame (state_after n self))
      as (Ht' & _ & H1' & H2' & H3' & H4').
    rewrite Hmod', Hmeth', Hdt', Htk', Ht', H1', H2', H3', H4'.
    rewrite step_time, Htk, Hdt, S_INR.
    repeat split; try done. lra.
Qed.

Lemma solve_loop_sol_t n self sol self' sol' :
  solve_loop spsolve numerical_jacobian n self sol = Ok (self', sol') →
  sol_t sol' = sol_t sol.
Proof.
  revert self sol. induction n as [|n IH]; intros self sol.
  - by intros [= <- <-].
  - cbn [Moreau.solve_loop]. rewrite solve_body_unfold.
    destruct (converged (step self)); [|done].
    change (Py.bind ?f (Ok ?x)) with (f x). cbv beta iota.
    intros H. by apply IH in H as ->.
Qed.

(** X5: the steps of a run change neither the model, the step size, the
    time grid, the prox solver nor the tolerances and caps, and the time of
    the object after [n] accepted steps is [tk + n * dt]; so a run over the
    grid [t] that returns ends at [tk + (len(t) - 1) * dt], and the times of
    the returned solution are the grid itself. *)
Theorem moreau_clock n self :
  model (state_after n self) = model self
  ∧ dt (state_after n self) = dt self
  ∧ t (state_after n self) = t self
  ∧ method (state_after n self) = method self
  ∧ fix_point_tol (state_after n self) = fix_point_tol self
  ∧ fix_point_max_iter (state_after n self) = fix_point_max_iter self
  ∧ newton_tol (state_after n self) = newton_tol self
  ∧ newton_max_iter (state_after n self) = newton_max_iter self
  ∧ tk (state_after n self) = tk self + INR n * dt self
  ∧ ∀ self' sol',
      solve self = Ok (self', sol') →
      tk self' = tk self + INR (length (t self) - 1) * dt self
      ∧ sol_t sol' = t self.
Proof.
  destruct (state_after_frame n self)
    as (Hmod & Hdt & Ht & Hmeth & H1 & H2 & H3 & H4 & Htk).
  repeat split; try done.
  - unfold Moreau.solve in H.
    destruct (solve_loop_length spsolve numerical_jacobian _ _ _ _ _ H)
      as (-> & _).
    by destruct (state_after_frame (length (t self) - 1) self)
      as (_ & _ & _ & _ & _ & _ & _ & _ & ->).
  - unfold Moreau.solve in H. by apply solve_loop_sol_t in H.
Qed.

Lemma fp_loop_ignores_multipliers self la_g la_gamma a n j s :
  fp_loop spsolve
    (accept self (tk self) (qk self) (uk self) la_g la_gamma
       (P_Nk self) (P_Tk self)) a n j s
  = fp_loop spsolve self a n j s.
Proof.
  revert j s. induction n as [|n IH]; intros j s; [done|].
  rewrite !fp_loop_S.
  change (fp_prox (accept self _ _ _ _ _ _ _) a j s) with (fp_prox self a j s).
  destruct (s_converged (fp_prox self a j s)); [done|].
  rewrite IH. reflexivity.
Qed.

(** X6: the fixed-point step does not read the bilateral multipliers stored
    in the object: with other values for [la_gk] and [la_gammak] it returns
    the same result; the Newton step starts from them. *)
Theorem fixed_point_ignores_multipliers self la_g la_gamma :
  step_fixed_point spsolve
    (accept self (tk self) (qk self) (uk self) la_g la_gamma
       (P_Nk self) (P_Tk self))
  = step_fixed_point spsolve self
  ∧ n_xk1 (nw_init self)
    = uk self ++ la_gk self ++ la_gammak self ++ P_Nk self ++ P_Tk self.
Proof.
  split; [|reflexivity].
  unfold step_fixed_point. cbv zeta.
  change (assemble (accept self _ _ _ _ _ _ _)) with (assemble self).
  change (fp_init spsolve (accept self _ _ _ _ _ _ _) (assemble self))
    with (fp_init spsolve self (assemble self)).
  change (fix_point_max_iter (accept self _ _ _ _ _ _ _))
    with (fix_point_max_iter self).
  by rewrite fp_loop_ignores_multipliers.
Qed.

(** X7: a Newton step whose residual at the stored velocity, multipliers
    and impulses is below the tolerance makes no iteration: it is accepted
    with the stored velocity, multipliers and impulses, and only time and
    position advance. *)
Theorem newton_step_at_once self :
  n_error (nw_init self) < newton_tol self →
  step_newton spsolve numerical_jacobian self
  = {| converged := true;
       iterations := 0;
       error := n_error (nw_init self);
       r_tk1 := tk self + dt self;
       r_qk1 := vadd (qk self)
                  (vscale (dt self)
                     (q_dot (model self) (tk self) (qk self) (uk self)));
       r_uk1 := uk self;
       r_la_gk1 := la_gk self;
       r_la_gammak1 := la_gammak self;
       r_P_Nk1 := P_Nk self;
       r_P_Tk1 := P_Tk self |}.
Proof.
  intros Hlt. apply Rltb_lt in Hlt.
  unfold step_newton. cbv zeta.
  change (R_newton self _ _ _ _) with (n_R (nw_init self)).
  change (newton_error_function self (n_R (nw_init self)))
    with (n_error (nw_init self)).
  rewrite Hlt. reflexivity.
Qed.

Lemma fp_loop_with_grid self t1 t a n j s :
  fp_loop spsolve (with_grid self t1 t) a n j s = fp_loop spsolve self a n j s.
Proof.
  revert j s. induction n as [|n IH]; intros j s; [done|].
  rewrite !fp_loop_S.
  change (fp_prox (with_grid self t1 t) a j s) with (fp_prox self a j s).
  destruct (s_converged (fp_prox self a j s)); [done|].
  rewrite IH. reflexivity.
Qed.

(** The time grid is read by [solve] only. *)
Lemma step_fixed_point_with_grid self t1 t :
  step_fixed_point spsolve (with_grid self t1 t) = step_fixed_point spsolve self.
Proof.
  unfold step_fixed_point. cbv zeta.
  change (assemble (with_grid self t1 t)) with (assemble self).
  change (fp_init spsolve (with_grid self t1 t) (assemble self))
    with (fp_init spsolve self (assemble self)).
  change (fix_point_max_iter (with_grid self t1 t))
    with (fix_point_max_iter self).
  by rewrite fp_loop_with_grid.
Qed.

End Run.

(** *** The resting point mass in a run of one step *)

Lemma resting_run :
  Moreau.solve solve_1x1 no_jacobian
    (with_grid (point_mass_solver 0 0 10 5) (1 / 10) [0; 1 / 10])
  = Ok (MoreauSpec.advance solve_1x1 no_jacobian
          (with_grid (point_mass_solver 0 0 10 5) (1 / 10) [0; 1 / 10]),
        {| sol_t := [0; 1 / 10];
           sol_q := [[0]; [0]]; sol_u := [[0]; [0]];
           sol_la_g := [[]; []]; sol_la_gamma := [[]; []];
           sol_P_N := [[1 / 10 * 10]; [1]]; sol_P_T := [[]; []] |}).
Proof.
  unfold Moreau.solve. cbn [length t with_grid Nat.sub Moreau.solve_loop].
  rewrite solve_body_unfold.
  assert (Hs : Moreau.step solve_1x1 no_jacobian
                 (with_grid (point_mass_solver 0 0 10 5) (1 / 10) [0; 1 / 10])
               = {| converged := true; iterations := 0; error := 0;
                    r_tk1 := 1 / 10; r_qk1 := [0]; r_uk1 := [0];
                    r_la_gk1 := []; r_la_gammak1 := [];
                    r_P_Nk1 := [1]; r_P_Tk1 := [] |}).
  { unfold Moreau.step. cbn [method with_grid point_mass_solver].
    rewrite step_fixed_point_with_grid. apply resting_mass_step. }
  rewrite Hs. cbn [converged].
  change (Py.bind ?f (Ok ?x)) with (f x). cbv beta iota.
  unfold MoreauSpec.advance. rewrite Hs. reflexivity.
Qed.

Lemma resting_run_wf :
  wf_contacts (with_grid (point_mass_solver 0 0 10 5) (1 / 10) [0; 1 / 10]).
Proof. destruct resting_mass_wf. by split. Qed.

(** The theorem at the point mass resting on the plane: the impulse
    recorded for the step is the weight times the step size. *)
Lemma moreau_solve_admissible_witness :
  wf_contacts (with_grid (point_mass_solver 0 0 10 5) (1 / 10) [0; 1 / 10])
  ∧ is_ok (Moreau.solve solve_1x1 no_jacobian
             (with_grid (point_mass_solver 0 0 10 5) (1 / 10) [0; 1 / 10]))
  ∧ admissible (point_mass 0 0 10) [1] [].
Proof.
  split; [exact resting_run_wf|]. split; [by rewrite resting_run|].
  destruct (moreau_solve_admissible solve_1x1 no_jacobian
              (with_grid (point_mass_solver 0 0 10 5) (1 / 10) [0; 1 / 10])
              _ _ eq_refl resting_run_wf resting_run 0%nat
              ltac:(simpl; lia))
    as (P_N & P_T & HN & HT & _ & _ & Hadm).
  simpl in HN, HT. injection HN as <-. injection HT as <-.
  exact Hadm.
Defined.

(** *** The resting point mass with the Newton solver *)

Lemma newton_resting_residual :
  n_R (nw_init (with_method (point_mass_solver 0 0 10 5) newton)) = [0; 0].
Proof.
  unfold nw_init. cbn [n_R].
  unfold R_newton, R_newton_friction, set_slice, count_nonzero, nR, nR_smooth.
  simpl. np_unfold. m_eval. BaseProofs.vec_eq.
Qed.

Lemma newton_resting_error :
  n_error (nw_init (with_method (point_mass_solver 0 0 10 5) newton)) = 0.
Proof.
  change (n_error (nw_init (with_method (point_mass_solver 0 0 10 5) newton)))
    with (max_abs
            (n_R (nw_init (with_method (point_mass_solver 0 0 10 5) newton)))).
  rewrite newton_resting_residual. unfold max_abs. m_eval. reflexivity.
Qed.

(** The theorem at the point mass resting on the plane: the residual is
    zero at the stored state, and the step returns it. *)
Lemma newton_step_at_once_witness :
  n_error (nw_init (with_method (point_mass_solver 0 0 10 5) newton))
  < newton_tol (with_method (point_mass_solver 0 0 10 5) newton)
  ∧ converged (step_newton solve_1x1 no_jacobian
                 (with_method (point_mass_solver 0 0 10 5) newton)) = true
  ∧ r_P_Nk1 (step_newton solve_1x1 no_jacobian
               (with_method (point_mass_solver 0 0 10 5) newton))
    = [1 / 10 * 10].
Proof.
  assert (H : n_error (nw_init (with_method (point_mass_solver 0 0 10 5) newton))
              < newton_tol (with_method (point_mass_solver 0 0 10 5) newton)).
  { rewrite newton_resting_error. simpl. lra. }
  split; [exact H|].
  rewrite (newton_step_at_once solve_1x1 no_jacobian _ H).
  split; reflexivity.
Defined.

End MoreauRun.

Module RadauControl.
Import Radau.

Lemma root4_gt_1 x : 1 < x → 1 < root4 x.
Proof.
  intros H. unfold root4.
  assert (H1 : 1 < sqrt x).
  { rewrite <- sqrt_1. apply sqrt_lt_1_alt. lra. }
  rewrite <- sqrt_1. apply sqrt_lt_1_alt. lra.
Qed.

Lemma safety_bounds n_iter :
  (1 ≤ n_iter)%nat → 0 < safety n_iter <= 9 / 10.
Proof.
  intros Hn. unfold safety, NEWTON_MAXITER.
  assert (H1 : 1 <= INR n_iter) by (apply (le_INR 1); lia).
  assert (Hd : 0 < 2 * 6 + INR n_iter) by lra.
  assert (Hi : 0 < / (2 * 6 + INR n_iter) <= / 13).
  { split; [apply Rinv_0_lt_compat; lra | apply Rinv_le_contravar; lra]. }
  unfold Rdiv. split; nra.
Qed.

(** With an error above one the predicted factor is below one. *)
Lemma predict_factor_rejected h_abs h_abs_old error_norm error_norm_old :
  1 < error_norm →
  ∃ f, predict_factor h_abs h_abs_old error_norm error_norm_old = Some f
       ∧ f < 1.
Proof.
  intros He. unfold predict_factor.
  assert (Hz : Reqb error_norm 0 = false).
  { unfold Reqb. destruct (Req_dec_T error_norm 0); [lra | done]. }
  rewrite Hz. eexists. split; [reflexivity|].
  pose proof (root4_gt_1 _ He) as Hr.
  assert (Hi : 0 < / root4 error_norm < 1).
  { split; [apply Rinv_0_lt_compat; lra|].
    rewrite <- Rinv_1. apply Rinv_lt_contravar; lra. }
  set (m := Rmin 1 _). assert (Hm : m <= 1) by apply Rmin_l.
  destruct (Rle_dec m 0); nra.
Qed.

(** X8: a step rejected for its error (error norm above one, after at least
    one Newton iteration) is repeated with a step size between [0.2] and
    [0.9] times the rejected one. *)
Theorem radau_rejected_step_shrinks h_abs h_abs_old error_norm error_norm_old
    n_iter :
  1 < error_norm → (1 ≤ n_iter)%nat → 0 < h_abs →
  ∃ h_new,
    h_abs_rejected h_abs h_abs_old error_norm error_norm_old n_iter
    = Some h_new
    ∧ MIN_FACTOR * h_abs <= h_new < 9 / 10 * h_abs.
Proof.
  intros He Hn Hh.
  destruct (predict_factor_rejected h_abs h_abs_old error_norm error_norm_old
              He) as (f & Hf & Hf1).
  unfold h_abs_rejected. rewrite Hf. simpl. eexists. split; [reflexivity|].
  destruct (safety_bounds n_iter Hn) as [Hs0 Hs1].
  assert (Hsf : safety n_iter * f < 9 / 10).
  { destruct (Rle_dec f 0); nra. }
  unfold MIN_FACTOR in *.
  destruct (Rle_dec (2 / 10) (safety n_iter * f)).
  - rewrite Rmax_right by done. nra.
  - rewrite Rmax_left by lra. nra.
Qed.

(** The theorem at an error norm of [16] in the first step. *)
Lemma radau_rejected_step_shrinks_witness :
  ∃ h_new,
    h_abs_rejected 1 None 16 None 1 = Some h_new
    ∧ MIN_FACTOR * 1 <= h_new < 9 / 10 * 1.
Proof.
  exact (radau_rejected_step_shrinks 1 None 16 None 1
           ltac:(lra) ltac:(lia) ltac:(lra)).
Defined.

(** X9: after an accepted step the proposed step size is at most ten times
    the accepted one; when the Jacobian is kept it is the accepted one or
    at least [1.2] times it, so it never decreases; and with an error norm
    of zero it is ten times the accepted one. *)
Theorem radau_accepted_step_grows h_abs h_abs_old error_norm error_norm_old
    n_iter recompute_jac :
  0 <= h_abs →
  let h_new :=
    h_abs_accepted h_abs h_abs_old error_norm error_norm_old n_iter
      recompute_jac in
  h_new <= MAX_FACTOR * h_abs
  ∧ (recompute_jac = false →
     h_new = h_abs ∨ 12 / 10 * h_abs <= h_new)
  ∧ (error_norm = 0 → h_new = MAX_FACTOR * h_abs).
Proof.
  intros Hh h_new. subst h_new. unfold h_abs_accepted. cbv zeta.
  set (f := match predict_factor _ _ _ _ with
            | Some factor => Rmin MAX_FACTOR (safety n_iter * factor)
            | None => MAX_FACTOR
            end).
  assert (Hf : f <= MAX_FACTOR).
  { subst f. destruct (predict_factor _ _ _ _); [apply Rmin_l | lra]. }
  unfold MAX_FACTOR in *.
  split; [|split].
  - destruct (negb recompute_jac && Rltb f (12 / 10)); nra.
  - intros ->. simpl.
    destruct (Rltb f (12 / 10)) eqn:E.
    + left. lra.
    + right. apply Rltb_nlt in E. nra.
  - intros He. subst f. unfold predict_factor.
    assert (Hz : Reqb error_norm 0 = true).
    { unfold Reqb. destruct (Req_dec_T error_norm 0); [done | lra]. }
    rewrite Hz.
    assert (E : Rltb 10 (12 / 10) = false) by (apply Rltb_nlt; lra).
    rewrite E, andb_false_r. lra.
Qed.

(** The theorem at an error norm of zero. *)
Lemma radau_accepted_step_grows_witness :
  h_abs_accepted 1 None 0 None 1 false = MAX_FACTOR * 1.
Proof.
  exact (proj2 (proj2 (radau_accepted_step_grows 1 None 0 None 1 false
                         ltac:(lra))) eq_refl).
Defined.

End RadauControl.

(** ** The Radau IIA integrator: dense output *)

Module RadauDense.
Import Radau.

Lemma nth_vadd a b i :
  (i < length a)%nat → (i < length b)%nat →
  nth i (vadd a b) 0 = nth i a 0 + nth i b 0.
Proof.
  intros Ha Hb. unfold vadd.
  destruct (lookup_lt_is_Some_2 a i Ha) as [x Hx].
  destruct (lookup_lt_is_Some_2 b i Hb) as [y Hy].
  rewrite (nth_lookup_Some _ _ _ _ Hx), (nth_lookup_Some _ _ _ _ Hy).
  apply nth_lookup_Some. by rewrite lookup_zip_with, Hx, Hy.
Qed.

(** The rows of [Z.T @ P] for three stage increments. *)
Lemma dense_Q_rows (z0 z1 z2 : vec) n :
  rows (matmul (transpose (Mat 3 n [z0; z1; z2])) P)
  = (λ j, matvec (transpose P) [nth j z0 0; nth j z1 0; nth j z2 0])
    <$> seq 0 n.
Proof.
  unfold matmul, transpose. cbn [rows ncols].
  rewrite <- list_fmap_compose. reflexivity.
Qed.

Lemma length_call_impl t_old t y_old (z0 z1 z2 : vec) n tau :
  length y_old = n →
  length (_call_impl (_compute_dense_output t_old t y_old
                        (Mat 3 n [z0; z1; z2])) tau) = n.
Proof.
  intros Hy. unfold _call_impl, _compute_dense_output, dense_output_init.
  cbn [d_Q d_y_old]. rewrite length_vadd. unfold matvec.
  rewrite length_fmap, dense_Q_rows, length_fmap, length_seq. lia.
Qed.

Lemma nth_call_impl t_old t y_old (z0 z1 z2 : vec) n tau j :
  length y_old = n → (j < n)%nat →
  nth j (_call_impl (_compute_dense_output t_old t y_old
                       (Mat 3 n [z0; z1; z2])) tau) 0
  = dot (matvec (transpose P) [nth j z0 0; nth j z1 0; nth j z2 0])
      (cumprod (replicate 3 ((tau - t_old) / (t - t_old))))
    + nth j y_old 0.
Proof.
  intros Hy Hj. unfold _call_impl, _compute_dense_output, dense_output_init.
  cbn [d_Q d_y_old d_order d_t_old d_h].
  rewrite nth_vadd.
  - f_equal. unfold matvec at 1. rewrite dense_Q_rows.
    rewrite <- list_fmap_compose.
    rewrite (RodStrains.nth_fmap_seq _ n j 0 Hj). reflexivity.
  - unfold matvec. by rewrite length_fmap, dense_Q_rows, length_fmap, length_seq.
  - lia.
Qed.

(** X10: the dense output built after a step from [t_old] to [t] with the
    stage increments [Z] returns the old state at [t_old] and the new state
    [y_old + Z[-1]] at [t]. *)
Theorem dense_output_endpoints t_old t y_old (z0 z1 z2 : vec) :
  t ≠ t_old →
  length z2 = length y_old →
  let sol :=
    _compute_dense_output t_old t y_old (Mat 3 (length y_old) [z0; z1; z2]) in
  _call_impl sol t_old = y_old
  ∧ _call_impl sol t = vadd y_old z2.
Proof.
  intros Ht Hz sol. subst sol. split.
  - apply (nth_ext _ _ 0 0).
    { by apply length_call_impl. }
    intros j Hj. rewrite length_call_impl in Hj by done.
    rewrite nth_call_impl by done.
    replace ((t_old - t_old) / (t - t_old)) with 0 by (field; lra).
    unfold matvec, transpose, P, dot, cumprod. simpl. lra.
  - apply (nth_ext _ _ 0 0).
    { rewrite length_call_impl, length_vadd by done. lia. }
    intros j Hj. rewrite length_call_impl in Hj by done.
    rewrite nth_call_impl, nth_vadd by (done || lia).
    replace ((t - t_old) / (t - t_old)) with 1 by (field; lra).
    unfold matvec, transpose, P, dot, cumprod. simpl. field.
Qed.

(** The theorem at a step from [0] to [1/2] of a scalar equation. *)
Lemma dense_output_endpoints_witness :
  _call_impl (_compute_dense_output 0 (1 / 2) [1] (Mat 3 1 [[2]; [3]; [4]])) 0
  = [1]
  ∧ _call_impl (_compute_dense_output 0 (1 / 2) [1] (Mat 3 1 [[2]; [3]; [4]]))
      (1 / 2)
    = vadd [1] [4].
Proof.
  exact (dense_output_endpoints 0 (1 / 2) [1] [2] [3] [4]
           ltac:(lra) eq_refl).
Defined.

End RadauDense.

(** ** The class [RadauIIa] *)

Module RadauIIaProofs.
Import Radau RadauIIa RadauIIaSpec RadauProofs.

(** *** The exponents of the error scaling *)

Lemma Rabs_pow_le_1 h n : Rabs h <= 1 → Rabs (h ^ n) <= 1.
Proof.
  intros Hh. rewrite <- RPow_abs.
  induction n as [|n IH]; simpl; [lra|].
  pose proof (Rabs_pos h). nra.
Qed.

Lemma Rabs_powerRZ_le_1 h k : Rabs h <= 1 → (0 ≤ k)%Z → Rabs (powerRZ h k) <= 1.
Proof.
  intros Hh Hk. destruct k as [|p|p]; simpl.
  - rewrite Rabs_R1. lra.
  - by apply Rabs_pow_le_1.
  - lia.
Qed.

(** X12: whatever index array is passed, the exponents [Radau] keeps are
    not negative, so the error estimate is never divided by the step size:
    for a step size of magnitude at most one, scaling does not increase the
    magnitude of any component of the error estimate. *)
Theorem radau_scaling_never_amplifies len_y nalg ia ia' alg h error :
  _validate_index_array len_y nalg (Some ia) = Ok ia' →
  Rabs h <= 1 →
  Forall (λ k, (0 ≤ k)%Z) ia'
  ∧ ∀ i e,
      scale_error (Some alg) ia' h error !! i = Some e →
      ∃ e0, error !! i = Some e0 ∧ Rabs e <= Rabs e0.
Proof.
  intros Hv Hh. unfold _validate_index_array in Hv.
  destruct (length _ =? len_y)%nat; simpl in Hv; [|done].
  injection Hv as <-.
  assert (Hpos : Forall (λ k, (0 ≤ k)%Z) ((λ k, Z.max 0 (k - 1)) <$> ia)).
  { apply Forall_fmap, Forall_forall. intros k _. simpl. lia. }
  split; [exact Hpos|].
  intros i e He. unfold scale_error in He.
  rewrite lookup_zip_with in He.
  destruct (error !! i) as [e0|] eqn:E0; [|done]. simpl in He.
  destruct (((λ k, Z.max 0 (k - 1)) <$> ia) !! i) as [k|] eqn:Ek; [|done].
  simpl in He. injection He as <-.
  exists e0. split; [done|].
  rewrite Forall_lookup in Hpos. specialize (Hpos i k Ek).
  rewrite Rabs_mult.
  pose proof (Rabs_powerRZ_le_1 h k Hh Hpos). pose proof (Rabs_pos e0). nra.
Qed.

(** The theorem at an index array with a negative entry and [h = 1/2]. *)
Lemma radau_scaling_never_amplifies_witness :
  _validate_index_array 2 1 (Some [(-3)%Z; 3%Z]) = Ok [0%Z; 2%Z]
  ∧ Forall (λ k, (0 ≤ k)%Z) [0%Z; 2%Z].
Proof.
  split; [reflexivity|].
  refine (proj1 (radau_scaling_never_amplifies 2 1 [(-3)%Z; 3%Z] [0%Z; 2%Z]
                   [1%nat] (1 / 2) [1; 1] eq_refl _)).
  rewrite Rabs_pos_eq; lra.
Defined.

(** *** The initial state vector *)

Lemma setitem_slice_next a b (pre v : vec) m :
  a = length pre → b = (a + length v)%nat → (length v ≤ m)%nat →
  setitem_slice a b v (pre ++ zeros m)
  = Ok ((pre ++ v) ++ zeros (m - length v)).
Proof.
  intros -> -> Hle. unfold setitem_slice.
  rewrite length_app, length_zeros.
  replace (min (length pre) (length pre + m)) with (length pre) by lia.
  replace (max (length pre) (min (length pre + length v) (length pre + m)))
    with (length pre + length v)%nat by lia.
  replace (length pre + length v - length pre)%nat with (length v) by lia.
  rewrite Nat.eqb_refl.
  rewrite take_app_length.
  rewrite drop_app_ge by lia.
  replace (length pre + length v - length pre)%nat with (length v) by lia.
  unfold zeros. rewrite drop_replicate. by rewrite <- app_assoc.
Qed.

Lemma mbind_Ok {A B} (f : A → result B) (x : A) : (Ok x ≫= f) = f x.
Proof. reflexivity. Qed.

Lemma section_of (y a b c : vec) m k :
  y = a ++ b ++ c → m = length a → k = (length a + length b)%nat →
  drop m (take k y) = b.
Proof.
  intros -> -> ->. rewrite take_app_ge by lia.
  replace (length a + length b - length a)%nat with (length b) by lia.
  rewrite take_app_length, drop_app_length. done.
Qed.

Section Init.

Variable np_arange : R → R → R → vec.

(** X13: when the initial arrays of the system have the lengths the system
    declares, [RadauIIa.__init__] packs them at the front of a state
    vector of length [ny] whose remaining entries are zero, and
    [np.array_split] with the stored split indices, as [fun], [jac],
    [event] and [solve] use it, returns them again, followed by zero
    multipliers [mu_S] and [mu_g]. *)
Theorem radauIIa_initial_state system t1 dt rtol atol d lazy :
  t0 system < t1 →
  length (q0 system) = nq system → length (u0 system) = nu system →
  length (la_g0 system) = nla_g system →
  length (la_gamma0 system) = nla_gamma system →
  ∃ self,
    init np_arange system t1 dt rtol atol d lazy = Ok self
    ∧ length (y0 self) = ny self
    ∧ length (index_array self) = ny self
    ∧ y0 self
      = q0 system ++ u0 system ++ la_g0 system ++ la_gamma0 system
        ++ zeros (nla_S system)
        ++ zeros (match d with GGL => nla_g system | _ => 0%nat end)
    ∧ array_split (y0 self) (split_y self)
      = [q0 system; u0 system; la_g0 system; la_gamma0 system;
         zeros (nla_S system);
         zeros (match d with GGL => nla_g system | _ => 0%nat end)].
Proof.
  intros Ht Hq Hu Hg Hgam. unfold init.
  rewrite (proj2 (Rltb_lt _ _) Ht), mbind_Ok. cbv zeta.
  set (r := match d with GGL => nla_g system | _ => 0%nat end).
  assert (Hny : Radau.ny d (nq system) (nu system) (nla_g system)
                  (nla_gamma system) (nla_S system)
                = (nq system + nu system + nla_g system + nla_gamma system
                   + nla_S system + r)%nat).
  { subst r. destruct d; simpl; lia. }
  rewrite Hny.
  cbn [cumsum cumsum_from nth]. rewrite !Nat.add_0_l.
  set (N := (nq system + nu system + nla_g system + nla_gamma system
              + nla_S system + r)%nat).
  change (zeros N) with ([] ++ zeros N).
  rewrite (setitem_slice_next 0 (nq system) [] (q0 system) N)
    by (simpl; lia).
  rewrite mbind_Ok, app_nil_l.
  rewrite (setitem_slice_next (nq system) (nq system + nu system)
             (q0 system) (u0 system) (N - length (q0 system)))
    by lia.
  rewrite mbind_Ok.
  rewrite (setitem_slice_next (nq system + nu system)
             (nq system + nu system + nla_g system)
             (q0 system ++ u0 system) (la_g0 system)
             (N - length (q0 system) - length (u0 system)))
    by (rewrite ?length_app; lia).
  rewrite mbind_Ok.
  rewrite (setitem_slice_next (nq system + nu system + nla_g system)
             (nq system + nu system + nla_g system + nla_gamma system)
             ((q0 system ++ u0 system) ++ la_g0 system) (la_gamma0 system)
             (N - length (q0 system) - length (u0 system)
              - length (la_g0 system)))
    by (rewrite ?length_app; lia).
  rewrite mbind_Ok.
  subst N.
  eexists. split; [reflexivity|]. cbn [y0 ny index_array split_y].
  assert (Hrest :
    (nq system + nu system + nla_g system + nla_gamma system + nla_S system
     + r - length (q0 system) - length (u0 system) - length (la_g0 system)
     - length (la_gamma0 system))%nat = (nla_S system + r)%nat) by lia.
  rewrite Hrest.
  assert (Hz : zeros (nla_S system + r) = zeros (nla_S system) ++ zeros r).
  { unfold zeros. by rewrite replicate_add. }
  rewrite Hz, <- !app_assoc.
  split; [rewrite !length_app, !length_zeros; lia|].
  split; [by rewrite length_index_array|].
  split; [reflexivity|].
  unfold array_split. cbn [app zip_with].
  set (z := zeros (nla_S system) ++ zeros r).
  repeat (apply (f_equal2 cons)); try reflexivity.
  - apply (section_of _ [] (q0 system)
             (u0 system ++ la_g0 system ++ la_gamma0 system ++ z));
      [done | done | simpl; lia].
  - apply (section_of _ (q0 system) (u0 system)
             (la_g0 system ++ la_gamma0 system ++ z)); [done | lia | lia].
  - apply (section_of _ (q0 system ++ u0 system) (la_g0 system)
             (la_gamma0 system ++ z));
      [by rewrite <- !app_assoc | rewrite !length_app; lia
      | rewrite !length_app; lia].
  - apply (section_of _ ((q0 system ++ u0 system) ++ la_g0 system)
             (la_gamma0 system) z);
      [by rewrite <- !app_assoc | rewrite !length_app; lia
      | rewrite !length_app; lia].
  - subst z.
    apply (section_of _ (((q0 system ++ u0 system) ++ la_g0 system)
                         ++ la_gamma0 system)
             (zeros (nla_S system)) (zeros r));
      [by rewrite <- !app_assoc | rewrite !length_app; lia
      | rewrite !length_app, length_zeros; lia].
  - subst z.
    rewrite <- (app_nil_r (zeros r)) at 2.
    apply (section_of _ ((((q0 system ++ u0 system) ++ la_g0 system)
                          ++ la_gamma0 system) ++ zeros (nla_S system))
             (zeros r) []);
      [by rewrite <- !app_assoc, app_nil_r
      | rewrite !length_app, length_zeros; lia
      | rewrite !length_app, !length_zeros; lia].
Qed.

(** X14: the constructor of [RadauIIa] raises [TypeError] when [t1] is not
    larger than [t0] (the [ValueError] it builds is not raised but added to
    [dt]), and [ValueError] when the initial position has neither the
    length [nq] nor length one. *)
Theorem radauIIa_init_raises system t1 dt rtol atol d lazy :
  (t1 <= t0 system →
   init np_arange system t1 dt rtol atol d lazy = Raise TypeError)
  ∧ (t0 system < t1 →
     length (q0 system) ≠ nq system → length (q0 system) ≠ 1%nat →
     init np_arange system t1 dt rtol atol d lazy = Raise ValueError).
Proof.
  split.
  - intros Ht. unfold init.
    by rewrite (proj2 (Rltb_nlt _ _)) by lra.
  - intros Ht Hq H1. unfold init.
    rewrite (proj2 (Rltb_lt _ _) Ht), mbind_Ok. cbv zeta.
    cbn [cumsum cumsum_from nth]. rewrite !Nat.add_0_l.
    assert (E : setitem_slice 0 (nq system) (q0 system)
                  (zeros (Radau.ny d (nq system) (nu system) (nla_g system)
                            (nla_gamma system) (nla_S system)))
                = Raise ValueError).
    { unfold setitem_slice. rewrite length_zeros.
      assert (Hny : (nq system
                     ≤ Radau.ny d (nq system) (nu system) (nla_g system)
                         (nla_gamma system) (nla_S system))%nat)
        by (destruct d; simpl; lia).
      replace (max (min 0 _) (min (nq system) _) - min 0 _)%nat
        with (nq system) by lia.
      rewrite (proj2 (Nat.eqb_neq _ _) Hq), (proj2 (Nat.eqb_neq _ _) H1).
      done. }
    by rewrite E.
Qed.

End Init.

(** The theorem at the small system in the stabilised index 2
    formulation. *)
Lemma radauIIa_initial_state_witness :
  ∃ self,
    init two_points small_system 1 (1 / 10) (1 / 1000) (1 / 1000) GGL true
    = Ok self
    ∧ y0 self = [1; 2; 3; 4; 0; 0]
    ∧ array_split (y0 self) (split_y self) = [[1; 2]; [3]; [4]; []; [0]; [0]].
Proof.
  destruct (radauIIa_initial_state two_points small_system 1 (1 / 10)
              (1 / 1000) (1 / 1000) GGL true
              ltac:(simpl; lra) eq_refl eq_refl eq_refl eq_refl)
    as (self & H & _ & _ & Hy & Hs).
  exists self. split; [exact H|]. split; [exact Hy | exact Hs].
Defined.

(** The theorem at an initial position of length three for two
    coordinates. *)
Lemma radauIIa_init_raises_witness :
  init two_points misshaped_system 1 (1 / 10) (1 / 1000) (1 / 1000) GGL true
  = Raise ValueError.
Proof.
  apply (proj2 (radauIIa_init_raises two_points misshaped_system 1 (1 / 10)
                  (1 / 1000) (1 / 1000) GGL true));
    [simpl; lra | simpl; lia | simpl; lia].
Defined.

End RadauIIaProofs.

(** ** The rod: the quaternion constraint *)

Module RodConstraint.
Import Rod RodSpec MoreauProofs MoreauContact RodStrains RodCallback
  RodKinematics.

Lemma nodalDOF_la_S_node self node :
  (node < nnodes_p self)%nat → nth node (nodalDOF_la_S self) [] = [node].
Proof.
  intros H. unfold nodalDOF_la_S. rewrite nth_fmap_seq by done.
  unfold dim_g_S. simpl. by rewrite Nat.mul_1_r.
Qed.

Lemma concat_singletons k n : concat ((λ i, [i]) <$> seq k n) = seq k n.
Proof.
  revert k. induction n as [|n IH]; intros k; [done|].
  simpl. by rewrite IH.
Qed.

Lemma la_S_blocks self :
  (λ node, nth node (nodalDOF_la_S self) []) <$> seq 0 (nnodes_p self)
  = (λ i, [i]) <$> seq 0 (nnodes_p self).
Proof.
  apply list_fmap_ext. intros i node Hn.
  apply lookup_seq in Hn as [-> Hn]. by apply nodalDOF_la_S_node.
Qed.

Lemma la_S_NoDup self :
  NoDup (concat ((λ node, nth node (nodalDOF_la_S self) [])
                 <$> seq 0 (nnodes_p self))).
Proof. rewrite la_S_blocks, concat_singletons. apply NoDup_seq. Qed.

Lemma length_g_S self t q : length (g_S self t q) = nnodes_p self.
Proof.
  unfold g_S. rewrite length_loop, length_zeros. unfold nla_S, dim_g_S. lia.
Qed.

(** The constraint of a node is [p @ p - 1] for its quaternion [p]. *)
Lemma nth_g_S self t q node :
  (node < nnodes_p self)%nat →
  nth node (g_S self t q) 0
  = dot (gather q (nth node (nodalDOF_p self) []))
      (gather q (nth node (nodalDOF_p self) [])) - 1.
Proof.
  intros Hn. unfold g_S.
  rewrite (nth_loop_in (λ node, nth node (nodalDOF_la_S self) [])
             (λ node, [dot (gather q (nth node (nodalDOF_p self) []))
                         (gather q (nth node (nodalDOF_p self) [])) - 1])
             _ _ node 0 node).
  - done.
  - apply la_S_NoDup.
  - apply elem_of_seq. lia.
  - by rewrite nodalDOF_la_S_node.
  - rewrite length_zeros. unfold nla_S, dim_g_S. lia.
Qed.

Lemma norm_one_dot (p : vec) : norm p = 1 → dot p p = 1.
Proof.
  unfold norm. intros H.
  rewrite <- (sqrt_sqrt (dot p p)) by apply dot_self_nonneg.
  rewrite H. lra.
Qed.

(** X15: after the step callback of the rod the quaternion constraint
    [g_S] vanishes, provided no nodal quaternion was zero. *)
Theorem g_S_after_step_callback self t q u :
  wf_quaternion_dofs self (length q) →
  (∀ node blk,
     nodalDOF_p self !! node = Some blk → norm (gather q blk) ≠ 0) →
  g_S self t (step_callback self t q u).1 = zeros (nla_S self).
Proof.
  intros Hwf Hnz.
  destruct (step_callback_spec self t q u Hwf) as (q' & -> & _ & _ & Hblk).
  cbn [fst]. apply (nth_ext _ _ 0 0).
  { rewrite length_g_S, length_zeros. unfold nla_S, dim_g_S. lia. }
  intros node Hn. rewrite length_g_S in Hn.
  rewrite nth_g_S, nth_zeros by done.
  destruct (lookup_lt_is_Some_2 (nodalDOF_p self) node) as [blk Hb].
  { by rewrite (wf_p_length _ _ Hwf). }
  rewrite (nth_lookup_Some _ _ _ _ Hb).
  destruct (Hblk node blk Hb) as [_ Hone].
  rewrite (norm_one_dot _ (Hone (Hnz node blk Hb))). lra.
Qed.

(** X16: the step callback of the rod is idempotent: applied to its own
    result it changes nothing, provided no nodal quaternion was zero. *)
Theorem step_callback_idempotent self t q u :
  wf_quaternion_dofs self (length q) →
  (∀ node blk,
     nodalDOF_p self !! node = Some blk → norm (gather q blk) ≠ 0) →
  step_callback self t (step_callback self t q u).1
    (step_callback self t q u).2
  = step_callback self t q u.
Proof.
  intros Hwf Hnz.
  destruct (step_callback_spec self t q u Hwf)
    as (q' & Hq' & Hlen & Hout & Hblk).
  rewrite Hq'. cbn [fst snd].
  assert (Hwf' : wf_quaternion_dofs self (length q')).
  { rewrite Hlen. exact Hwf. }
  destruct (step_callback_spec self t q' u Hwf')
    as (q'' & -> & Hlen' & Hout' & Hblk').
  f_equal. apply (nth_ext _ _ 0 0); [lia|].
  intros k Hk.
  destruct (decide (k ∈ concat (nodalDOF_p self))) as [Hin|Hnin];
    [|by apply Hout'].
  apply elem_of_concat in Hin as (blk & Hkb & Hb).
  apply list_elem_of_lookup in Hb as [node Hb].
  apply list_elem_of_lookup in Hkb as [j Hj].
  destruct (Hblk node blk Hb) as [_ Hone].
  destruct (Hblk' node blk Hb) as [Hg _].
  rewrite (Hone (Hnz node blk Hb)), vdiv_one in Hg.
  apply (f_equal (λ l, nth j l 0)) in Hg. unfold gather in Hg.
  by rewrite !nth_lookup, !list_lookup_fmap, Hj in Hg.
Qed.

Lemma norm_two_unit : norm (gather [2; 0; 0; 0] [0; 1; 2; 3]%nat) ≠ 0.
Proof. rewrite norm_scaled_unit by lra. lra. Qed.

Lemma one_node_nonzero node blk :
  nodalDOF_p one_node_rod !! node = Some blk →
  norm (gather [2; 0; 0; 0] blk) ≠ 0.
Proof.
  destruct node as [|node]; simpl; [|done].
  intros [= <-]. apply norm_two_unit.
Qed.

(** The theorem at the quaternion [(2, 0, 0, 0)]. *)
Lemma g_S_after_step_callback_witness :
  g_S one_node_rod 0 (step_callback one_node_rod 0 [2; 0; 0; 0] [0; 0; 0]).1
  = zeros 1.
Proof.
  exact (g_S_after_step_callback one_node_rod 0 [2; 0; 0; 0] [0; 0; 0]
           one_node_wf one_node_nonzero).
Defined.

(** The theorem at the quaternion [(2, 0, 0, 0)]. *)
Lemma step_callback_idempotent_witness :
  step_callback one_node_rod 0
    (step_callback one_node_rod 0 [2; 0; 0; 0] [0; 0; 0]).1
    (step_callback one_node_rod 0 [2; 0; 0; 0] [0; 0; 0]).2
  = step_callback one_node_rod 0 [2; 0; 0; 0] [0; 0; 0].
Proof.
  exact (step_callback_idempotent one_node_rod 0 [2; 0; 0; 0] [0; 0; 0]
           one_node_wf one_node_nonzero).
Defined.

(** *** The Jacobian of the constraint *)

Lemma dot_vadd_l a b c :
  length a = length b → dot (vadd a b) c = dot a c + dot b c.
Proof.
  revert b c. induction a as [|x a IH]; intros [|y b] c H;
    simpl in H; try discriminate.
  - change (vadd [] []) with (@nil R). rewrite dot_nil_l. lra.
  - change (vadd (x :: a) (y :: b)) with (x + y :: vadd a b).
    destruct c as [|z c]; [rewrite !dot_nil_r; lra|].
    rewrite !dot_cons, IH by lia. lra.
Qed.

Lemma dot_comm a b : dot a b = dot b a.
Proof.
  revert b. induction a as [|x a IH]; intros [|y b];
    rewrite ?dot_nil_l, ?dot_nil_r; try done.
  rewrite !dot_cons, IH. lra.
Qed.

Lemma dot_vadd_r a b c :
  length b = length c → dot a (vadd b c) = dot a b + dot a c.
Proof.
  intros H. by rewrite dot_comm, dot_vadd_l, (dot_comm b), (dot_comm c).
Qed.

Lemma nth_vadd_same (a b : vec) i :
  length a = length b → nth i (vadd a b) 0 = nth i a 0 + nth i b 0.
Proof.
  intros H. destruct (decide (i < length a)%nat) as [Hlt|Hge].
  - apply RadauDense.nth_vadd; lia.
  - rewrite !nth_overflow; rewrite ?length_vadd; try lia. lra.
Qed.

Lemma gather_vadd (a b : vec) idx :
  length a = length b →
  gather (vadd a b) idx = vadd (gather a idx) (gather b idx).
Proof.
  intros H. unfold gather. induction idx as [|i idx IH]; [done|].
  rewrite !fmap_cons, IH, nth_vadd_same by done. reflexivity.
Qed.

Lemma shape_g_S_q self t q :
  Coo.shape (g_S_q self t q) = (nla_S self, nq self).
Proof. unfold g_S_q. by rewrite shape_fill. Qed.

(** The row of a node in [g_S_q @ v] is [2 * p @ v[nodalDOF_p]]. *)
Lemma nth_g_S_q self t q v node :
  (node < nnodes_p self)%nat →
  nth node (Coo.matvec (g_S_q self t q) v) 0
  = 2 * dot (gather q (nth node (nodalDOF_p self) []))
        (gather v (nth node (nodalDOF_p self) [])).
Proof.
  intros Hn.
  rewrite nth_coo_matvec
    by (rewrite shape_g_S_q; unfold nla_S, dim_g_S; simpl; lia).
  unfold g_S_q. rewrite data_fill. cbn [Coo.data Coo.empty app].
  rewrite (row_sum_blocks_in
             (λ node, nth node (nodalDOF_la_S self) [])
             (λ node, nth node (nodalDOF_p self) [])
             (λ node, [vscale 2 (gather q (nth node (nodalDOF_p self) []))])
             _ _ node 0 node).
  - unfold rows_dot. cbn [fmap list_fmap nth]. apply dot_vscale_l.
  - apply la_S_NoDup.
  - apply elem_of_seq. lia.
  - by rewrite nodalDOF_la_S_node.
Qed.

(** X17: [g_S_q] is the Jacobian of [g_S], exactly: for a displacement [v]
    of the coordinates the constraint of every node changes by the row of
    the node in [g_S_q(t, q) @ v] plus the square [w @ w] of the
    displacement [w] of its quaternion. *)
Theorem g_S_q_is_jacobian self t q v node :
  length q = length v → (node < nnodes_p self)%nat →
  let w := gather v (nth node (nodalDOF_p self) []) in
  nth node (g_S self t (vadd q v)) 0
  = nth node (g_S self t q) 0
    + nth node (Coo.matvec (g_S_q self t q) v) 0
    + dot w w.
Proof.
  intros Hlen Hn w. subst w.
  rewrite !nth_g_S, nth_g_S_q by done.
  rewrite gather_vadd by done.
  set (p := gather q _). set (w := gather v _).
  assert (Hpw : length p = length w)
    by (subst p w; by rewrite !length_gather).
  rewrite dot_vadd_l, !dot_vadd_r by done.
  rewrite (dot_comm w p). lra.
Qed.

(** The theorem at the unit quaternion displaced along itself. *)
Lemma g_S_q_is_jacobian_witness :
  nth 0 (g_S one_node_rod 0 (vadd [1; 0; 0; 0] [1; 0; 0; 0])) 0
  = nth 0 (g_S one_node_rod 0 [1; 0; 0; 0]) 0
    + nth 0 (Coo.matvec (g_S_q one_node_rod 0 [1; 0; 0; 0]) [1; 0; 0; 0]) 0
    + dot (gather [1; 0; 0; 0] [0; 1; 2; 3]%nat)
        (gather [1; 0; 0; 0] [0; 1; 2; 3]%nat).
Proof.
  exact (g_S_q_is_jacobian one_node_rod 0 [1; 0; 0; 0] [1; 0; 0; 0] 0
           eq_refl ltac:(simpl; lia)).
Defined.

End RodConstraint.

(** ** The rod: properties of the kinematic maps *)

Module RodKinematicMaps.
Import Rod RodSpec MoreauProofs MoreauContact RodStrains RodCallback
  RodKinematics RodConstraint.

Lemma foldl_ext_in {A B} (f g : A → B → A) (a : A) (l : list B) :
  (∀ a x, x ∈ l → f a x = g a x) → foldl f a l = foldl g a l.
Proof.
  revert a. induction l as [|x l IH]; intros a H; [done|].
  simpl. rewrite H by (by left). apply IH.
  intros a' y Hy. apply H. by right.
Qed.

Lemma gather_vscale c (a : vec) idx :
  gather (vscale c a) idx = vscale c (gather a idx).
Proof.
  unfold gather, vscale. rewrite <- list_fmap_compose.
  apply list_fmap_ext. intros _ i _. simpl.
  rewrite !nth_lookup, list_lookup_fmap.
  destruct (a !! i); simpl; lra.
Qed.

Lemma normalize_vscale c (p : vec) :
  0 < c → vdiv (vscale c p) (norm (vscale c p)) = vdiv p (norm p).
Proof.
  intros Hc. rewrite norm_vscale, Rabs_pos_eq by lra.
  unfold vdiv, vscale. rewrite <- list_fmap_compose.
  apply list_fmap_ext. intros _ x _. simpl.
  unfold Rdiv. rewrite Rinv_mult.
  transitivity (c * / c * (x * / norm p)); [lra|].
  rewrite Rinv_r by lra. lra.
Qed.

Section Maps.

Variable T_SO3_inv_quat : vec → list vec.

(** X18: [q_dot_u] depends on the direction of every nodal quaternion
    only: scaling the coordinates by a positive factor does not change the
    kinematic matrix. *)
Theorem q_dot_u_scale_invariant self t q c :
  0 < c →
  q_dot_u T_SO3_inv_quat self t (vscale c q)
  = q_dot_u T_SO3_inv_quat self t q.
Proof.
  intros Hc. unfold q_dot_u. cbv zeta.
  apply foldl_ext_in. intros coo node _.
  by rewrite gather_vscale, normalize_vscale.
Qed.

Lemma nth_vscale c (a : vec) i : nth i (vscale c a) 0 = c * nth i a 0.
Proof.
  unfold vscale. rewrite !nth_lookup, list_lookup_fmap.
  destruct (a !! i); simpl; lra.
Qed.

Lemma nth_rows_dot_vadd B (a b : vec) j :
  length a = length b →
  nth j (rows_dot B (vadd a b)) 0
  = nth j (rows_dot B a) 0 + nth j (rows_dot B b) 0.
Proof.
  intros H. unfold rows_dot. rewrite !nth_lookup, !list_lookup_fmap.
  destruct (B !! j) as [r|]; simpl; [by apply dot_vadd_r | lra].
Qed.

Lemma nth_rows_dot_vscale B c (a : vec) j :
  nth j (rows_dot B (vscale c a)) 0 = c * nth j (rows_dot B a) 0.
Proof.
  unfold rows_dot. rewrite !nth_lookup, !list_lookup_fmap.
  destruct (B !! j) as [r|]; simpl; [apply dot_vscale_r | lra].
Qed.

(** X19: for a fixed configuration the kinematic map [q_dot] is linear in
    the velocity. *)
Theorem q_dot_linear self t q u v c :
  wf_kinematic_dofs self → length q = nq self → length u = length v →
  q_dot T_SO3_inv_quat self t q (vadd u v)
  = vadd (q_dot T_SO3_inv_quat self t q u) (q_dot T_SO3_inv_quat self t q v)
  ∧ q_dot T_SO3_inv_quat self t q (vscale c u)
    = vscale c (q_dot T_SO3_inv_quat self t q u).
Proof.
  intros Hwf Hq Huv.
  pose proof (length_q_dot T_SO3_inv_quat self Hwf t q) as Hlen.
  split; apply (nth_ext _ _ 0 0);
    rewrite ?length_vadd, ?length_vscale, !Hlen; try lia;
    intros k Hk; rewrite ?nth_vadd_same, ?nth_vscale by (by rewrite !Hlen).
  - destruct (decide (k < nq_r self)%nat) as [Hc|Hc].
    { rewrite !(q_dot_centerline T_SO3_inv_quat self Hwf) by done.
      by apply nth_vadd_same. }
    destruct (decide (k ∈ concat (nodalDOF_p self))) as [Hin|Hout].
    + apply elem_of_concat in Hin as (blk & Hkb & Hb).
      apply list_elem_of_lookup in Hb as [node Hb].
      apply list_elem_of_lookup in Hkb as [j Hj].
      rewrite !(q_dot_block T_SO3_inv_quat self Hwf _ _ _ node blk j k)
        by done.
      unfold K_omega_IK. rewrite gather_vadd by done.
      apply nth_rows_dot_vadd. by rewrite !length_gather.
    + rewrite !(q_dot_other T_SO3_inv_quat self Hwf) by (done || lia). lra.
  - destruct (decide (k < nq_r self)%nat) as [Hc|Hc].
    { rewrite !(q_dot_centerline T_SO3_inv_quat self Hwf) by done.
      apply nth_vscale. }
    destruct (decide (k ∈ concat (nodalDOF_p self))) as [Hin|Hout].
    + apply elem_of_concat in Hin as (blk & Hkb & Hb).
      apply list_elem_of_lookup in Hb as [node Hb].
      apply list_elem_of_lookup in Hkb as [j Hj].
      rewrite !(q_dot_block T_SO3_inv_quat self Hwf _ _ _ node blk j k)
        by done.
      unfold K_omega_IK. rewrite gather_vscale.
      apply nth_rows_dot_vscale.
    + rewrite !(q_dot_other T_SO3_inv_quat self Hwf) by (done || lia). lra.
Qed.

End Maps.

(** The theorem at the unit quaternion and two angular velocities. *)
Lemma q_dot_linear_witness :
  q_dot T_linear one_node_rod 0 [1; 0; 0; 0] (vadd [1; 0; 0] [0; 1; 0])
  = vadd (q_dot T_linear one_node_rod 0 [1; 0; 0; 0] [1; 0; 0])
      (q_dot T_linear one_node_rod 0 [1; 0; 0; 0] [0; 1; 0]).
Proof.
  exact (proj1 (q_dot_linear T_linear one_node_rod 0 [1; 0; 0; 0]
                  [1; 0; 0] [0; 1; 0] 1 one_node_kinematic_wf eq_refl
                  eq_refl)).
Defined.

(** The theorem at the quaternion [(1, 0, 0, 0)] scaled by two. *)
Lemma q_dot_u_scale_invariant_witness :
  q_dot_u T_linear one_node_rod 0 (vscale 2 [1; 0; 0; 0])
  = q_dot_u T_linear one_node_rod 0 [1; 0; 0; 0].
Proof.
  exact (q_dot_u_scale_invariant T_linear one_node_rod 0 [1; 0; 0; 0] 2
           ltac:(lra)).
Defined.

End RodKinematicMaps.

(** ** The rod: the cached reference configuration *)

Module RodReference.
Import Rod RodSpec RodStrains.

Section Reference.

Variable _eval : vec → R → vec * list vec * vec * vec.

(** X20: what [set_reference_strains] caches: one Jacobian [J] per element
    and quadrature point, none of them negative; where [J] is not zero the
    cached reference strain [K_Gamma0] is a unit vector; and caching the
    same reference configuration again changes nothing. *)
Theorem reference_strains_cached self Q el i :
  (el < nelement self)%nat → (i < nquadrature self)%nat →
  let self' := set_reference_strains _eval self Q in
  length (J self') = nelement self
  ∧ length (nth el (J self') []) = nquadrature self
  ∧ 0 <= nth i (nth el (J self') []) 0
  ∧ (nth i (nth el (J self') []) 0 ≠ 0 →
     norm (nth i (nth el (K_Gamma0 self') []) []) = 1)
  ∧ set_reference_strains _eval self' Q = self'.
Proof.
  intros Hel Hi self'.
  destruct (cached_reference_strains _eval self Q el i Hel Hi)
    as (HJ & HG & _).
  cbv zeta in HJ, HG. fold self' in HJ, HG.
  split; [|split; [|split; [|split]]].
  - subst self'. unfold set_reference_strains. cbn [J].
    by rewrite length_fmap, length_seq.
  - subst self'. unfold set_reference_strains. cbn [J].
    rewrite (nth_fmap_seq _ (nelement self)) by done.
    by rewrite length_fmap, length_seq.
  - rewrite HJ. apply norm_nonneg.
  - rewrite HJ, HG. apply norm_vdiv_self.
  - reflexivity.
Qed.

End Reference.

(** The theorem at the one-node rod seen as a straight rod. *)
Lemma reference_strains_cached_witness :
  nth 0 (nth 0 (J (set_reference_strains eval_straight one_node_rod
                     [1; 0; 0; 0])) []) 0 ≠ 0
  ∧ norm (nth 0 (nth 0 (K_Gamma0 (set_reference_strains eval_straight
                                    one_node_rod [1; 0; 0; 0])) []) []) = 1.
Proof.
  destruct (reference_strains_cached eval_straight one_node_rod [1; 0; 0; 0]
              0 0 ltac:(simpl; lia) ltac:(simpl; lia))
    as (_ & _ & _ & H & _).
  assert (HJ : nth 0 (nth 0 (J (set_reference_strains eval_straight
                                  one_node_rod [1; 0; 0; 0])) []) 0 ≠ 0).
  { simpl. unfold norm, dot. simpl.
    replace (1 * 1 + (0 * 0 + (0 * 0 + 0))) with 1 by lra.
    rewrite sqrt_1. lra. }
  split; [exact HJ | exact (H HJ)].
Defined.

End RodReference.

(** ** The fixed-point step: what the returned velocity belongs to *)

Module MoreauBalance.
Import Moreau MoreauSpec MoreauProofs MoreauContact.

Section Balance.

Variable spsolve : matrix → vec → vec.

(** A property of the locals at the start of every pass holds at the start
    of the pass that passes the test. *)
Lemma fp_loop_accepting_pass (Inv : FpState → Prop) self a n j s :
  Inv s →
  (∀ j s, Inv s → s_converged (fp_prox self a j s) = false →
          Inv (fp_resolve spsolve self a (fp_prox self a j s))) →
  s_converged s = false →
  s_converged (fp_loop spsolve self a n j s) = true →
  ∃ j' s', Inv s'
           ∧ fp_loop spsolve self a n j s = fp_prox self a j' s'
           ∧ s_converged (fp_prox self a j' s') = true.
Proof.
  intros Hs Hstep. revert j s Hs.
  induction n as [|n IH]; intros j s Hs Hc0 Hc.
  { simpl in Hc. congruence. }
  rewrite fp_loop_S in *.
  destruct (s_converged (fp_prox self a j s)) eqn:E.
  - by exists j, s.
  - apply (IH (S j)); [by apply Hstep | | done].
    unfold fp_resolve. destruct (lin_solve _ _ _ _ _) as [[? ?] ?].
    exact E.
Qed.

(** X21: in an accepted step of the fixed-point scheme with an active
    contact, the returned velocity and bilateral multipliers solve the linear
    system for the impulses [P_i] the last pass started from, not for the
    returned impulses: the returned active normal impulses are the projection
    computed from [P_i] and the returned velocity, and the returned error,
    which is below [fix_point_tol], is the error function of the difference
    between the returned impulses and [P_i] on the active components. *)
Theorem fixed_point_velocity_lags self :
  wf_contacts self →
  np_any (a_I_N (assemble self)) = true →
  converged (step_fixed_point spsolve self) = true →
  let a := assemble self in
  let m := model self in
  let I_N := a_I_N a in
  let I_T := a_I_T a in
  let r := step_fixed_point spsolve self in
  ∃ P_N_i P_T_i,
    (r_uk1 r, r_la_gk1 r, r_la_gammak1 r)
    = lin_solve spsolve self a P_N_i P_T_i
    ∧ select I_N (r_P_Nk1 r)
      = prox_Rn0
          (vsub (select I_N P_N_i)
                (vmul (select I_N (prox_r_N m))
                      (select I_N
                         (xi_N m (a_tk1 a) (a_qk1 a) (uk self) (r_uk1 r)))))
    ∧ error r
      = fix_point_error_function self
          (vsub (select I_N (r_P_Nk1 r)) (select I_N P_N_i)
           ++ vsub (gather (r_P_Tk1 r) I_T) (gather P_T_i I_T))
    ∧ error r < fix_point_tol self.
Proof.
  intros Hwf Hany Hc a m I_N I_T r. subst a m I_N I_T r.
  unfold step_fixed_point in *. cbv zeta in *. rewrite Hany in *.
  unfold result_of in *.
  cbn [converged error r_uk1 r_la_gk1 r_la_gammak1 r_P_Nk1 r_P_Tk1] in *.
  set (a := assemble self) in *.
  destruct (fp_loop_accepting_pass
              (λ s, fp_inv self s
                    ∧ (s_uk1 s, s_la_gk1 s, s_la_gammak1 s)
                      = lin_solve spsolve self a (s_P_Nk1_i s) (s_P_Tk1_i s))
              self a (fix_point_max_iter self) 0 (fp_init spsolve self a))
    as (j & s & (Hinv & Hbal) & -> & Hcj).
  - split; [by apply fp_inv_init | apply fp_init_velocity].
  - intros j s (Hinv & _) E. split; [by apply fp_inv_next|].
    unfold fp_resolve.
    destruct (lin_solve spsolve self a
                (s_P_Nk1_i1 (fp_prox self a j s))
                (s_P_Tk1_i1 (fp_prox self a j s))) as [[u lg] lgam] eqn:El.
    cbn [s_uk1 s_la_gk1 s_la_gammak1 s_P_Nk1_i s_P_Tk1_i]. by rewrite El.
  - by rewrite fp_init_converged, Hany.
  - exact Hc.
  - exists (s_P_Nk1_i s), (s_P_Tk1_i s).
    destruct (fp_prox_accepted _ _ _ _ Hcj) as [HPN HPT].
    rewrite HPN, HPT, (inv_P_Nk1 _ _ Hinv), (inv_P_Tk1 _ _ Hinv).
    assert (HN : select (a_I_N a)
                   (mask_assign (a_I_N a) (zeros (nla_N (model self)))
                      (select (a_I_N a) (new_P_N self a s)))
                 = select (a_I_N a) (new_P_N self a s)).
    { subst a. apply select_mask_assign.
      - by rewrite (length_I_N self Hwf), length_zeros.
      - apply length_select.
        rewrite length_new_P_N, length_zeros. by destruct Hinv. }
    assert (HT : gather
                   (scatter (zeros (nla_T (model self))) (a_I_T a)
                      (gather (new_P_T self a s) (a_I_T a))) (a_I_T a)
                 = gather (new_P_T self a s) (a_I_T a)).
    { subst a. apply gather_ext. intros k Hk.
      by rewrite (nth_P_T self s Hwf k), decide_True. }
    rewrite HN, HT.
    split; [exact Hbal|].
    split; [exact (select_new_P_N self s Hwf Hinv)|].
    split; [reflexivity|].
    unfold fp_prox in Hcj. cbv zeta in Hcj. cbn [s_converged] in Hcj.
    apply Rltb_lt. exact Hcj.
Qed.

End Balance.

(** The theorem at the point mass resting on the plane: the velocity [0]
    belongs to the stored impulse [1], which the pass reproduces. *)
Lemma fixed_point_velocity_lags_witness :
  wf_contacts (point_mass_solver 0 0 10 5)
  ∧ np_any (a_I_N (assemble (point_mass_solver 0 0 10 5))) = true
  ∧ converged (step_fixed_point solve_1x1 (point_mass_solver 0 0 10 5)) = true
  ∧ error (step_fixed_point solve_1x1 (point_mass_solver 0 0 10 5))
    < fix_point_tol (point_mass_solver 0 0 10 5).
Proof.
  assert (Hany : np_any (a_I_N (assemble (point_mass_solver 0 0 10 5)))
                 = true).
  { by rewrite (proj1 resting_mass_assemble). }
  assert (Hc : converged
                 (step_fixed_point solve_1x1 (point_mass_solver 0 0 10 5))
               = true) by (by rewrite resting_mass_step).
  split; [apply resting_mass_wf|]. split; [exact Hany|]. split; [exact Hc|].
  destruct (fixed_point_velocity_lags solve_1x1 (point_mass_solver 0 0 10 5)
              resting_mass_wf Hany Hc) as (_ & _ & _ & _ & _ & H).
  exact H.
Defined.

End MoreauBalance.
